(** * A sparse Merkle tree over a key-value store (src/merkle_tree.ts)

    The development embeds the two classes of [merkle_tree.ts]:

    - [LazyTree], the in-memory engine: a sparse map from heap-layout node
      indices to digests, a table of empty-subtree digests, and the
      [get] / [set] / [getPath] operations;
    - [MerkleTree], the persistent tree: construction and restore
      ([new]), [updateElement], [getHashPath], [getRoot], written against
      the LevelUp store interface.

    JavaScript numbers that hold node indices and depths are integers below
    2^53 on every path the theorems cover, so they are modelled by [Z]
    exactly.  A digest or payload ([Buffer]) is a list of bytes; a value that
    may be [undefined] in the source is an [option].

    An operation of the model returns [None] where the source would hand
    [undefined] to the hasher or call a Buffer method on it; what happens
    then is decided outside [merkle_tree.ts].  On a handle built by the
    constructor and an in-range index every operation returns [Some]. *)

From Equations Require Import Equations.
From stdpp Require Import gmap strings list fin_maps.
From Stdlib Require Import ZArith Lia.
From Stdlib.Strings Require Import Byte Ascii.
From Stdlib.Numbers Require Import DecimalString.

Open Scope Z_scope.

(** ** Buffers *)

Abbreviation Buffer := (list byte).

#[global] Instance byte_eq_decision : EqDecision byte := Byte.byte_eq_dec.

Definition byte_of_Z (z : Z) : byte :=
  default x00 (Byte.of_N (Z.to_N (z mod 256))).

Definition Z_of_byte (b : byte) : Z := Z.of_N (Byte.to_N b).

(** [Buffer.alloc(n)]: [n] zero bytes. *)
Definition Buffer_alloc (n : Z) : Buffer := replicate (Z.to_nat n) x00.

(** [buf.slice(start, end)] for [0 <= start <= end]. *)
Definition Buffer_slice (buf : Buffer) (start end_ : Z) : Buffer :=
  take (Z.to_nat (end_ - start)) (drop (Z.to_nat start) buf).

(** [src.copy(target)]: overwrite the front of [target] with as much of
    [src] as fits. *)
Definition Buffer_copy (src target : Buffer) : Buffer :=
  take (length target) src ++ drop (length src) target.

(** [buf.writeUInt32LE(value, offset)].  Node refuses a value outside
    [0, 2^32) or an offset with fewer than four bytes left; the only call
    writes a depth in [1, 32] at offset 32 of a 40-byte buffer. *)
Definition Buffer_writeUInt32LE (buf : Buffer) (value offset : Z) : Buffer :=
  take (Z.to_nat offset) buf
    ++ [byte_of_Z value; byte_of_Z (value / 2 ^ 8);
        byte_of_Z (value / 2 ^ 16); byte_of_Z (value / 2 ^ 24)]
    ++ drop (Z.to_nat offset + 4) buf.

(** [buf.readUInt32LE(offset)]; [None] stands for the RangeError thrown
    when fewer than four bytes are left at [offset]. *)
Definition Buffer_readUInt32LE (buf : Buffer) (offset : Z) : option Z :=
  match drop (Z.to_nat offset) buf with
  | b0 :: b1 :: b2 :: b3 :: _ =>
      Some (Z_of_byte b0 + Z_of_byte b1 * 2 ^ 8
            + Z_of_byte b2 * 2 ^ 16 + Z_of_byte b3 * 2 ^ 24)
  | _ => None
  end.

(** ** Interfaces the file imports *)

(** [Hasher] (hasher.ts): leaf hashing and two-to-one compression. *)
Class Hasher := {
  hash : Buffer → Buffer;
  compress : Buffer → Buffer → Buffer;
}.

(** Built-in conversions used at the store boundary: [Number.toString],
    [parseInt] ([None] is NaN), [buf.toString('hex')] and
    [Buffer.from(s, 'hex')]. *)
Class Platform := {
  Number_toString : Z → string;
  parseInt : string → option Z;
  Buffer_toString_hex : Buffer → string;
  Buffer_from_hex : string → Buffer;
}.

(** What a rejected store promise carries. *)
Inductive StoreError :=
| NotFoundError
| IOError (msg : string).

(** The LevelUp store as the tree uses it: [get] and [put] on the database
    itself, and [put] and [createReadStream] on the sub-database obtained
    by [subleveldown(db, name)].  A [put] returns the store after the call
    and the error of a rejected promise, if any; a read stream delivers its
    'data' events and then either 'end' or 'error'. *)
Class LevelUp (DB : Type) := {
  db_get : DB → string → StoreError + Buffer;
  db_put : DB → string → Buffer → DB * option StoreError;
  sub_put : DB → string → string → string → DB * option StoreError;
  sub_createReadStream : DB → string → list (string * string) * option StoreError;
}.

(** Errors a caller of the tree can observe. *)
Inductive Error :=
| BadDepth
| RootMismatch
| RangeError
| StoreFailure (e : StoreError).

Inductive result (A : Type) :=
| Ok (a : A)
| Throw (e : Error).
Arguments Ok {A} a.
Arguments Throw {A} e.

Definition MAX_DEPTH : Z := 32.
Definition LEAF_BYTES : Z := 64.

(** ** Heap-layout index arithmetic *)

(** The update of [parentIdx] at the head of both loops:
    [parentIdx % 2 === 0 ? (parentIdx - 2) / 2 : (parentIdx - 1) / 2].
    It is evaluated on non-negative integers only, where the dividend is
    even and the division exact. *)
Definition parentIndex (parentIdx : Z) : Z :=
  if Z.rem parentIdx 2 =? 0 then (parentIdx - 2) / 2 else (parentIdx - 1) / 2.

(** Termination of the loops: the parent of a positive index has a
    smaller binary logarithm. *)
Ltac parent_decreases :=
  match goal with
  | Hq : ¬ parentIndex ?p < 0 |- _ =>
      let Hs := fresh in
      assert (parentIndex p + 1 = (p + 1) / 2) as Hs
        by (unfold parentIndex; rewrite Z.rem_mod_nonneg by lia;
            destruct (Z.eqb_spec (p mod 2) 0); Z.div_mod_to_equations; lia);
      rewrite Hs in *;
      assert (2 ≤ p + 1) by (Z.div_mod_to_equations; lia);
      rewrite <- Z.div2_div, Z.div2_spec, Z.log2_shiftr by lia;
      pose proof (Z.log2_le_mono 2 (p + 1) ltac:(lia));
      change (Z.log2 2) with 1 in *; lia
  end.

(** The indices at which a loop over [index] runs its body, in the order
    it visits them: the parent of [index], its parent, ..., the root. *)
Equations? ancestors (parentIdx : Z) : list Z
  by wf (Z.to_nat (Z.log2 (parentIdx + 1))) lt :=
  ancestors parentIdx with decide (0 ≤ parentIdx) => {
    | right _ := [];
    | left _ with decide (parentIndex parentIdx < 0) => {
      | left _ := [];
      | right _ := parentIndex parentIdx :: ancestors (parentIndex parentIdx) } }.
Proof. parent_decreases. Qed.

(** ** The engine: class LazyTree *)

Module LazyTree.

Record t := mk {
  nodes : gmap Z Buffer;
  depth : Z;
  emptyHashes : gmap Z Buffer;
}.

(** [this.nodes.set(index, hash)] *)
Definition nodes_set (tr : t) (index : Z) (h : Buffer) : t :=
  mk (<[index := h]> (nodes tr)) (depth tr) (emptyHashes tr).

Section engine.
Context `{Hasher}.

(** The body of [populateEmptyHashes], run [n] more times from loop
    counter [d]. *)
Fixpoint populate_loop (n : nat) (depth d : Z) (h : Buffer)
    (table : gmap Z Buffer) : gmap Z Buffer :=
  match n with
  | O => table
  | S n' =>
      populate_loop n' depth (d + 1) (compress h h) (<[depth - d := h]> table)
  end.

(** [for (let d = 0; d <= this.depth; ++d)] runs [depth + 1] times, and
    not at all for a negative depth. *)
Definition populateEmptyHashes (depth : Z) : gmap Z Buffer :=
  populate_loop (Z.to_nat (depth + 1)) depth 0
    (hash (Buffer_alloc LEAF_BYTES)) ∅.

Definition constructor (depth : Z) : t :=
  mk ∅ depth (populateEmptyHashes depth).

(** [Math.floor(Math.log2(index + 1))], with [Math.log2] taken to be
    exact enough for the floor to be the integer logarithm (the indices of
    a tree of depth at most 32 are below 2^33).  For a negative index the
    source gets -Infinity or NaN, which is the key of no table entry. *)
Definition calculateIndexDepth (index : Z) : option Z :=
  if decide (0 ≤ index) then Some (Z.log2 (index + 1)) else None.

(** [this.nodes.get(index) || this.emptyHashes[depth]]; a Buffer is
    never falsy, so the table is consulted exactly when the node is
    absent.  [None] is [undefined]. *)
Definition get (tr : t) (index : Z) : option Buffer :=
  match nodes tr !! index with
  | Some h => Some h
  | None => d ← calculateIndexDepth index; emptyHashes tr !! d
  end.

Definition getRoot (tr : t) : option Buffer := get tr 0.

(** One run of the loop body of [set] at [parentIdx].  The result is
    [None] when a child digest is [undefined]: the hasher would then be
    called on [undefined], and what it does there is not the engine's. *)
Definition recompute (tr : t) (parentIdx : Z) : option t :=
  left ← get tr (parentIdx * 2 + 1);
  right ← get tr (parentIdx * 2 + 2);
  Some (nodes_set tr parentIdx (compress left right)).

Equations? set_loop (tr : t) (parentIdx : Z) : option t
  by wf (Z.to_nat (Z.log2 (parentIdx + 1))) lt :=
  set_loop tr parentIdx with decide (0 ≤ parentIdx) => {
    | right _ := Some tr;
    | left _ with decide (parentIndex parentIdx < 0) => {
      | left _ := Some tr;
      | right _ with recompute tr (parentIndex parentIdx) => {
        | None := None;
        | Some tr' := set_loop tr' (parentIndex parentIdx) } } }.
Proof. parent_decreases. Qed.

Definition set (tr : t) (index : Z) (h : Buffer) : option t :=
  set_loop (nodes_set tr index h) index.

Equations? getPath_loop (tr : t) (path : list (option Buffer * option Buffer))
    (parentIdx : Z) : list (option Buffer * option Buffer)
  by wf (Z.to_nat (Z.log2 (parentIdx + 1))) lt :=
  getPath_loop tr path parentIdx with decide (0 ≤ parentIdx) => {
    | right _ := path;
    | left _ with decide (parentIndex parentIdx < 0) => {
      | left _ := path;
      | right _ :=
          getPath_loop tr
            (path ++ [(get tr (parentIndex parentIdx * 2 + 1),
                       get tr (parentIndex parentIdx * 2 + 2))])
            (parentIndex parentIdx) } }.
Proof. parent_decreases. Qed.

Definition getPath (tr : t) (index : Z) : list (option Buffer * option Buffer) :=
  getPath_loop tr [] index.

End engine.
End LazyTree.

(** ** The persistent tree: class MerkleTree *)

Module MerkleTree.

(** The fields of a handle.  The database object [db] is shared with the
    caller and mutated by every [put], so each operation takes the store
    and returns it; [elementsDb] is the view [subleveldown(db, name)] of
    that same store. *)
Record t := mk {
  name : string;
  depth : Z;
  tree : LazyTree.t;
}.

Definition with_tree (tr : t) (tree' : LazyTree.t) : t :=
  mk (name tr) (depth tr) tree'.

Section persistent.
Context `{Hasher} `{Platform} {DB : Type} `{LevelUp DB}.

Definition constructor (name : string) (depth : Z) : result t :=
  if negb ((1 <=? depth) && (depth <=? MAX_DEPTH)) then Throw BadDepth
  else Ok (mk name depth (LazyTree.constructor depth)).

Definition getRoot (tr : t) : option Buffer := LazyTree.getRoot (tree tr).

Definition elementTreeIndex (tr : t) (index : Z) : Z :=
  index + 2 ^ depth tr - 1.

(** [writeMetaData()]; no caller passes a batch.  [None]: the root is
    [undefined] and [copy] cannot be called on it. *)
Definition writeMetaData (tr : t) (db : DB) : option (DB * result ()) :=
  root ← getRoot tr;
  let data := Buffer_alloc 40 in
  let data := Buffer_copy root data in
  let data := Buffer_writeUInt32LE data (depth tr) 32 in
  let '(db', err) := db_put db (name tr) data in
  Some (db', match err with
             | Some e => Throw (StoreFailure e)
             | None => Ok ()
             end).

(** The 'data' handler of [restoreElements].  A key that [parseInt]
    turns into NaN makes [set] store under the key NaN and skip its
    loop; no [get] of an integer index sees that entry. *)
Definition on_data (tr : t) (data : string * string) : option t :=
  match parseInt data.1 with
  | None => Some tr
  | Some index =>
      tree' ← LazyTree.set (tree tr) (elementTreeIndex tr index)
                (Buffer_from_hex data.2);
      Some (with_tree tr tree')
  end.

Fixpoint replay (tr : t) (entries : list (string * string)) : option t :=
  match entries with
  | [] => Some tr
  | data :: rest => tr' ← on_data tr data; replay tr' rest
  end.

(** The promise resolves on 'end' and rejects on 'error'; the handle is
    mutated by the 'data' events delivered before either. *)
Definition restoreElements (tr : t) (db : DB) : option (t * result ()) :=
  let '(entries, err) := sub_createReadStream db (name tr) in
  tr' ← replay tr entries;
  Some (tr', match err with
             | Some e => Throw (StoreFailure e)
             | None => Ok ()
             end).

(** [static async new(db, name, depth = MAX_DEPTH)].  The rejection
    handler [.catch(() => {})] turns every rejected [get] into
    [undefined]. *)
Definition new (db : DB) (name : string) (depth : option Z)
    : option (DB * result t) :=
  let depth := default MAX_DEPTH depth in
  let meta := match db_get db name with
              | inr meta => Some meta
              | inl _ => None
              end in
  match meta with
  | Some meta =>
      let root := Buffer_slice meta 0 32 in
      match Buffer_readUInt32LE meta 32 with
      | None => Some (db, Throw RangeError)
      | Some depth =>
          match constructor name depth with
          | Throw e => Some (db, Throw e)
          | Ok tr =>
              '(tr, restored) ← restoreElements tr db;
              match restored with
              | Throw e => Some (db, Throw e)
              | Ok _ =>
                  r ← getRoot tr;
                  if decide (r = root) then Some (db, Ok tr)
                  else Some (db, Throw RootMismatch)
              end
          end
      end
  | None =>
      match constructor name depth with
      | Throw e => Some (db, Throw e)
      | Ok tr =>
          '(db', written) ← writeMetaData tr db;
          match written with
          | Throw e => Some (db', Throw e)
          | Ok _ => Some (db', Ok tr)
          end
      end
  end.

(** [new HashPath(...)] only wraps the array it is given. *)
Definition getHashPath (tr : t) (index : Z)
    : list (option Buffer * option Buffer) :=
  LazyTree.getPath (tree tr) (elementTreeIndex tr index).

(** Returns the handle after the call (the engine is mutated in place),
    the store after the call, and what the promise settles to. *)
Definition updateElement (tr : t) (db : DB) (index : Z) (value : Buffer)
    : option (t * DB * result Buffer) :=
  let h := hash value in
  tree' ← LazyTree.set (tree tr) (elementTreeIndex tr index) h;
  let tr := with_tree tr tree' in
  let '(db, err) := sub_put db (name tr) (Number_toString index)
                      (Buffer_toString_hex h) in
  match err with
  | Some e => Some (tr, db, Throw (StoreFailure e))
  | None =>
      '(db, written) ← writeMetaData tr db;
      match written with
      | Throw e => Some (tr, db, Throw e)
      | Ok _ => r ← getRoot tr; Some (tr, db, Ok r)
      end
  end.

End persistent.
End MerkleTree.

(** ** Executable instances, for running the model on concrete inputs *)

Module Instances.

(** A 32-bit polynomial checksum, padded to 32 bytes, in the place of
    SHA-256. *)
Definition checksum (bs : Buffer) : Z :=
  foldl (λ acc b, (acc * 31 + Z_of_byte b + 1) mod 2 ^ 32) 7 bs.

Definition digest_of (z : Z) : Buffer :=
  Buffer_writeUInt32LE (Buffer_alloc 32) z 0.

Definition checksum_hasher : Hasher := {|
  hash v := digest_of (checksum v);
  compress l r := digest_of (checksum (l ++ r));
|}.

Definition hex_digit (n : N) : ascii :=
  Ascii.ascii_of_N (if (n <? 10)%N then 48 + n else 87 + n)%N.

Definition hex_value (c : ascii) : option N :=
  let n := Ascii.N_of_ascii c in
  if ((48 <=? n) && (n <=? 57))%N then Some (n - 48)%N
  else if ((97 <=? n) && (n <=? 102))%N then Some (n - 87)%N
  else if ((65 <=? n) && (n <=? 70))%N then Some (n - 55)%N
  else None.

Fixpoint to_hex (bs : Buffer) : string :=
  match bs with
  | [] => EmptyString
  | b :: rest =>
      let n := Byte.to_N b in
      String (hex_digit (n / 16)) (String (hex_digit (n mod 16)) (to_hex rest))
  end.

(** Decoding stops at the first pair that is not two hex digits. *)
Fixpoint from_hex (s : string) : Buffer :=
  match s with
  | String a (String b rest) =>
      match hex_value a, hex_value b with
      | Some x, Some y => default x00 (Byte.of_N (16 * x + y)) :: from_hex rest
      | _, _ => []
      end
  | _ => []
  end.

Definition decimal_platform : Platform := {|
  Number_toString z := DecimalString.NilZero.string_of_int (Z.to_int z);
  parseInt s := Z.of_int <$> DecimalString.NilZero.int_of_string s;
  Buffer_toString_hex := to_hex;
  Buffer_from_hex := from_hex;
|}.

(** An in-memory store with switchable faults: when [read_fault] (resp.
    [write_fault]) holds a message, every read (resp. write) is rejected
    with it. *)
Record MemDown := mem {
  records : list (string * Buffer);
  leaves : list (string * string * string);
  read_fault : option string;
  write_fault : option string;
}.

Fixpoint assoc {V} (k : string) (l : list (string * V)) : option V :=
  match l with
  | [] => None
  | (k', v) :: rest => if decide (k' = k) then Some v else assoc k rest
  end.

Fixpoint upsert {K V} `{EqDecision K} (k : K) (v : V) (l : list (K * V))
    : list (K * V) :=
  match l with
  | [] => [(k, v)]
  | (k', v') :: rest =>
      if decide (k' = k) then (k, v) :: rest else (k', v') :: upsert k v rest
  end.

Definition mem_get (db : MemDown) (key : string) : StoreError + Buffer :=
  match read_fault db with
  | Some msg => inl (IOError msg)
  | None => match assoc key (records db) with
            | Some v => inr v
            | None => inl NotFoundError
            end
  end.

Definition mem_put (db : MemDown) (key : string) (v : Buffer)
    : MemDown * option StoreError :=
  match write_fault db with
  | Some msg => (db, Some (IOError msg))
  | None => (mem (upsert key v (records db)) (leaves db)
               (read_fault db) (write_fault db), None)
  end.

Definition mem_sub_put (db : MemDown) (name key value : string)
    : MemDown * option StoreError :=
  match write_fault db with
  | Some msg => (db, Some (IOError msg))
  | None => (mem (records db) (upsert (name, key) value (leaves db))
               (read_fault db) (write_fault db), None)
  end.

Definition mem_scan (db : MemDown) (name : string)
    : list (string * string) * option StoreError :=
  match read_fault db with
  | Some msg => ([], Some (IOError msg))
  | None =>
      (omap (λ '(n, k, v), if decide (n = name) then Some (k, v) else None)
         (leaves db), None)
  end.

Definition memdown : LevelUp MemDown := {|
  db_get := mem_get;
  db_put := mem_put;
  sub_put := mem_sub_put;
  sub_createReadStream := mem_scan;
|}.

Definition empty_store : MemDown := mem [] [] None None.

(** Inputs of the runs at the end of the file. *)
Section inputs.
#[local] Existing Instance checksum_hasher.
#[local] Existing Instance decimal_platform.
#[local] Existing Instance memdown.

Definition payload (b : byte) : Buffer := replicate 64 b.

(** A new handle of depth 2: four leaves, node indices 3 to 6. *)
Definition tree2 : MerkleTree.t :=
  MerkleTree.mk "t" 2 (LazyTree.constructor 2).

(** The store after creating tree "t" of depth 2 and writing leaf 0. *)
Definition stored : MemDown :=
  Eval vm_compute in
    match MerkleTree.new empty_store "t" (Some 2) with
    | Some (db, Ok tr) =>
        match MerkleTree.updateElement tr db 0 (payload x01) with
        | Some (_, db', _) => db'
        | None => db
        end
    | _ => empty_store
    end.

Definition stored_meta : Buffer :=
  Eval vm_compute in
    match db_get stored "t" with inr meta => meta | inl _ => [] end.

Definition stored_entries : list (string * string) :=
  Eval vm_compute in (sub_createReadStream stored "t").1.

(** The same store once its reads fail, and an empty one whose writes
    fail. *)
Definition read_failing : MemDown :=
  mem (records stored) (leaves stored) (Some "read error") None.

Definition write_failing : MemDown :=
  mem [] [] None (Some "disk full").

End inputs.

End Instances.

(** ** Vocabulary of the statements *)

Section vocabulary.
Context `{Hasher} `{Platform}.

(** The table has an entry for every depth of a tree of depth [D]. *)
Definition table_total (D : Z) (tr : LazyTree.t) : Prop :=
  ∀ d, 0 ≤ d ≤ D → is_Some (LazyTree.emptyHashes tr !! d).

(** Node [a] holds the compression of what [get] returns for its children. *)
Definition consistent (tr : LazyTree.t) (a : Z) : Prop :=
  ∃ l r, LazyTree.get tr (a * 2 + 1) = Some l
       ∧ LazyTree.get tr (a * 2 + 2) = Some r
       ∧ LazyTree.nodes tr !! a = Some (compress l r).

(** What the constructor of [MerkleTree] establishes and no method
    changes: a depth within bounds, shared with the engine, whose table
    is the one [populateEmptyHashes] builds. *)
Definition handle_ok (tr : MerkleTree.t) : Prop :=
  1 ≤ MerkleTree.depth tr ≤ MAX_DEPTH
  ∧ LazyTree.depth (MerkleTree.tree tr) = MerkleTree.depth tr
  ∧ LazyTree.emptyHashes (MerkleTree.tree tr)
    = LazyTree.populateEmptyHashes (MerkleTree.depth tr).

(** The empty-subtree table in the words of the data model:
    [empty[D] = hash(zero-64-bytes)] and
    [empty[d] = compress(empty[d+1], empty[d+1])] below it.
    [empty_above k] is the entry [k] levels above the leaves. *)
Fixpoint empty_above (k : nat) : Buffer :=
  match k with
  | O => hash (Buffer_alloc 64)
  | S k' => compress (empty_above k') (empty_above k')
  end.

Definition empty_spec (D d : Z) : Buffer := empty_above (Z.to_nat (D - d)).

(** A verifier's walk from a claimed digest at node [index] to a
    candidate root: at each level the digest takes its own side of the
    recorded pair (left for an odd node index) and the other side comes
    from the path. *)
Fixpoint reconstruct (index : Z) (digest : Buffer)
    (path : list (Buffer * Buffer)) : Buffer :=
  match path with
  | [] => digest
  | (l, r) :: rest =>
      reconstruct (parentIndex index)
        (if Z.odd index then compress digest r else compress l digest) rest
  end.

(** The digest occurs in the first pair, the compression of each pair
    occurs in the next, and the compression of the last is [root]. *)
Fixpoint links (digest : Buffer) (path : list (Buffer * Buffer))
    (root : Buffer) : Prop :=
  match path with
  | [] => digest = root
  | (l, r) :: rest => (digest = l ∨ digest = r) ∧ links (compress l r) rest root
  end.

(** The 40-byte record [writeMetaData] builds: root, then depth. *)
Definition metadata_record (root : Buffer) (depth : Z) : Buffer :=
  Buffer_writeUInt32LE (Buffer_copy root (Buffer_alloc 40)) depth 32.

(** A tree of depth [D] as the engine's constructor leaves it, with any
    node map. *)
Definition engine_ok (D : Z) (tr : LazyTree.t) : Prop :=
  0 ≤ D ∧ LazyTree.depth tr = D
  ∧ LazyTree.emptyHashes tr = LazyTree.populateEmptyHashes D.

(** A stored key is replayable when [parseInt] gives NaN or an in-range
    external index. *)
Definition replayable (depth : Z) (data : string * string) : Prop :=
  match parseInt data.1 with
  | Some index => 0 ≤ index < 2 ^ depth
  | None => True
  end.

(** The other child of the parent of node [index]: the right neighbour
    of an odd index, the left neighbour of an even one. *)
Definition sibling (index : Z) : Z :=
  if Z.odd index then index + 1 else index - 1.

(** The pairs [getPath] reads on the way up from node [index]. *)
Definition path_pairs (tr : LazyTree.t) (index : Z)
    : list (option Buffer * option Buffer) :=
  (λ a, (LazyTree.get tr (a * 2 + 1), LazyTree.get tr (a * 2 + 2)))
    <$> ancestors index.

(** A run of engine writes, in order. *)
Fixpoint set_all (tr : LazyTree.t) (writes : list (Z * Buffer))
    : option LazyTree.t :=
  match writes with
  | [] => Some tr
  | (index, h) :: rest => tr' ← LazyTree.set tr index h; set_all tr' rest
  end.

End vocabulary.

(** ** Vocabulary of the further properties *)

Section vocabulary_tree.
Context `{Hasher} `{Platform} {DB : Type} `{LevelUp DB}.

(** Every internal node of a tree of depth [D] resolves, through [get], to
    the compression of what its two children resolve to. *)
Definition proper (D : Z) (tr : LazyTree.t) : Prop :=
  ∀ a, 0 ≤ a → a + 1 < 2 ^ D →
    ∃ l r, LazyTree.get tr (a * 2 + 1) = Some l
         ∧ LazyTree.get tr (a * 2 + 2) = Some r
         ∧ LazyTree.get tr a = Some (compress l r).

(** The digest of the subtree below node [a], recomputed from the nodes
    [h] levels further down and from nothing in between. *)
Fixpoint subtree_digest (tr : LazyTree.t) (h : nat) (a : Z) : option Buffer :=
  match h with
  | O => LazyTree.get tr a
  | S h' =>
      l ← subtree_digest tr h' (a * 2 + 1);
      r ← subtree_digest tr h' (a * 2 + 2);
      Some (compress l r)
  end.

(** The entries a run of writes leaves in a map: the last write wins. *)
Definition write_over (m : gmap Z Buffer) (writes : list (Z * Buffer))
    : gmap Z Buffer :=
  foldl (λ m w, <[w.1 := w.2]> m) m writes.

(** The engine writes behind a run of [updateElement(index, value)] calls
    on a tree of depth [D]. *)
Definition leaf_writes (D : Z) (updates : list (Z * Buffer)) : list (Z * Buffer) :=
  (λ u, (u.1 + 2 ^ D - 1, hash u.2)) <$> updates.

(** What the 'data' handler reads out of a stored record. *)
Definition decodes_to (D : Z) (data : string * string) (w : Z * Buffer) : Prop :=
  ∃ index, parseInt data.1 = Some index
         ∧ w = (index + 2 ^ D - 1, Buffer_from_hex data.2).

(** The engine writes the 'data' handler issues for a scan on a tree of
    depth [D]: one per record whose key [parseInt] reads as a number, in
    scan order; a record whose key reads as NaN issues none. *)
Definition decoded_writes (D : Z) (entries : list (string * string))
    : list (Z * Buffer) :=
  omap (λ data, index ← parseInt data.1;
                Some (index + 2 ^ D - 1, Buffer_from_hex data.2)) entries.

(** A run of [updateElement] calls on one handle, each awaited before the
    next, going on whatever the promises settle to. *)
Fixpoint update_all (tr : MerkleTree.t) (db : DB) (updates : list (Z * Buffer))
    : option (MerkleTree.t * DB) :=
  match updates with
  | [] => Some (tr, db)
  | (index, value) :: rest =>
      '(tr', db', _) ← MerkleTree.updateElement tr db index value;
      update_all tr' db' rest
  end.

End vocabulary_tree.

(** Inputs of the runs on the further properties. *)
Module Inputs.
Import Instances.

#[local] Existing Instance checksum_hasher.
#[local] Existing Instance decimal_platform.
#[local] Existing Instance memdown.

(** Leaf 0 of "t" written once: the handle and the store afterwards. *)
Definition one_update : list (Z * Buffer) := [(0, payload x01)].

Definition closed : option (MerkleTree.t * MemDown) :=
  Eval vm_compute in update_all tree2 empty_store one_update.

(** The digests the records of [stored] decode to, by node index. *)
Definition stored_writes : list (Z * Buffer) :=
  Eval vm_compute in
    omap (λ data, index ← parseInt data.1;
                  Some (index + 2 ^ 2 - 1, Buffer_from_hex data.2))
      stored_entries.

End Inputs.

(** * Properties *)

(** ** Index arithmetic *)

Lemma parentIndex_succ p : 0 ≤ p → parentIndex p + 1 = (p + 1) / 2.
Proof.
  intros Hp. unfold parentIndex. rewrite Z.rem_mod_nonneg by lia.
  destruct (Z.eqb_spec (p mod 2) 0); Z.div_mod_to_equations; lia.
Qed.

Lemma parentIndex_neg_iff p : 0 ≤ p → parentIndex p < 0 ↔ p = 0.
Proof.
  intros Hp. pose proof (parentIndex_succ p Hp).
  split; [intros | intros ->; reflexivity].
  Z.div_mod_to_equations; lia.
Qed.

Lemma parentIndex_bounds p : 1 ≤ p → 0 ≤ parentIndex p < p.
Proof.
  intros Hp. pose proof (parentIndex_succ p ltac:(lia)).
  Z.div_mod_to_equations; lia.
Qed.

Lemma parentIndex_child p :
  1 ≤ p → p = parentIndex p * 2 + 1 ∨ p = parentIndex p * 2 + 2.
Proof.
  intros Hp. pose proof (parentIndex_succ p ltac:(lia)).
  Z.div_mod_to_equations; lia.
Qed.

Lemma parentIndex_left a : 0 ≤ a → parentIndex (a * 2 + 1) = a.
Proof.
  intros Ha. pose proof (parentIndex_succ (a * 2 + 1) ltac:(lia)).
  Z.div_mod_to_equations; lia.
Qed.

Lemma parentIndex_right a : 0 ≤ a → parentIndex (a * 2 + 2) = a.
Proof.
  intros Ha. pose proof (parentIndex_succ (a * 2 + 2) ltac:(lia)).
  Z.div_mod_to_equations; lia.
Qed.

Lemma ancestors_nonpos p : p ≤ 0 → ancestors p = [].
Proof.
  intros Hp. funelim (ancestors p); try reflexivity.
  exfalso. assert (parentIdx = 0) as -> by lia.
  apply n. reflexivity.
Qed.

Lemma ancestors_pos p :
  1 ≤ p → ancestors p = parentIndex p :: ancestors (parentIndex p).
Proof.
  intros Hp. funelim (ancestors p); try reflexivity; try lia.
  pose proof (parentIndex_bounds parentIdx Hp). lia.
Qed.

(** Induction along the loop: from a node to its parent. *)
Lemma ancestors_ind (P : Z → Prop) :
  (∀ p, p ≤ 0 → P p) →
  (∀ p, 1 ≤ p → P (parentIndex p) → P p) →
  ∀ p, P p.
Proof.
  intros Hbase Hstep.
  assert (∀ n : nat, ∀ p, p < Z.of_nat n → P p) as Hall.
  { induction n as [|n IH]; intros p Hp.
    - apply Hbase. lia.
    - destruct (decide (p ≤ 0)) as [|Hpos]; [by apply Hbase|].
      apply Hstep; [lia|]. apply IH.
      pose proof (parentIndex_bounds p ltac:(lia)). lia. }
  intros p. apply (Hall (Z.to_nat (p + 1))). lia.
Qed.

Lemma elem_of_ancestors_bounds p a : a ∈ ancestors p → 0 ≤ a < p.
Proof.
  revert a. induction p as [p Hp | p Hp IH] using ancestors_ind; intros a.
  - rewrite ancestors_nonpos by done. by intros ?%elem_of_nil.
  - rewrite ancestors_pos by done.
    pose proof (parentIndex_bounds p Hp).
    intros [-> | Hin%IH]%elem_of_cons; lia.
Qed.

Lemma ancestors_not_self p : p ∉ ancestors p.
Proof. intros Hin%elem_of_ancestors_bounds. lia. Qed.

Lemma length_ancestors p :
  0 ≤ p → length (ancestors p) = Z.to_nat (Z.log2 (p + 1)).
Proof.
  induction p as [p Hp | p Hp IH] using ancestors_ind; intros Hnn.
  - assert (p = 0) as -> by lia. by rewrite ancestors_nonpos.
  - rewrite ancestors_pos by done. cbn [length].
    pose proof (parentIndex_bounds p Hp) as Hb.
    rewrite IH by lia. rewrite parentIndex_succ by lia.
    rewrite <- Z.div2_div, Z.div2_spec, Z.log2_shiftr by lia.
    pose proof (Z.log2_le_mono 2 (p + 1) ltac:(lia)) as Hl.
    change (Z.log2 2) with 1 in Hl. lia.
Qed.

Lemma NoDup_ancestors p : NoDup (p :: ancestors p).
Proof.
  induction p as [p Hp | p Hp IH] using ancestors_ind.
  - rewrite ancestors_nonpos by done. apply NoDup_singleton.
  - apply NoDup_cons. split; [apply ancestors_not_self|].
    by rewrite ancestors_pos.
Qed.

(** The chain is closed under taking parents. *)
Lemma ancestors_parent_closed p c :
  c ∈ p :: ancestors p → 1 ≤ c → parentIndex c ∈ ancestors p.
Proof.
  revert c. induction p as [p Hp | p Hp IH] using ancestors_ind; intros c.
  - rewrite ancestors_nonpos by done.
    intros ->%list_elem_of_singleton. lia.
  - rewrite ancestors_pos by done.
    intros [-> | Hin]%elem_of_cons Hc; apply elem_of_cons; [by left|].
    right. by apply IH.
Qed.

Lemma pow2_bound_nonneg D q : 0 ≤ q → q + 1 < 2 ^ (D + 1) → 0 ≤ D.
Proof.
  intros Hq Hlt. destruct (decide (0 ≤ D)) as [|Hneg]; [done|].
  destruct (decide (D + 1 = 0)) as [E|]; [rewrite E in Hlt; lia|].
  rewrite Z.pow_neg_r in Hlt by lia. lia.
Qed.

(** The [k]-th index visited is the ancestor [k + 1] levels up. *)
Lemma ancestors_lookup p k :
  0 ≤ p → (k < length (ancestors p))%nat →
  ancestors p !! k = Some ((p + 1) / 2 ^ (Z.of_nat k + 1) - 1).
Proof.
  revert k. induction p as [p Hp | p Hp IH] using ancestors_ind; intros k Hnn.
  - rewrite ancestors_nonpos by done. cbn. lia.
  - rewrite ancestors_pos by done.
    pose proof (parentIndex_bounds p Hp) as Hb.
    destruct k as [|k]; cbn [length lookup list_lookup]; intros Hk.
    + cbn. f_equal. rewrite <- parentIndex_succ by lia. lia.
    + rewrite IH by lia. f_equal. f_equal.
      rewrite parentIndex_succ by lia.
      rewrite Z.div_div by lia. f_equal.
      rewrite <- Z.pow_succ_r by lia. f_equal. lia.
Qed.

Lemma elem_of_ancestors_le_parent p a : a ∈ ancestors p → a * 2 + 1 ≤ p.
Proof.
  destruct (decide (1 ≤ p)) as [Hp|Hp].
  - rewrite ancestors_pos by done.
    pose proof (parentIndex_bounds p Hp). pose proof (parentIndex_child p Hp).
    intros [-> | Hin%elem_of_ancestors_bounds]%elem_of_cons; lia.
  - rewrite ancestors_nonpos by lia. by intros ?%elem_of_nil.
Qed.

(** A node of the leaf level is above no node of the tree. *)
Lemma leaf_not_ancestor D i j :
  2 ^ D ≤ i + 1 → j + 1 < 2 ^ (D + 1) → i ∉ ancestors j.
Proof.
  intros Hi Hj Hin.
  pose proof (elem_of_ancestors_le_parent _ _ Hin).
  pose proof (elem_of_ancestors_bounds _ _ Hin).
  pose proof (pow2_bound_nonneg D j ltac:(lia) Hj).
  rewrite Z.pow_add_r, Z.pow_1_r in Hj by lia. lia.
Qed.

Lemma last_ancestors p : 0 ≤ p → last (p :: ancestors p) = Some 0.
Proof.
  induction p as [p Hp | p Hp IH] using ancestors_ind; intros Hnn.
  - assert (p = 0) as -> by lia. by rewrite ancestors_nonpos.
  - rewrite ancestors_pos, last_cons_cons by done. apply IH.
    pose proof (parentIndex_bounds p Hp). lia.
Qed.

(** The children of the ancestor [k + 1] levels above a leaf-level node
    lie [k] levels above the leaves. *)
Lemma ancestor_children_depth D index k :
  2 ^ D ≤ index + 1 < 2 ^ (D + 1) → 0 ≤ k < D →
  let a := (index + 1) / 2 ^ (k + 1) - 1 in
  0 ≤ a ∧ Z.log2 (a * 2 + 1 + 1) = D - k ∧ Z.log2 (a * 2 + 2 + 1) = D - k.
Proof.
  intros [Hge Hlt] Hk. cbn zeta.
  set (x := (index + 1) / 2 ^ (k + 1)).
  assert (0 < 2 ^ (k + 1)) as Hpk by (apply Z.pow_pos_nonneg; lia).
  assert (0 < 2 ^ (D - k - 1)) as Hpd by (apply Z.pow_pos_nonneg; lia).
  assert (2 ^ D = 2 ^ (D - k - 1) * 2 ^ (k + 1)) as HD.
  { rewrite <- Z.pow_add_r by lia. f_equal. lia. }
  assert (2 ^ (D + 1) = 2 * 2 ^ (D - k - 1) * 2 ^ (k + 1)) as HD1.
  { rewrite Z.pow_add_r, Z.pow_1_r, HD by lia. lia. }
  assert (2 ^ (D - k - 1) ≤ x) as Hxl.
  { apply Z.div_le_lower_bound; lia. }
  assert (x < 2 * 2 ^ (D - k - 1)) as Hxu.
  { apply Z.div_lt_upper_bound; lia. }
  assert (2 ^ (D - k) = 2 * 2 ^ (D - k - 1)) as Hdk.
  { replace (D - k) with (Z.succ (D - k - 1)) at 1 by lia.
    rewrite Z.pow_succ_r by lia. done. }
  split; [lia|].
  split; apply Z.log2_unique; try lia; rewrite Z.pow_succ_r, Hdk by lia; lia.
Qed.

(** Siblings.  The walk up from a node never meets the sibling of a node
    it passes. *)
Lemma sibling_involutive c : sibling (sibling c) = c.
Proof.
  unfold sibling. destruct (Z.odd c) eqn:Hodd.
  - rewrite Z.odd_add, Hodd. cbn. lia.
  - rewrite Z.odd_sub, Hodd. cbn. lia.
Qed.

Lemma sibling_parent c : 1 ≤ c → parentIndex (sibling c) = parentIndex c.
Proof.
  intros Hc. unfold sibling.
  destruct (parentIndex_child c Hc) as [Hodd | Heven].
  - replace (Z.odd c) with true.
    + rewrite Hodd at 1. pose proof (parentIndex_bounds c Hc).
      replace (parentIndex c * 2 + 1 + 1) with (parentIndex c * 2 + 2) by lia.
      apply parentIndex_right. lia.
    + rewrite Hodd, Z.add_comm, Z.mul_comm. symmetry.
      by rewrite Z.odd_add_mul_2.
  - replace (Z.odd c) with false.
    + rewrite Heven at 1. pose proof (parentIndex_bounds c Hc).
      replace (parentIndex c * 2 + 2 - 1) with (parentIndex c * 2 + 1) by lia.
      apply parentIndex_left. lia.
    + rewrite Heven, Z.add_comm, Z.mul_comm. symmetry.
      by rewrite Z.odd_add_mul_2.
Qed.

Lemma sibling_child c :
  1 ≤ c →
  (c = parentIndex c * 2 + 1 ∧ sibling c = parentIndex c * 2 + 2)
  ∨ (c = parentIndex c * 2 + 2 ∧ sibling c = parentIndex c * 2 + 1).
Proof.
  intros Hc. unfold sibling.
  destruct (parentIndex_child c Hc) as [Hodd | Heven].
  - left. split; [done|]. replace (Z.odd c) with true; [lia|].
    rewrite Hodd, Z.add_comm, Z.mul_comm. symmetry. by rewrite Z.odd_add_mul_2.
  - right. split; [done|]. replace (Z.odd c) with false; [lia|].
    rewrite Heven, Z.add_comm, Z.mul_comm. symmetry. by rewrite Z.odd_add_mul_2.
Qed.

Lemma sibling_not_ancestor p : 1 ≤ p → sibling p ∉ ancestors p.
Proof.
  intros Hp Hin.
  pose proof (elem_of_ancestors_le_parent _ _ Hin) as Hle.
  destruct (sibling_child p Hp) as [[Hc Hs] | [Hc Hs]];
    pose proof (parentIndex_bounds p Hp); lia.
Qed.

Lemma sibling_off_chain p : ∀ c,
  c ∈ p :: ancestors p → 1 ≤ c → sibling c ∉ p :: ancestors p.
Proof.
  induction p as [p Hp | p Hp IH] using ancestors_ind; intros c.
  - rewrite ancestors_nonpos by done.
    intros ->%list_elem_of_singleton. lia.
  - intros Hin Hc. apply not_elem_of_cons.
    apply elem_of_cons in Hin as [-> | Hin].
    + split; [|by apply sibling_not_ancestor].
      destruct (sibling_child p Hp) as [[Hc' Hs] | [Hc' Hs]]; lia.
    + split.
      * intros Heq. apply (sibling_not_ancestor p Hp).
        replace (sibling p) with c; [done|].
        rewrite <- Heq. symmetry. apply sibling_involutive.
      * rewrite ancestors_pos in * by done. by apply IH.
Qed.

(** ** The engine *)

Section engine_facts.
Context `{Hasher}.

Implicit Types (tr : LazyTree.t) (p q a : Z).

Lemma set_loop_nonpos tr p : p ≤ 0 → LazyTree.set_loop tr p = Some tr.
Proof.
  intros Hp. funelim (LazyTree.set_loop tr p); try reflexivity.
  all: exfalso; assert (parentIdx = 0) as -> by lia; by apply n.
Qed.

Lemma set_loop_pos tr p :
  1 ≤ p →
  LazyTree.set_loop tr p
  = LazyTree.recompute tr (parentIndex p)
      ≫= λ tr', LazyTree.set_loop tr' (parentIndex p).
Proof.
  intros Hp. pose proof (parentIndex_bounds p Hp).
  funelim (LazyTree.set_loop tr p); try lia.
  - by rewrite Heq.
  - by rewrite Heq.
Qed.

Lemma getPath_loop_nonpos tr path p :
  p ≤ 0 → LazyTree.getPath_loop tr path p = path.
Proof.
  intros Hp. funelim (LazyTree.getPath_loop tr path p); try reflexivity.
  exfalso; assert (parentIdx = 0) as -> by lia; by apply n.
Qed.

Lemma getPath_loop_pos tr path p :
  1 ≤ p →
  LazyTree.getPath_loop tr path p
  = LazyTree.getPath_loop tr
      (path ++ [(LazyTree.get tr (parentIndex p * 2 + 1),
                 LazyTree.get tr (parentIndex p * 2 + 2))])
      (parentIndex p).
Proof.
  intros Hp. pose proof (parentIndex_bounds p Hp).
  funelim (LazyTree.getPath_loop tr path p); try lia. reflexivity.
Qed.

(** [getPath] reads the two children of every index [set] writes. *)
Lemma getPath_loop_ancestors tr path p :
  LazyTree.getPath_loop tr path p
  = path ++ ((λ a, (LazyTree.get tr (a * 2 + 1), LazyTree.get tr (a * 2 + 2)))
               <$> ancestors p).
Proof.
  revert path. induction p as [p Hp | p Hp IH] using ancestors_ind; intros path.
  - rewrite getPath_loop_nonpos, ancestors_nonpos by done.
    by rewrite app_nil_r.
  - rewrite getPath_loop_pos, ancestors_pos, IH by done.
    by rewrite <- app_assoc.
Qed.

(** A read depends on the node map at the index read only. *)
Lemma get_ext tr tr' q :
  LazyTree.nodes tr !! q = LazyTree.nodes tr' !! q →
  LazyTree.emptyHashes tr = LazyTree.emptyHashes tr' →
  LazyTree.get tr q = LazyTree.get tr' q.
Proof. unfold LazyTree.get. by intros -> ->. Qed.

Lemma get_is_Some D tr q :
  table_total D tr → 0 ≤ q → q + 1 < 2 ^ (D + 1) →
  is_Some (LazyTree.get tr q).
Proof.
  intros Htab Hq Hlt. unfold LazyTree.get.
  destruct (LazyTree.nodes tr !! q); [by eexists|].
  unfold LazyTree.calculateIndexDepth. rewrite decide_True by done. cbn.
  apply Htab. split; [apply Z.log2_nonneg|].
  pose proof (pow2_bound_nonneg D q Hq Hlt).
  assert (Z.log2 (q + 1) < D + 1); [|lia].
  apply Z.log2_lt_pow2; lia.
Qed.

Lemma consistent_ext tr tr' a :
  LazyTree.emptyHashes tr = LazyTree.emptyHashes tr' →
  LazyTree.nodes tr !! a = LazyTree.nodes tr' !! a →
  LazyTree.nodes tr !! (a * 2 + 1) = LazyTree.nodes tr' !! (a * 2 + 1) →
  LazyTree.nodes tr !! (a * 2 + 2) = LazyTree.nodes tr' !! (a * 2 + 2) →
  consistent tr a → consistent tr' a.
Proof.
  intros HE Ha Hl Hr (l & r & Hgl & Hgr & Hn). exists l, r.
  by rewrite <- (get_ext tr tr'), <- (get_ext tr tr'), <- Ha.
Qed.

(** What the loop of [set] establishes. *)
Lemma set_loop_spec D p : ∀ tr,
  table_total D tr → p + 1 < 2 ^ (D + 1) →
  ∃ tr', LazyTree.set_loop tr p = Some tr'
       ∧ LazyTree.depth tr' = LazyTree.depth tr
       ∧ LazyTree.emptyHashes tr' = LazyTree.emptyHashes tr
       ∧ (∀ q, q ∉ ancestors p → LazyTree.nodes tr' !! q = LazyTree.nodes tr !! q)
       ∧ (∀ a, a ∈ ancestors p → consistent tr' a).
Proof.
  induction p as [p Hp | p Hp IH] using ancestors_ind; intros tr Htab Hlt.
  - exists tr. rewrite set_loop_nonpos, ancestors_nonpos by done.
    repeat split; try done. by intros a ?%elem_of_nil.
  - pose proof (parentIndex_bounds p Hp) as Hb.
    pose proof (parentIndex_succ p ltac:(lia)) as Hsucc.
    set (a0 := parentIndex p) in *.
    assert (a0 * 2 + 2 + 1 < 2 ^ (D + 1)) as Hchild.
    { pose proof (pow2_bound_nonneg D p ltac:(lia) Hlt).
      rewrite Z.pow_add_r, Z.pow_1_r in * by lia.
      Z.div_mod_to_equations. lia. }
    destruct (get_is_Some D tr (a0 * 2 + 1)) as [l Hl]; [done|lia|lia|].
    destruct (get_is_Some D tr (a0 * 2 + 2)) as [r Hr]; [done|lia|lia|].
    set (tr0 := LazyTree.nodes_set tr a0 (compress l r)).
    destruct (IH tr0) as (tr' & Hrun & Hd & HE & Hframe & Hcons).
    { done. }
    { lia. }
    exists tr'. rewrite set_loop_pos, ancestors_pos by done. fold a0.
    unfold LazyTree.recompute. rewrite Hl, Hr. cbn. fold tr0.
    split; [done|]. split; [done|]. split; [done|]. split.
    + intros q Hq. apply not_elem_of_cons in Hq as [Hne Hq].
      rewrite Hframe by done. cbn. by apply lookup_insert_ne.
    + intros a [-> | Ha]%elem_of_cons; [|by apply Hcons].
      apply (consistent_ext tr0); [done|..].
      1-3: symmetry; apply Hframe;
           intros Hin%elem_of_ancestors_bounds; lia.
      exists l, r. split; [|split].
      * rewrite <- Hl. apply get_ext; [|done]. cbn.
        apply lookup_insert_ne. lia.
      * rewrite <- Hr. apply get_ext; [|done]. cbn.
        apply lookup_insert_ne. lia.
      * cbn. apply lookup_insert_eq.
Qed.

(** What [set] establishes at a node of a tree of depth [D]. *)
Lemma set_spec D tr index h :
  table_total D tr → index + 1 < 2 ^ (D + 1) →
  ∃ tr', LazyTree.set tr index h = Some tr'
       ∧ LazyTree.depth tr' = LazyTree.depth tr
       ∧ LazyTree.emptyHashes tr' = LazyTree.emptyHashes tr
       ∧ LazyTree.nodes tr' !! index = Some h
       ∧ (∀ q, q ∉ index :: ancestors index →
               LazyTree.nodes tr' !! q = LazyTree.nodes tr !! q)
       ∧ (∀ a, a ∈ ancestors index → consistent tr' a).
Proof.
  intros Htab Hlt. unfold LazyTree.set.
  destruct (set_loop_spec D index (LazyTree.nodes_set tr index h))
    as (tr' & Hrun & Hd & HE & Hframe & Hcons); [done|done|].
  exists tr'. repeat split; try done.
  - rewrite Hframe by apply ancestors_not_self. cbn. apply lookup_insert_eq.
  - intros q Hq. apply not_elem_of_cons in Hq as [Hne Hq].
    rewrite Hframe by done. cbn. by apply lookup_insert_ne.
Qed.

(** Two node maps that agree off a set of consistent nodes agree
    everywhere: the digests on the set are determined bottom-up. *)
Lemma consistent_unique tr1 tr2 (A : list Z) :
  LazyTree.emptyHashes tr1 = LazyTree.emptyHashes tr2 →
  (∀ a, a ∈ A → 0 ≤ a) →
  (∀ q, q ∉ A → LazyTree.nodes tr1 !! q = LazyTree.nodes tr2 !! q) →
  (∀ a, a ∈ A → consistent tr1 a) →
  (∀ a, a ∈ A → consistent tr2 a) →
  LazyTree.nodes tr1 = LazyTree.nodes tr2.
Proof.
  intros HE Hnn Hoff H1 H2.
  assert (∃ M, ∀ a, a ∈ A → a ≤ M) as [M HM].
  { clear. induction A as [|x A [M IH]]; [exists 0; by intros a ?%elem_of_nil|].
    exists (Z.max x M). intros a [-> | Ha%IH]%elem_of_cons; lia. }
  assert (∀ n : nat, ∀ q, M - q < Z.of_nat n →
            LazyTree.nodes tr1 !! q = LazyTree.nodes tr2 !! q) as Hall.
  { induction n as [|n IH]; intros q Hq.
    - apply Hoff. intros Hin%HM. lia.
    - destruct (decide (q ∈ A)) as [Hin|]; [|by apply Hoff].
      pose proof (Hnn _ Hin).
      destruct (H1 _ Hin) as (l1 & r1 & Hl1 & Hr1 & ->).
      destruct (H2 _ Hin) as (l2 & r2 & Hl2 & Hr2 & ->).
      rewrite (get_ext tr1 tr2) in Hl1, Hr1 by (try apply IH; done || lia).
      congruence. }
  apply map_eq. intros q. apply (Hall (Z.to_nat (M - q + 1))). lia.
Qed.

Lemma tree_eq tr1 tr2 :
  LazyTree.nodes tr1 = LazyTree.nodes tr2 →
  LazyTree.depth tr1 = LazyTree.depth tr2 →
  LazyTree.emptyHashes tr1 = LazyTree.emptyHashes tr2 →
  tr1 = tr2.
Proof. destruct tr1, tr2; cbn; by intros -> -> ->. Qed.

Lemma table_total_ext D tr tr' :
  LazyTree.emptyHashes tr' = LazyTree.emptyHashes tr →
  table_total D tr → table_total D tr'.
Proof. unfold table_total. by intros ->. Qed.

(** Writing the same digest at the same index again changes nothing. *)
Lemma set_idempotent D tr index h :
  table_total D tr → index + 1 < 2 ^ (D + 1) →
  ∃ tr1, LazyTree.set tr index h = Some tr1
       ∧ LazyTree.set tr1 index h = Some tr1.
Proof.
  intros Htab Hlt.
  destruct (set_spec D tr index h Htab Hlt)
    as (tr1 & Hset1 & Hd1 & HE1 & Hi1 & Hframe1 & Hcons1).
  destruct (set_spec D tr1 index h (table_total_ext D tr tr1 HE1 Htab) Hlt)
    as (tr2 & Hset2 & Hd2 & HE2 & Hi2 & Hframe2 & Hcons2).
  exists tr1. split; [done|]. rewrite Hset2. f_equal.
  apply tree_eq; [|done..].
  apply (consistent_unique tr2 tr1 (ancestors index)); try done.
  - intros a Ha%elem_of_ancestors_bounds. lia.
  - intros q Hq. destruct (decide (q = index)) as [->|Hne]; [congruence|].
    apply Hframe2. by apply not_elem_of_cons.
Qed.

(** Two writes in a row, at nodes neither of which is above the other. *)
Lemma set_then_set D tr i j hi hj :
  table_total D tr → i + 1 < 2 ^ (D + 1) → j + 1 < 2 ^ (D + 1) →
  i ∉ j :: ancestors j → j ∉ i :: ancestors i →
  ∃ ti tij,
    LazyTree.set tr i hi = Some ti
    ∧ LazyTree.set ti j hj = Some tij
    ∧ LazyTree.depth tij = LazyTree.depth tr
    ∧ LazyTree.emptyHashes tij = LazyTree.emptyHashes tr
    ∧ LazyTree.nodes tij !! i = Some hi
    ∧ LazyTree.nodes tij !! j = Some hj
    ∧ (∀ q, q ≠ i → q ≠ j → q ∉ ancestors i ++ ancestors j →
            LazyTree.nodes tij !! q = LazyTree.nodes tr !! q)
    ∧ (∀ a, a ∈ ancestors i ++ ancestors j → consistent tij a).
Proof.
  intros Htab Hi Hj Hij Hji.
  destruct (set_spec D tr i hi Htab Hi)
    as (ti & Hset1 & Hd1 & HE1 & Hi1 & Hframe1 & Hcons1).
  destruct (set_spec D ti j hj (table_total_ext D tr ti HE1 Htab) Hj)
    as (tij & Hset2 & Hd2 & HE2 & Hi2 & Hframe2 & Hcons2).
  exists ti, tij. repeat split; try congruence.
  - by rewrite Hframe2.
  - intros q Hqi Hqj Hq. apply not_elem_of_app in Hq as [Hq1 Hq2].
    rewrite Hframe2, Hframe1; [done|by apply not_elem_of_cons..].
  - intros a Ha.
    destruct (decide (a ∈ ancestors j)) as [|Hnj]; [by apply Hcons2|].
    apply elem_of_app in Ha as [Ha|Ha]; [|done].
    pose proof (elem_of_ancestors_bounds _ _ Ha) as Hb.
    assert (a ≠ j).
    { intros ->. apply Hji, elem_of_cons. by right. }
    apply (consistent_ext ti); [done|..|by apply Hcons1].
    + symmetry. apply Hframe2. by apply not_elem_of_cons.
    + symmetry. apply Hframe2. intros Hc.
      apply ancestors_parent_closed in Hc; [|lia].
      by rewrite parentIndex_left in Hc by lia.
    + symmetry. apply Hframe2. intros Hc.
      apply ancestors_parent_closed in Hc; [|lia].
      by rewrite parentIndex_right in Hc by lia.
Qed.

(** ... and the order of the two writes does not matter. *)
Lemma set_commute D tr i j hi hj :
  table_total D tr → i + 1 < 2 ^ (D + 1) → j + 1 < 2 ^ (D + 1) →
  i ∉ j :: ancestors j → j ∉ i :: ancestors i →
  ∃ ti tj tij,
    LazyTree.set tr i hi = Some ti ∧ LazyTree.set ti j hj = Some tij
    ∧ LazyTree.set tr j hj = Some tj ∧ LazyTree.set tj i hi = Some tij.
Proof.
  intros Htab Hi Hj Hij Hji.
  destruct (set_then_set D tr i j hi hj) as
    (ti & tij & Hs1 & Hs2 & Hd & HE & Hni & Hnj & Hframe & Hcons); try done.
  destruct (set_then_set D tr j i hj hi) as
    (tj & tji & Hs1' & Hs2' & Hd' & HE' & Hnj' & Hni' & Hframe' & Hcons'); try done.
  exists ti, tj, tij. repeat split; try done. rewrite Hs2'. f_equal.
  apply tree_eq; [|congruence..].
  apply (consistent_unique tji tij (ancestors i ++ ancestors j)); try congruence.
  - intros a [Ha|Ha]%elem_of_app; apply elem_of_ancestors_bounds in Ha; lia.
  - intros q Hq.
    destruct (decide (q = i)) as [->|]; [congruence|].
    destruct (decide (q = j)) as [->|]; [congruence|].
    rewrite Hframe, Hframe'; try done.
    intros Hin. apply Hq. apply elem_of_app. apply elem_of_app in Hin. tauto.
  - intros a Ha. apply Hcons'. apply elem_of_app. apply elem_of_app in Ha. tauto.
  - done.
Qed.

(** The fields [set] never touches, whether or not it runs through. *)
Lemma set_loop_fields p : ∀ tr tr',
  LazyTree.set_loop tr p = Some tr' →
  LazyTree.depth tr' = LazyTree.depth tr
  ∧ LazyTree.emptyHashes tr' = LazyTree.emptyHashes tr.
Proof.
  induction p as [p Hp | p Hp IH] using ancestors_ind; intros tr tr'.
  - rewrite set_loop_nonpos by done. by intros [= ->].
  - rewrite set_loop_pos by done. unfold LazyTree.recompute.
    destruct (LazyTree.get tr (parentIndex p * 2 + 1)) as [l|]; cbn; [|done].
    destruct (LazyTree.get tr (parentIndex p * 2 + 2)) as [r|]; cbn; [|done].
    intros Hrun%IH. done.
Qed.

Lemma set_fields tr index h tr' :
  LazyTree.set tr index h = Some tr' →
  LazyTree.depth tr' = LazyTree.depth tr
  ∧ LazyTree.emptyHashes tr' = LazyTree.emptyHashes tr.
Proof. unfold LazyTree.set. by intros Hrun%set_loop_fields. Qed.

(** The keys one [set] adds to the node map. *)
Lemma set_dom D tr index h :
  table_total D tr → index + 1 < 2 ^ (D + 1) →
  ∃ tr', LazyTree.set tr index h = Some tr'
       ∧ LazyTree.emptyHashes tr' = LazyTree.emptyHashes tr
       ∧ dom (LazyTree.nodes tr')
         = dom (LazyTree.nodes tr) ∪ list_to_set (index :: ancestors index)
       ∧ (size (LazyTree.nodes tr')
          ≤ size (LazyTree.nodes tr) + S (length (ancestors index)))%nat.
Proof.
  intros Htab Hlt.
  destruct (set_spec D tr index h Htab Hlt)
    as (tr' & Hset & Hd & HE & Hi & Hframe & Hcons).
  assert (dom (LazyTree.nodes tr')
          = dom (LazyTree.nodes tr) ∪ list_to_set (index :: ancestors index))
    as Hdom.
  { apply set_eq. intros q.
    rewrite elem_of_union, !elem_of_dom, elem_of_list_to_set.
    destruct (decide (q ∈ index :: ancestors index)) as [Hin|Hout].
    - split; [by right|]. intros _.
      apply elem_of_cons in Hin as [->|Hin]; [by eexists|].
      destruct (Hcons q Hin) as (l & r & _ & _ & ->). by eexists.
    - rewrite Hframe by done. tauto. }
  exists tr'. repeat split; try done.
  rewrite <- !size_dom, Hdom, size_union_alt.
  apply Nat.add_le_mono_l.
  etrans; [apply (subseteq_size _ (list_to_set (index :: ancestors index)));
           apply subseteq_difference_l; done|].
  rewrite size_list_to_set by apply NoDup_ancestors. done.
Qed.

(** The node map after a run of writes at leaf-level nodes. *)
Lemma set_all_size D (writes : list (Z * Buffer)) : ∀ tr,
  0 ≤ D → table_total D tr →
  Forall (λ w, 2 ^ D ≤ w.1 + 1 < 2 ^ (D + 1)) writes →
  ∃ tr', set_all tr writes = Some tr'
       ∧ (size (LazyTree.nodes tr')
          ≤ size (LazyTree.nodes tr) + length writes * Z.to_nat (D + 1))%nat.
Proof.
  induction writes as [|[index h] writes IH]; intros tr HD Htab Hall.
  - exists tr. split; [done|]. cbn. lia.
  - apply Forall_cons in Hall as [[Hge Hlt] Hall]. cbn in Hge, Hlt.
    destruct (set_dom D tr index h Htab Hlt) as (tr1 & Hset & HE & _ & Hsize).
    destruct (IH tr1 HD (table_total_ext D tr tr1 HE Htab) Hall)
      as (tr' & Hrun & Hsize').
    exists tr'. cbn. rewrite Hset. cbn. split; [done|].
    assert (0 < 2 ^ D) by (apply Z.pow_pos_nonneg; lia).
    rewrite length_ancestors in Hsize by lia.
    rewrite (Z.log2_unique (index + 1) D) in Hsize; [lia|lia|].
    rewrite Z.pow_succ_r by lia. rewrite Z.pow_add_r, Z.pow_1_r in Hlt by lia. lia.
Qed.

(** A run of writes never touches the depth or the table. *)
Lemma set_all_fields (writes : list (Z * Buffer)) : ∀ tr tr',
  set_all tr writes = Some tr' →
  LazyTree.depth tr' = LazyTree.depth tr
  ∧ LazyTree.emptyHashes tr' = LazyTree.emptyHashes tr.
Proof.
  induction writes as [|[index h] writes IH]; intros tr tr'; cbn.
  - by intros [= ->].
  - destruct (LazyTree.set tr index h) as [tr1|] eqn:Hset; cbn; [|done].
    intros [Hd HE]%IH. apply set_fields in Hset as [Hd1 HE1].
    split; congruence.
Qed.

(** A run of writes at nodes below the first index past the leaf level
    runs through. *)
Lemma set_all_defined D (writes : list (Z * Buffer)) : ∀ tr,
  table_total D tr →
  Forall (λ w, w.1 + 1 < 2 ^ (D + 1)) writes →
  is_Some (set_all tr writes).
Proof.
  induction writes as [|[index h] writes IH]; intros tr Htab Hall.
  - by eexists.
  - apply Forall_cons in Hall as [Hlt Hall]. cbn in Hlt.
    destruct (set_spec D tr index h Htab Hlt) as (tr1 & Hset & _ & HE & _).
    cbn. rewrite Hset. cbn.
    apply IH; [by apply (table_total_ext D tr)|done].
Qed.

(** The pairs on the way up from a node of the tree are all defined. *)
Lemma path_pairs_defined D tr c :
  table_total D tr → c + 1 < 2 ^ (D + 1) →
  ∃ path : list (Buffer * Buffer),
    path_pairs tr c = (λ lr, (Some lr.1, Some lr.2)) <$> path.
Proof.
  intros Htab. unfold path_pairs.
  induction c as [c Hc | c Hc IH] using ancestors_ind; intros Hlt.
  - exists []. by rewrite ancestors_nonpos.
  - pose proof (parentIndex_bounds c Hc) as Hb.
    pose proof (parentIndex_child c Hc) as Hch.
    rewrite ancestors_pos by done.
    destruct IH as [path Hpath]; [lia|].
    destruct (get_is_Some D tr (parentIndex c * 2 + 1)) as [l Hl]; [done|lia|lia|].
    destruct (get_is_Some D tr (parentIndex c * 2 + 2)) as [r Hr]; [done|lia| |].
    { pose proof (pow2_bound_nonneg D c ltac:(lia) Hlt) as HD.
      rewrite Z.pow_add_r, Z.pow_1_r in * by lia. lia. }
    exists ((l, r) :: path). cbn. by rewrite Hl, Hr, Hpath.
Qed.

(** The verifier's walk reads only the sibling side of each pair: two
    trees that agree on the siblings along the way give the same walk. *)
Lemma reconstruct_siblings tr tr' c : ∀ digest (pre post : list (Buffer * Buffer)),
  path_pairs tr c = (λ lr, (Some lr.1, Some lr.2)) <$> pre →
  path_pairs tr' c = (λ lr, (Some lr.1, Some lr.2)) <$> post →
  (∀ x, x ∈ c :: ancestors c → 1 ≤ x →
        LazyTree.get tr (sibling x) = LazyTree.get tr' (sibling x)) →
  reconstruct c digest pre = reconstruct c digest post.
Proof.
  unfold path_pairs.
  induction c as [c Hc | c Hc IH] using ancestors_ind; intros digest pre post.
  - rewrite ancestors_nonpos by done. cbn.
    intros Hpre Hpost _. symmetry in Hpre, Hpost.
    apply fmap_nil_inv in Hpre as ->. by apply fmap_nil_inv in Hpost as ->.
  - rewrite ancestors_pos by done. cbn [fmap list_fmap].
    intros Hpre Hpost Hsib.
    destruct pre as [|[l r] pre]; [done|]. destruct post as [|[l' r'] post]; [done|].
    cbn in Hpre, Hpost.
    injection Hpre as Hl Hr Hpre. injection Hpost as Hl' Hr' Hpost.
    pose proof (Hsib c ltac:(apply elem_of_cons; by left) Hc) as Hc_sib.
    assert (reconstruct (parentIndex c) (if Z.odd c then compress digest r
                                         else compress l digest) pre
            = reconstruct (parentIndex c) (if Z.odd c then compress digest r
                                           else compress l digest) post) as Hup.
    { apply IH; [done|done|]. intros x Hx Hx1. apply Hsib; [|done].
      apply elem_of_cons. by right. }
    cbn [reconstruct]. rewrite Hup.
    destruct (sibling_child c Hc) as [[Hodd Hs] | [Heven Hs]]; rewrite Hs in Hc_sib.
    + replace (Z.odd c) with true.
      * assert (r = r') as -> by congruence. done.
      * rewrite Hodd, Z.add_comm, Z.mul_comm. symmetry. by rewrite Z.odd_add_mul_2.
    + replace (Z.odd c) with false.
      * assert (l = l') as -> by congruence. done.
      * rewrite Heven, Z.add_comm, Z.mul_comm. symmetry. by rewrite Z.odd_add_mul_2.
Qed.

(** The root after a write at [index], read off the tree before it: the
    verifier's walk from the written digest along the pairs the tree held
    before the write. *)
Lemma set_root_from_pre_path D tr index h tr' (pre post : list (Buffer * Buffer)) :
  table_total D tr → index + 1 < 2 ^ (D + 1) →
  LazyTree.set tr index h = Some tr' →
  path_pairs tr index = (λ lr, (Some lr.1, Some lr.2)) <$> pre →
  path_pairs tr' index = (λ lr, (Some lr.1, Some lr.2)) <$> post →
  reconstruct index h pre = reconstruct index h post.
Proof.
  intros Htab Hlt Hset Hpre Hpost.
  destruct (set_spec D tr index h Htab Hlt)
    as (tr'' & Hset' & _ & HE & _ & Hframe & _).
  assert (tr'' = tr') as -> by congruence.
  apply (reconstruct_siblings tr tr'); [done|done|].
  intros x Hx Hx1. apply get_ext; [|done]. symmetry. apply Hframe.
  by apply sibling_off_chain.
Qed.

End engine_facts.

(** ** The empty-subtree table and the handle invariant *)

Section table_facts.
Context `{Hasher}.

Lemma populate_loop_lookup n : ∀ D d h (table : gmap Z Buffer) k,
  LazyTree.populate_loop n D d h table !! k
  = if decide (D - d - Z.of_nat n < k ≤ D - d)
    then Some (Nat.iter (Z.to_nat (D - d - k)) (λ e, compress e e) h)
    else table !! k.
Proof.
  induction n as [|n IH]; intros D d h table k.
  - cbn. rewrite decide_False by lia. done.
  - cbn [LazyTree.populate_loop]. rewrite IH.
    destruct (decide (k = D - d)) as [->|Hne].
    + rewrite decide_False, decide_True by lia.
      rewrite lookup_insert_eq. by replace (D - d - (D - d)) with 0 by lia.
    + rewrite lookup_insert_ne by done.
      repeat case_decide; try lia; try done. f_equal.
      replace (Z.to_nat (D - d - k)) with (S (Z.to_nat (D - (d + 1) - k))) by lia.
      by rewrite Nat.iter_succ_r.
Qed.

Lemma empty_above_iter k :
  empty_above k = Nat.iter k (λ e, compress e e) (hash (Buffer_alloc 64)).
Proof. induction k as [|k IH]; [done|]. cbn. by rewrite IH. Qed.

Lemma populateEmptyHashes_lookup D d :
  0 ≤ d ≤ D → LazyTree.populateEmptyHashes D !! d = Some (empty_spec D d).
Proof.
  intros Hd. unfold LazyTree.populateEmptyHashes.
  rewrite populate_loop_lookup, decide_True by lia.
  unfold empty_spec. rewrite empty_above_iter.
  by replace (D - 0 - d) with (D - d) by lia.
Qed.

Lemma empty_spec_leaf D : empty_spec D D = hash (Buffer_alloc 64).
Proof. unfold empty_spec. by rewrite Z.sub_diag. Qed.

Lemma empty_spec_step D d :
  0 ≤ d < D →
  empty_spec D d = compress (empty_spec D (d + 1)) (empty_spec D (d + 1)).
Proof.
  intros Hd. unfold empty_spec.
  by replace (Z.to_nat (D - d)) with (S (Z.to_nat (D - (d + 1)))) by lia.
Qed.

Lemma constructor_Ok name d tr :
  MerkleTree.constructor name d = Ok tr
  ↔ 1 ≤ d ≤ MAX_DEPTH ∧ tr = MerkleTree.mk name d (LazyTree.constructor d).
Proof.
  unfold MerkleTree.constructor, MAX_DEPTH.
  destruct (Z.leb_spec 1 d), (Z.leb_spec d 32); cbn; split.
  all: try (intros [= <-]; split; [lia|done]).
  all: try (intros [_ ->]; done).
  all: try (intros [=]).
  all: intros [? _]; lia.
Qed.

Lemma constructor_Throw name d e :
  MerkleTree.constructor name d = Throw e
  ↔ ¬ 1 ≤ d ≤ MAX_DEPTH ∧ e = BadDepth.
Proof.
  unfold MerkleTree.constructor, MAX_DEPTH.
  destruct (Z.leb_spec 1 d), (Z.leb_spec d 32); cbn; split.
  all: try (intros [= <-]; split; [lia|done]).
  all: try (intros [_ ->]; done).
  all: try (intros [=]).
  all: intros [? _]; lia.
Qed.

Lemma handle_ok_constructor name d :
  1 ≤ d ≤ MAX_DEPTH →
  handle_ok (MerkleTree.mk name d (LazyTree.constructor d)).
Proof. by intros Hd. Qed.

Lemma handle_ok_table tr :
  handle_ok tr → table_total (MerkleTree.depth tr) (MerkleTree.tree tr).
Proof.
  intros (Hd & _ & HE) d Hdd. rewrite HE, populateEmptyHashes_lookup by done.
  by eexists.
Qed.

Lemma handle_ok_with_tree tr tree' :
  handle_ok tr →
  LazyTree.depth tree' = LazyTree.depth (MerkleTree.tree tr) →
  LazyTree.emptyHashes tree' = LazyTree.emptyHashes (MerkleTree.tree tr) →
  handle_ok (MerkleTree.with_tree tr tree').
Proof. intros (Hd & Hdep & HE) Hd' HE'. repeat split; cbn; congruence || lia. Qed.

(** An in-range external index lands on the leaf level. *)
Lemma elementTreeIndex_leaf tr i :
  handle_ok tr → 0 ≤ i < 2 ^ MerkleTree.depth tr →
  let index := MerkleTree.elementTreeIndex tr i in
  1 ≤ index ∧ index + 1 < 2 ^ (MerkleTree.depth tr + 1)
  ∧ Z.log2 (index + 1) = MerkleTree.depth tr.
Proof.
  intros (Hd & _) Hi. unfold MerkleTree.elementTreeIndex. cbn.
  assert (2 ≤ 2 ^ MerkleTree.depth tr).
  { change 2 with (2 ^ 1) at 1. apply Z.pow_le_mono_r; lia. }
  rewrite Z.pow_add_r, Z.pow_1_r by lia.
  split; [lia|]. split; [lia|].
  apply Z.log2_unique; [lia|].
  rewrite Z.pow_succ_r by lia. lia.
Qed.

End table_facts.

(** ** The persistent tree *)

Section tree_facts.
Context `{Hasher} `{Platform} {DB : Type} `{LevelUp DB}.

Implicit Types (tr : MerkleTree.t) (db : DB).

Lemma getRoot_is_Some D (tree : LazyTree.t) :
  0 ≤ D → table_total D tree → is_Some (LazyTree.getRoot tree).
Proof.
  intros HD Htab. apply (get_is_Some D); [done|lia|].
  assert (0 < 2 ^ D) by (apply Z.pow_pos_nonneg; lia).
  rewrite Z.pow_add_r, Z.pow_1_r by lia. lia.
Qed.

Lemma writeMetaData_run tr db root :
  MerkleTree.getRoot tr = Some root →
  MerkleTree.writeMetaData tr db
  = let '(db', err) :=
      db_put db (MerkleTree.name tr)
        (metadata_record root (MerkleTree.depth tr)) in
    Some (db', match err with
               | Some e => Throw (StoreFailure e)
               | None => Ok ()
               end).
Proof. intros Hroot. unfold MerkleTree.writeMetaData. by rewrite Hroot. Qed.

(** [updateElement] on a handle and an in-range index: the engine write
    succeeds, the handle keeps its invariant, and the promise settles to
    the new root or to the first store failure. *)
Lemma updateElement_run tr i v :
  handle_ok tr → 0 ≤ i < 2 ^ MerkleTree.depth tr →
  ∃ tree' root,
    LazyTree.set (MerkleTree.tree tr) (MerkleTree.elementTreeIndex tr i) (hash v)
    = Some tree'
    ∧ LazyTree.getRoot tree' = Some root
    ∧ handle_ok (MerkleTree.with_tree tr tree')
    ∧ ∀ db, ∃ db' res,
        MerkleTree.updateElement tr db i v
        = Some (MerkleTree.with_tree tr tree', db', res)
        ∧ (res = Ok root ∨ ∃ e, res = Throw (StoreFailure e))
        ∧ (db', res)
          = (let '(db1, err1) :=
               sub_put db (MerkleTree.name tr) (Number_toString i)
                 (Buffer_toString_hex (hash v)) in
             match err1 with
             | Some e => (db1, Throw (StoreFailure e))
             | None =>
                 let '(db2, err2) :=
                   db_put db1 (MerkleTree.name tr)
                     (metadata_record root (MerkleTree.depth tr)) in
                 (db2, match err2 with
                       | Some e => Throw (StoreFailure e)
                       | None => Ok root
                       end)
             end).
Proof.
  intros Hok Hi.
  destruct (elementTreeIndex_leaf tr i Hok Hi) as (Hpos & Hlt & _).
  destruct (set_spec (MerkleTree.depth tr) (MerkleTree.tree tr)
              (MerkleTree.elementTreeIndex tr i) (hash v))
    as (tree' & Hset & Hd & HE & _); [by apply handle_ok_table|done|].
  pose proof (handle_ok_with_tree tr tree' Hok Hd HE) as Hok'.
  destruct (getRoot_is_Some (MerkleTree.depth tr) tree') as [root Hroot].
  { destruct Hok as [? _]. lia. }
  { apply (handle_ok_table _ Hok'). }
  exists tree', root. split; [done|]. split; [done|]. split; [done|].
  intros db. unfold MerkleTree.updateElement. rewrite Hset. cbn.
  destruct (sub_put db _ _ _) as [db1 [e1|]]; [by eauto 10|].
  rewrite (writeMetaData_run _ _ root) by done. cbn.
  destruct (db_put db1 _ _) as [db2 [e2|]]; cbn; [by eauto 10|].
  unfold MerkleTree.getRoot. cbn. rewrite Hroot. cbn. by eauto 10.
Qed.

(** Climbing from a node whose digest is known along consistent
    ancestors: the pairs [getPath] reads are all defined, they chain up
    to the root, and the verifier's walk ends at the root. *)
Lemma climb (tree : LazyTree.t) c : ∀ digest,
  0 ≤ c → LazyTree.get tree c = Some digest →
  (∀ a, a ∈ ancestors c → consistent tree a) →
  ∃ path root,
    (λ a, (LazyTree.get tree (a * 2 + 1), LazyTree.get tree (a * 2 + 2)))
      <$> ancestors c
    = (λ lr : Buffer * Buffer, (Some lr.1, Some lr.2)) <$> path
    ∧ LazyTree.getRoot tree = Some root
    ∧ reconstruct c digest path = root
    ∧ links digest path root.
Proof.
  induction c as [c Hc | c Hc IH] using ancestors_ind; intros digest Hnn Hget Hcons.
  - assert (c = 0) as -> by lia. exists [], digest.
    by rewrite ancestors_nonpos.
  - pose proof (parentIndex_bounds c Hc) as Hb.
    rewrite ancestors_pos in * by done.
    destruct (Hcons (parentIndex c)) as (l & r & Hl & Hr & Hn);
      [apply elem_of_cons; by left|].
    destruct (IH (compress l r)) as (path & root & Hpath & Hroot & Hrec & Hlinks).
    { lia. }
    { unfold LazyTree.get. by rewrite Hn. }
    { intros a Ha. apply Hcons, elem_of_cons. by right. }
    exists ((l, r) :: path), root. cbn. rewrite Hl, Hr, Hpath.
    split; [done|]. split; [done|].
    destruct (parentIndex_child c Hc) as [Hodd | Heven].
    + rewrite <- Hodd in Hl. assert (l = digest) as -> by congruence.
      replace (Z.odd c) with true; [by auto|].
      rewrite Hodd, Z.add_comm, Z.mul_comm. symmetry.
      rewrite Z.odd_add_mul_2. done.
    + rewrite <- Heven in Hr. assert (r = digest) as -> by congruence.
      replace (Z.odd c) with false; [by auto|].
      rewrite Heven, Z.add_comm, Z.mul_comm. symmetry.
      rewrite Z.odd_add_mul_2. done.
Qed.

Lemma climb_proper D (tree : LazyTree.t) c : ∀ digest,
  proper D tree →
  0 ≤ c → c + 1 < 2 ^ (D + 1) → LazyTree.get tree c = Some digest →
  ∃ path root,
    (λ a, (LazyTree.get tree (a * 2 + 1), LazyTree.get tree (a * 2 + 2)))
      <$> ancestors c
    = (λ lr : Buffer * Buffer, (Some lr.1, Some lr.2)) <$> path
    ∧ LazyTree.getRoot tree = Some root
    ∧ reconstruct c digest path = root
    ∧ links digest path root.
Proof.
  intros digest Hprop. revert digest.
  induction c as [c Hc | c Hc IH] using ancestors_ind; intros digest Hnn Hlt Hget.
  - assert (c = 0) as -> by lia. exists [], digest.
    by rewrite ancestors_nonpos.
  - pose proof (parentIndex_bounds c Hc) as Hb.
    pose proof (parentIndex_child c Hc) as Hchild.
    pose proof (pow2_bound_nonneg D c Hnn Hlt) as HD.
    rewrite Z.pow_add_r, Z.pow_1_r in Hlt by lia.
    rewrite ancestors_pos by done.
    destruct (Hprop (parentIndex c)) as (l & r & Hl & Hr & Hn); [lia|lia|].
    destruct (IH (compress l r)) as (path & root & Hpath & Hroot & Hrec & Hlinks).
    { lia. }
    { rewrite Z.pow_add_r, Z.pow_1_r by lia. lia. }
    { done. }
    exists ((l, r) :: path), root. cbn. rewrite Hl, Hr, Hpath.
    split; [done|]. split; [done|].
    destruct Hchild as [Hodd | Heven].
    + rewrite <- Hodd in Hl. assert (l = digest) as -> by congruence.
      replace (Z.odd c) with true; [by auto|].
      rewrite Hodd, Z.add_comm, Z.mul_comm. symmetry.
      rewrite Z.odd_add_mul_2. done.
    + rewrite <- Heven in Hr. assert (r = digest) as -> by congruence.
      replace (Z.odd c) with false; [by auto|].
      rewrite Heven, Z.add_comm, Z.mul_comm. symmetry.
      rewrite Z.odd_add_mul_2. done.
Qed.

Lemma some_pairs_inj (p1 p2 : list (Buffer * Buffer)) :
  (λ lr : Buffer * Buffer, (Some lr.1, Some lr.2)) <$> p1
  = (λ lr : Buffer * Buffer, (Some lr.1, Some lr.2)) <$> p2 →
  p1 = p2.
Proof.
  revert p2. induction p1 as [|[l1 r1] p1 IH]; intros [|[l2 r2] p2]; cbn;
    try done.
  intros [= -> -> Hrest]. f_equal. by apply IH.
Qed.

Lemma on_data_fields tr data tr' :
  MerkleTree.on_data tr data = Some tr' →
  MerkleTree.name tr' = MerkleTree.name tr
  ∧ MerkleTree.depth tr' = MerkleTree.depth tr
  ∧ LazyTree.depth (MerkleTree.tree tr') = LazyTree.depth (MerkleTree.tree tr)
  ∧ LazyTree.emptyHashes (MerkleTree.tree tr')
    = LazyTree.emptyHashes (MerkleTree.tree tr).
Proof.
  unfold MerkleTree.on_data. destruct (parseInt data.1) as [index|].
  - destruct (LazyTree.set _ _ _) as [tree'|] eqn:Hset; cbn; [|done].
    intros [= <-]. by apply set_fields in Hset as [? ?].
  - by intros [= ->].
Qed.

Lemma replay_fields entries : ∀ tr tr',
  MerkleTree.replay tr entries = Some tr' →
  MerkleTree.name tr' = MerkleTree.name tr
  ∧ MerkleTree.depth tr' = MerkleTree.depth tr
  ∧ LazyTree.depth (MerkleTree.tree tr') = LazyTree.depth (MerkleTree.tree tr)
  ∧ LazyTree.emptyHashes (MerkleTree.tree tr')
    = LazyTree.emptyHashes (MerkleTree.tree tr).
Proof.
  induction entries as [|data rest IH]; intros tr tr'; cbn.
  - by intros [= ->].
  - destruct (MerkleTree.on_data tr data) as [tr1|] eqn:Hdata; cbn; [|done].
    intros (? & ? & ? & ?)%IH.
    apply on_data_fields in Hdata as (? & ? & ? & ?).
    repeat split; congruence.
Qed.

Lemma handle_ok_fields tr tr' :
  handle_ok tr →
  MerkleTree.depth tr' = MerkleTree.depth tr →
  LazyTree.depth (MerkleTree.tree tr') = LazyTree.depth (MerkleTree.tree tr) →
  LazyTree.emptyHashes (MerkleTree.tree tr')
  = LazyTree.emptyHashes (MerkleTree.tree tr) →
  handle_ok tr'.
Proof.
  intros (Hd & Hdep & HE) Hd' Hdep' HE'. unfold handle_ok.
  rewrite Hd', Hdep', HE'. done.
Qed.

Lemma replay_in_range entries : ∀ tr,
  handle_ok tr →
  Forall (replayable (MerkleTree.depth tr)) entries →
  ∃ tr', MerkleTree.replay tr entries = Some tr' ∧ handle_ok tr'.
Proof.
  induction entries as [|data rest IH]; intros tr Hok Hall; cbn.
  - by exists tr.
  - apply Forall_cons in Hall as [Hdata Hall].
    assert (∃ tr1, MerkleTree.on_data tr data = Some tr1) as [tr1 Htr1].
    { unfold MerkleTree.on_data. unfold replayable in Hdata.
      destruct (parseInt data.1) as [index|]; [|by eexists].
      destruct (elementTreeIndex_leaf tr index Hok Hdata) as (_ & Hlt & _).
      destruct (set_spec (MerkleTree.depth tr) (MerkleTree.tree tr)
                  (MerkleTree.elementTreeIndex tr index) (Buffer_from_hex data.2))
        as (tree' & -> & _); [by apply handle_ok_table|done|].
      by eexists. }
    rewrite Htr1. cbn.
    pose proof (on_data_fields _ _ _ Htr1) as (_ & Hd & Hdep & HE).
    apply IH; [by apply (handle_ok_fields tr)|by rewrite Hd].
Qed.

(** Every handle [new] returns satisfies the invariant. *)
Lemma new_handle_ok db name depth db' tr :
  MerkleTree.new db name depth = Some (db', Ok tr) → handle_ok tr.
Proof.
  unfold MerkleTree.new.
  destruct (db_get db name) as [e|meta].
  - destruct (MerkleTree.constructor name _) as [tr0|e0] eqn:Hctor; [|done].
    apply constructor_Ok in Hctor as [Hd ->].
    destruct (MerkleTree.writeMetaData _ db) as [[db1 [[]|e1]]|]; cbn; [|done..].
    intros [= <- <-]. by apply handle_ok_constructor.
  - destruct (Buffer_readUInt32LE meta 32) as [d|]; [|done].
    destruct (MerkleTree.constructor name d) as [tr0|e0] eqn:Hctor; [|done].
    apply constructor_Ok in Hctor as [Hd ->].
    unfold MerkleTree.restoreElements.
    destruct (sub_createReadStream db _) as [entries err]. cbn.
    destruct (MerkleTree.replay _ entries) as [tr1|] eqn:Hreplay; cbn; [|done].
    destruct err as [e|]; [done|].
    destruct (MerkleTree.getRoot tr1) as [r|]; cbn; [|done].
    case_decide; [|done]. intros [= <- <-].
    apply replay_fields in Hreplay as (_ & ? & ? & ?).
    by apply (handle_ok_fields (MerkleTree.mk name d (LazyTree.constructor d)));
      [apply handle_ok_constructor|..].
Qed.

(** ... and [updateElement] keeps it, whatever the index. *)
Lemma updateElement_handle_ok tr db i v tr' db' res :
  handle_ok tr →
  MerkleTree.updateElement tr db i v = Some (tr', db', res) → handle_ok tr'.
Proof.
  intros Hok. unfold MerkleTree.updateElement.
  destruct (LazyTree.set _ _ _) as [tree'|] eqn:Hset; cbn; [|done].
  apply set_fields in Hset as [Hd HE].
  pose proof (handle_ok_with_tree tr tree' Hok Hd HE).
  destruct (sub_put db _ _ _) as [db1 [e1|]]; [by intros [= <- _ _]|].
  destruct (MerkleTree.writeMetaData _ db1) as [[db2 [[]|e2]]|]; cbn; [|by intros [= <- _ _]|done].
  destruct (MerkleTree.getRoot _); cbn; [by intros [= <- _ _]|done].
Qed.

Lemma constructor_root name D :
  1 ≤ D ≤ 32 →
  ∃ tr, MerkleTree.constructor name D = Ok tr
      ∧ MerkleTree.getRoot tr = Some (empty_spec D 0).
Proof.
  intros HD. exists (MerkleTree.mk name D (LazyTree.constructor D)). split.
  - apply constructor_Ok. split; [unfold MAX_DEPTH; lia|done].
  - unfold MerkleTree.getRoot, LazyTree.getRoot, LazyTree.get. cbn.
    rewrite lookup_empty. cbn. apply populateEmptyHashes_lookup. lia.
Qed.

End tree_facts.

(** * The claims *)

Section claims.
Context `{Hasher} `{Platform} {DB : Type} `{LevelUp DB}.

Implicit Types (tr : MerkleTree.t) (db : DB).

(** C1.  On a handle of depth D and for an in-range external index [i],
    [updateElement(i, v)] followed by [getHashPath(i)] gives exactly D
    pairs of defined digests.  Pair number [k] holds the two children of
    the ancestor [k + 1] levels above the leaf, which lie at depth
    [D - k]: the leaf level comes first and the level directly below the
    root last.  [hash v] is a member of the first pair, every pair
    compresses to a member of the next, and both this chain and the
    verifier's walk from [hash v] end at the value of [getRoot()]. *)
Theorem updateElement_then_getHashPath tr db i v :
  handle_ok tr → 0 ≤ i < 2 ^ MerkleTree.depth tr →
  ∃ tr' db' res path root,
    MerkleTree.updateElement tr db i v = Some (tr', db', res)
    ∧ MerkleTree.getHashPath tr' i
      = (λ lr : Buffer * Buffer, (Some lr.1, Some lr.2)) <$> path
    ∧ length path = Z.to_nat (MerkleTree.depth tr)
    ∧ (∀ k : nat, (k < length path)%nat →
         let a := (MerkleTree.elementTreeIndex tr i + 1) / 2 ^ (Z.of_nat k + 1) - 1 in
         MerkleTree.getHashPath tr' i !! k
         = Some (LazyTree.get (MerkleTree.tree tr') (a * 2 + 1),
                 LazyTree.get (MerkleTree.tree tr') (a * 2 + 2))
         ∧ LazyTree.calculateIndexDepth (a * 2 + 1)
           = Some (MerkleTree.depth tr - Z.of_nat k)
         ∧ LazyTree.calculateIndexDepth (a * 2 + 2)
           = Some (MerkleTree.depth tr - Z.of_nat k))
    ∧ MerkleTree.getRoot tr' = Some root
    ∧ reconstruct (MerkleTree.elementTreeIndex tr i) (hash v) path = root
    ∧ links (hash v) path root
    ∧ (res = Ok root ∨ ∃ e, res = Throw (StoreFailure e)).
Proof.
  intros Hok Hi.
  destruct (elementTreeIndex_leaf tr i Hok Hi) as (Hpos & Hlt & Hlog).
  set (index := MerkleTree.elementTreeIndex tr i) in *.
  destruct (updateElement_run tr i v Hok Hi)
    as (tree' & root & Hset & Hroot & Hok' & Hrun).
  destruct (Hrun db) as (db' & res & Hupd & Hres & _).
  fold index in Hset.
  destruct (set_spec (MerkleTree.depth tr) (MerkleTree.tree tr) index (hash v))
    as (tree'' & Hset' & _ & _ & Hleaf & _ & Hcons);
    [by apply handle_ok_table|done|].
  assert (tree'' = tree') as -> by congruence.
  destruct (climb tree' index (hash v)) as (path & root' & Hpath & Hroot' & Hrec & Hlinks).
  { lia. }
  { unfold LazyTree.get. by rewrite Hleaf. }
  { done. }
  assert (root' = root) as -> by congruence.
  assert (MerkleTree.getHashPath (MerkleTree.with_tree tr tree') i
          = (λ a, (LazyTree.get tree' (a * 2 + 1), LazyTree.get tree' (a * 2 + 2)))
              <$> ancestors index) as Hgp.
  { unfold MerkleTree.getHashPath, LazyTree.getPath.
    by rewrite getPath_loop_ancestors. }
  assert (length path = Z.to_nat (MerkleTree.depth tr)) as Hlen.
  { apply (f_equal length) in Hpath. rewrite !length_fmap in Hpath.
    rewrite <- Hpath, length_ancestors, Hlog by lia. done. }
  exists (MerkleTree.with_tree tr tree'), db', res, path, root.
  split; [done|]. split; [by rewrite Hgp|]. split; [done|].
  split; [|by repeat split].
  intros k Hk. cbn zeta.
  destruct Hok as ((Hd1 & Hd2) & _).
  destruct (ancestor_children_depth (MerkleTree.depth tr) index (Z.of_nat k))
    as (Ha & Hl & Hr).
  { split; [|done]. unfold index, MerkleTree.elementTreeIndex. lia. }
  { lia. }
  split; [|split].
  - rewrite Hgp, list_lookup_fmap, ancestors_lookup; [done|lia|].
    rewrite length_ancestors, Hlog by lia. lia.
  - unfold LazyTree.calculateIndexDepth. rewrite decide_True by lia.
    by rewrite Hl.
  - unfold LazyTree.calculateIndexDepth. rewrite decide_True by lia.
    by rewrite Hr.
Qed.

(** C3.  For every depth D in [1, 32]: the constructor accepts D, every
    table entry [d] in [0, D] is [empty_spec D d], where
    [empty_spec D D] is the hash of 64 zero bytes and each entry below is
    the compression of the next one with itself, and a tree with no leaf
    set has [getRoot()] equal to the depth-0 entry.  This holds for the
    handle [new] creates when the store has no metadata, and for the one
    it returns on reopening a tree whose leaf scan is empty. *)
Theorem fresh_root_is_empty_table_root db name D :
  1 ≤ D ≤ 32 →
  ∃ tr,
    MerkleTree.constructor name D = Ok tr
    ∧ MerkleTree.getRoot tr = Some (empty_spec D 0)
    ∧ (∀ d, 0 ≤ d ≤ D →
         LazyTree.emptyHashes (MerkleTree.tree tr) !! d = Some (empty_spec D d))
    ∧ empty_spec D D = hash (Buffer_alloc 64)
    ∧ (∀ d, 0 ≤ d < D →
         empty_spec D d = compress (empty_spec D (d + 1)) (empty_spec D (d + 1)))
    ∧ (∀ e, db_get db name = inl e →
         ∃ db' err,
           db_put db name (metadata_record (empty_spec D 0) D) = (db', err)
           ∧ MerkleTree.new db name (Some D)
             = Some (db', match err with
                          | Some e' => Throw (StoreFailure e')
                          | None => Ok tr
                          end))
    ∧ (∀ meta, db_get db name = inr meta →
         Buffer_readUInt32LE meta 32 = Some D →
         sub_createReadStream db name = ([], None) →
         MerkleTree.new db name None
         = Some (db, if decide (empty_spec D 0 = Buffer_slice meta 0 32)
                     then Ok tr else Throw RootMismatch)).
Proof.
  intros HD.
  set (tr := MerkleTree.mk name D (LazyTree.constructor D)).
  assert (MerkleTree.constructor name D = Ok tr) as Hctor.
  { apply constructor_Ok. split; [unfold MAX_DEPTH; lia|done]. }
  assert (MerkleTree.getRoot tr = Some (empty_spec D 0)) as Hroot.
  { unfold MerkleTree.getRoot, LazyTree.getRoot, LazyTree.get. cbn.
    rewrite lookup_empty. cbn. apply populateEmptyHashes_lookup. lia. }
  exists tr. split; [done|]. split; [done|].
  split; [intros d Hd; by apply populateEmptyHashes_lookup|].
  split; [apply empty_spec_leaf|].
  split; [intros d Hd; by apply empty_spec_step|].
  split.
  - intros e Hget. unfold MerkleTree.new. rewrite Hget. cbn.
    rewrite Hctor. rewrite (writeMetaData_run tr db _ Hroot). cbn.
    destruct (db_put db name _) as [db' [e'|]]; by eexists _, _.
  - intros meta Hget Hdepth Hscan. unfold MerkleTree.new.
    rewrite Hget, Hdepth, Hctor. unfold MerkleTree.restoreElements. cbn.
    rewrite Hscan. cbn. rewrite Hroot. cbn. by case_decide.
Qed.

(** C5.  Engine level: on a tree of depth D, a [set] at a node of the
    tree succeeds, and a second [set] of the same digest at the same
    index returns the very same tree, so every explicit ancestor digest is
    unchanged.  Handle level: after [updateElement(i, v)] on an in-range
    index, [updateElement(i, v)] again leaves the handle, and with it
    [getRoot()], unchanged, and two calls that both succeed return the
    same root. *)
Theorem updateElement_idempotent tr db i v :
  handle_ok tr → 0 ≤ i < 2 ^ MerkleTree.depth tr →
  (∀ index h, index + 1 < 2 ^ (MerkleTree.depth tr + 1) →
     ∃ tree1,
       LazyTree.set (MerkleTree.tree tr) index h = Some tree1
       ∧ LazyTree.set tree1 index h = Some tree1
       ∧ ∀ a, a ∈ ancestors index →
           is_Some (LazyTree.nodes tree1 !! a))
  ∧ ∃ tr1 db1 res1 root,
      MerkleTree.updateElement tr db i v = Some (tr1, db1, res1)
      ∧ MerkleTree.getRoot tr1 = Some root
      ∧ ∀ db2, ∃ db3 res2,
          MerkleTree.updateElement tr1 db2 i v = Some (tr1, db3, res2)
          ∧ (res1 = Ok root ∨ ∃ e, res1 = Throw (StoreFailure e))
          ∧ (res2 = Ok root ∨ ∃ e, res2 = Throw (StoreFailure e)).
Proof.
  intros Hok Hi. split.
  - intros index h Hlt.
    destruct (set_idempotent (MerkleTree.depth tr) (MerkleTree.tree tr) index h)
      as (tree1 & Hs1 & Hs2); [by apply handle_ok_table|done|].
    exists tree1. split; [done|]. split; [done|]. intros a Ha.
    destruct (set_spec (MerkleTree.depth tr) (MerkleTree.tree tr) index h)
      as (tree1' & Hs1' & _ & _ & _ & _ & Hcons); [by apply handle_ok_table|done|].
    assert (tree1' = tree1) as -> by congruence.
    destruct (Hcons a Ha) as (l & r & _ & _ & ->). by eexists.
  - destruct (updateElement_run tr i v Hok Hi)
      as (tree1 & root & Hset & Hroot & Hok1 & Hrun).
    destruct (Hrun db) as (db1 & res1 & Hupd & Hres & _).
    destruct (elementTreeIndex_leaf tr i Hok Hi) as (_ & Hlt & _).
    destruct (set_idempotent (MerkleTree.depth tr) (MerkleTree.tree tr)
                (MerkleTree.elementTreeIndex tr i) (hash v))
      as (tree1' & Hs1 & Hs2); [by apply handle_ok_table|done|].
    assert (tree1' = tree1) as -> by congruence.
    exists (MerkleTree.with_tree tr tree1), db1, res1, root.
    split; [done|]. split; [done|]. intros db2.
    destruct (updateElement_run (MerkleTree.with_tree tr tree1) i v Hok1 Hi)
      as (tree2 & root2 & Hset2 & Hroot2 & _ & Hrun2).
    destruct (Hrun2 db2) as (db3 & res2 & Hupd2 & Hres2 & _).
    cbn in Hset2. unfold MerkleTree.elementTreeIndex in Hset2, Hs2. cbn in Hset2.
    assert (tree2 = tree1) as -> by congruence.
    assert (root2 = root) as -> by congruence.
    by exists db3, res2.
Qed.

(** C6.  For two distinct in-range external indices, updating leaf [i]
    and then leaf [j] leaves the handle in the same state as updating
    [j] and then [i], whatever the store does in the four calls; so
    [getRoot()] is the same afterwards, and it is the root every
    successful second call returns. *)
Theorem updateElement_order_independent tr i j vi vj :
  handle_ok tr →
  0 ≤ i < 2 ^ MerkleTree.depth tr → 0 ≤ j < 2 ^ MerkleTree.depth tr →
  i ≠ j →
  ∃ tr_i tr_j tr_both root,
    MerkleTree.getRoot tr_both = Some root
    ∧ (∀ db, ∃ db' res,
         MerkleTree.updateElement tr db i vi = Some (tr_i, db', res))
    ∧ (∀ db, ∃ db' res,
         MerkleTree.updateElement tr_i db j vj = Some (tr_both, db', res)
         ∧ (res = Ok root ∨ ∃ e, res = Throw (StoreFailure e)))
    ∧ (∀ db, ∃ db' res,
         MerkleTree.updateElement tr db j vj = Some (tr_j, db', res))
    ∧ (∀ db, ∃ db' res,
         MerkleTree.updateElement tr_j db i vi = Some (tr_both, db', res)
         ∧ (res = Ok root ∨ ∃ e, res = Throw (StoreFailure e))).
Proof.
  intros Hok Hi Hj Hne.
  destruct (elementTreeIndex_leaf tr i Hok Hi) as (Hpi & Hlti & Hlogi).
  destruct (elementTreeIndex_leaf tr j Hok Hj) as (Hpj & Hltj & Hlogj).
  assert (0 ≤ MerkleTree.depth tr) as HD by (destruct Hok as [? _]; lia).
  assert (∀ x, 2 ^ MerkleTree.depth tr ≤ MerkleTree.elementTreeIndex tr x + 1 ↔ 0 ≤ x)
    as Hleaf by (intros x; unfold MerkleTree.elementTreeIndex; lia).
  destruct (set_commute (MerkleTree.depth tr) (MerkleTree.tree tr)
              (MerkleTree.elementTreeIndex tr i) (MerkleTree.elementTreeIndex tr j)
              (hash vi) (hash vj))
    as (ti & tj & tij & Hsi & Hsij & Hsj & Hsji); try done.
  { by apply handle_ok_table. }
  { apply not_elem_of_cons. split.
    - unfold MerkleTree.elementTreeIndex. lia.
    - apply (leaf_not_ancestor (MerkleTree.depth tr)); [apply Hleaf; lia|done]. }
  { apply not_elem_of_cons. split.
    - unfold MerkleTree.elementTreeIndex. lia.
    - apply (leaf_not_ancestor (MerkleTree.depth tr)); [apply Hleaf; lia|done]. }
  assert (∀ t0 x vx tx,
            handle_ok t0 → MerkleTree.depth t0 = MerkleTree.depth tr →
            0 ≤ x < 2 ^ MerkleTree.depth tr →
            LazyTree.set (MerkleTree.tree t0) (MerkleTree.elementTreeIndex tr x) (hash vx)
            = Some tx →
            ∃ root,
              handle_ok (MerkleTree.with_tree t0 tx)
              ∧ LazyTree.getRoot tx = Some root
              ∧ ∀ db, ∃ db' res,
                  MerkleTree.updateElement t0 db x vx
                  = Some (MerkleTree.with_tree t0 tx, db', res)
                  ∧ (res = Ok root ∨ ∃ e, res = Throw (StoreFailure e))) as Hstep.
  { intros t0 x vx tx Hok0 Hd0 Hx Hsx.
    destruct (updateElement_run t0 x vx Hok0 ltac:(by rewrite Hd0))
      as (tx' & root & Hset & Hroot & Hok1 & Hrun).
    unfold MerkleTree.elementTreeIndex in Hset, Hsx. rewrite Hd0 in Hset.
    assert (tx' = tx) as -> by congruence.
    exists root. split; [done|]. split; [done|]. intros db.
    destruct (Hrun db) as (db' & res & Hupd & Hres & _). by exists db', res. }
  destruct (Hstep tr i vi ti Hok eq_refl Hi Hsi) as (root_i & Hoki & _ & Hrun_i).
  destruct (Hstep tr j vj tj Hok eq_refl Hj Hsj) as (root_j & Hokj & _ & Hrun_j).
  destruct (Hstep (MerkleTree.with_tree tr ti) j vj tij Hoki eq_refl Hj Hsij)
    as (root & _ & Hroot & Hrun_ij).
  destruct (Hstep (MerkleTree.with_tree tr tj) i vi tij Hokj eq_refl Hi Hsji)
    as (root' & _ & Hroot' & Hrun_ji).
  assert (root' = root) as -> by congruence.
  exists (MerkleTree.with_tree tr ti), (MerkleTree.with_tree tr tj),
    (MerkleTree.with_tree tr tij), root.
  split; [done|]. repeat split.
  - intros db. destruct (Hrun_i db) as (db' & res & Hrun & _). by exists db', res.
  - done.
  - intros db. destruct (Hrun_j db) as (db' & res & Hrun & _). by exists db', res.
  - done.
Qed.

(** C7.  On a tree of depth D, one [set] at a leaf node index succeeds
    and makes explicit exactly the keys [index :: ancestors index]: these
    are D+1 pairwise distinct indices, the leaf first, then the ancestor
    [k + 1] levels up for each [k < D], the last one being the root 0;
    every other entry of the node map is as before.  So the map grows by
    at most D+1 entries per write, and after any run of [n] leaf writes
    on a new tree it has at most n × (D+1) entries. *)
Theorem set_writes_leaf_and_ancestors D (tree : LazyTree.t) index h :
  engine_ok D tree → 2 ^ D - 1 ≤ index ≤ 2 ^ (D + 1) - 2 →
  ∃ tree',
    LazyTree.set tree index h = Some tree'
    ∧ dom (LazyTree.nodes tree')
      = dom (LazyTree.nodes tree) ∪ list_to_set (index :: ancestors index)
    ∧ NoDup (index :: ancestors index)
    ∧ length (index :: ancestors index) = Z.to_nat (D + 1)
    ∧ last (index :: ancestors index) = Some 0
    ∧ (∀ k : nat, Z.of_nat k < D →
         ancestors index !! k = Some ((index + 1) / 2 ^ (Z.of_nat k + 1) - 1))
    ∧ (∀ q, q ∉ index :: ancestors index →
         LazyTree.nodes tree' !! q = LazyTree.nodes tree !! q)
    ∧ (size (LazyTree.nodes tree')
       ≤ size (LazyTree.nodes tree) + Z.to_nat (D + 1))%nat
    ∧ ∀ writes : list (Z * Buffer),
        Forall (λ w, 2 ^ D - 1 ≤ w.1 ≤ 2 ^ (D + 1) - 2) writes →
        ∃ tree'',
          set_all (LazyTree.constructor D) writes = Some tree''
          ∧ (size (LazyTree.nodes tree'')
             ≤ length writes * Z.to_nat (D + 1))%nat.
Proof.
  intros (HD & Hdep & HE) [Hge Hle].
  assert (0 < 2 ^ D) as Hpow by (apply Z.pow_pos_nonneg; lia).
  assert (index + 1 < 2 ^ (D + 1)) as Hlt by lia.
  assert (Z.log2 (index + 1) = D) as Hlog.
  { apply Z.log2_unique; [lia|]. rewrite Z.pow_succ_r by lia.
    rewrite Z.pow_add_r, Z.pow_1_r in Hlt by lia. lia. }
  assert (∀ t0, LazyTree.emptyHashes t0 = LazyTree.populateEmptyHashes D →
                table_total D t0) as Htab.
  { intros t0 HE0 d Hd. rewrite HE0, populateEmptyHashes_lookup by done.
    by eexists. }
  destruct (set_dom D tree index h (Htab _ HE) Hlt)
    as (tree' & Hset & _ & Hdom & Hsize).
  destruct (set_spec D tree index h (Htab _ HE) Hlt)
    as (tree'' & Hset' & _ & _ & _ & Hframe & _).
  assert (tree'' = tree') as -> by congruence.
  assert (length (ancestors index) = Z.to_nat D) as Hlen.
  { by rewrite length_ancestors, Hlog by lia. }
  exists tree'. split; [done|]. split; [done|].
  split; [apply NoDup_ancestors|].
  split; [cbn [length]; lia|].
  split; [apply last_ancestors; lia|].
  split; [intros k Hk; apply ancestors_lookup; lia|].
  split; [done|]. split; [lia|].
  intros writes Hall.
  destruct (set_all_size D writes (LazyTree.constructor D) HD
              (Htab (LazyTree.constructor D) eq_refl))
    as (tree2 & Hrun & Hsz).
  { eapply Forall_impl; [done|]. intros w Hw. cbn in Hw.
    rewrite (Z.pow_add_r 2 D 1), Z.pow_1_r in * by lia. lia. }
  exists tree2. split; [done|]. cbn in Hsz. by rewrite map_size_empty in Hsz.
Qed.

(** C9.  When [new] is called without a depth and the metadata [get]
    finds nothing, the tree is constructed with depth 32 = MAX_DEPTH, the
    largest depth the constructor accepts; it is the handle returned
    once the initial metadata record is written. *)
Theorem new_default_depth db name e :
  db_get db name = inl e →
  ∃ tr db' err,
    MerkleTree.constructor name MAX_DEPTH = Ok tr
    ∧ MerkleTree.depth tr = 32
    ∧ LazyTree.depth (MerkleTree.tree tr) = 32
    ∧ (∀ d, 32 < d → MerkleTree.constructor name d = Throw BadDepth)
    ∧ db_put db name (metadata_record (empty_spec 32 0) 32) = (db', err)
    ∧ MerkleTree.new db name None
      = Some (db', match err with
                   | Some e' => Throw (StoreFailure e')
                   | None => Ok tr
                   end).
Proof.
  intros Hget.
  destruct (constructor_root name 32)
    as (tr & Hctor & Hroot); [lia|].
  pose proof Hctor as [_ ->]%constructor_Ok.
  destruct (db_put db name (metadata_record (empty_spec 32 0) 32))
    as [db' err] eqn:Hput.
  eexists _, db', err. split; [done|]. split; [done|]. split; [done|].
  split; [|split; [done|]].
  - intros d Hd. apply constructor_Throw. split; [unfold MAX_DEPTH; lia|done].
  - unfold MerkleTree.new. rewrite Hget. cbn [default].
    change MAX_DEPTH with 32.
    rewrite Hctor, (writeMetaData_run _ db _ Hroot). cbn.
    rewrite Hput. by destruct err.
Qed.

(** C10.  [updateElement] on an in-range index first writes the leaf and
    its ancestors into the engine: the leaf node holds [hash v], every
    ancestor holds the compression of its two children as the engine now
    resolves them, and no other node changes.  The handle after the call
    holds that engine whatever the store answers.  If the leaf put is
    rejected the call fails with the store's error and the metadata put is
    not issued; if the metadata put is rejected the call fails with that
    error; in both cases [getRoot()] on the handle is the root of the
    updated engine, the one a successful call returns and the one the
    metadata put was given.  That root is the new one: it is what the
    verifier's walk from [hash v] gives along the hash path the tree had
    for [i] before the call, so it takes [hash v] in at the leaf and
    nothing else from the old path but the siblings.  On a tree whose
    nodes were all the compression of their children before the call, the
    root before the call is the same walk started from the digest leaf [i]
    had then. *)
Theorem updateElement_no_rollback tr db i v :
  handle_ok tr → 0 ≤ i < 2 ^ MerkleTree.depth tr →
  ∃ tree' root tr' db' res (pre : list (Buffer * Buffer)),
    LazyTree.set (MerkleTree.tree tr) (MerkleTree.elementTreeIndex tr i) (hash v)
    = Some tree'
    ∧ LazyTree.nodes tree' !! MerkleTree.elementTreeIndex tr i = Some (hash v)
    ∧ (∀ a, a ∈ ancestors (MerkleTree.elementTreeIndex tr i) →
         ∃ l r, LazyTree.get tree' (a * 2 + 1) = Some l
              ∧ LazyTree.get tree' (a * 2 + 2) = Some r
              ∧ LazyTree.nodes tree' !! a = Some (compress l r))
    ∧ (∀ q, q ∉ MerkleTree.elementTreeIndex tr i
                :: ancestors (MerkleTree.elementTreeIndex tr i) →
         LazyTree.nodes tree' !! q = LazyTree.nodes (MerkleTree.tree tr) !! q)
    ∧ MerkleTree.getHashPath tr i
      = (λ lr : Buffer * Buffer, (Some lr.1, Some lr.2)) <$> pre
    ∧ reconstruct (MerkleTree.elementTreeIndex tr i) (hash v) pre = root
    ∧ (proper (MerkleTree.depth tr) (MerkleTree.tree tr) →
       ∃ old,
         LazyTree.get (MerkleTree.tree tr) (MerkleTree.elementTreeIndex tr i)
         = Some old
         ∧ MerkleTree.getRoot tr
           = Some (reconstruct (MerkleTree.elementTreeIndex tr i) old pre))
    ∧ tr' = MerkleTree.with_tree tr tree'
    ∧ MerkleTree.updateElement tr db i v = Some (tr', db', res)
    ∧ MerkleTree.getRoot tr' = Some root
    ∧ (res = Ok root ∨ ∃ e, res = Throw (StoreFailure e))
    ∧ (∀ db1 e,
         sub_put db (MerkleTree.name tr) (Number_toString i)
           (Buffer_toString_hex (hash v)) = (db1, Some e) →
         res = Throw (StoreFailure e) ∧ db' = db1)
    ∧ (∀ db1 db2 e,
         sub_put db (MerkleTree.name tr) (Number_toString i)
           (Buffer_toString_hex (hash v)) = (db1, None) →
         db_put db1 (MerkleTree.name tr)
           (metadata_record root (MerkleTree.depth tr)) = (db2, Some e) →
         res = Throw (StoreFailure e) ∧ db' = db2).
Proof.
  intros Hok Hi.
  destruct (updateElement_run tr i v Hok Hi)
    as (tree' & root & Hset & Hroot & Hok' & Hrun).
  destruct (Hrun db) as (db' & res & Hupd & Hres & Hstore).
  destruct (elementTreeIndex_leaf tr i Hok Hi) as (Hpos & Hlt & _).
  set (index := MerkleTree.elementTreeIndex tr i) in *.
  pose proof (handle_ok_table tr Hok) as Htab.
  destruct (set_spec (MerkleTree.depth tr) (MerkleTree.tree tr) index (hash v))
    as (tree'' & Hset' & _ & _ & Hleaf & Hframe & Hcons); [done|done|].
  assert (tree'' = tree') as -> by congruence.
  destruct (path_pairs_defined (MerkleTree.depth tr) (MerkleTree.tree tr) index)
    as [pre Hpre]; [done|done|].
  destruct (climb tree' index (hash v))
    as (post & root' & Hpost & Hroot' & Hrec & _).
  { lia. }
  { unfold LazyTree.get. by rewrite Hleaf. }
  { done. }
  assert (root' = root) as -> by congruence.
  exists tree', root, (MerkleTree.with_tree tr tree'), db', res, pre.
  split; [done|]. split; [done|]. split; [done|]. split; [done|].
  split.
  { unfold MerkleTree.getHashPath, LazyTree.getPath.
    by rewrite getPath_loop_ancestors. }
  split.
  { rewrite <- Hrec.
    by apply (set_root_from_pre_path (MerkleTree.depth tr) (MerkleTree.tree tr)
                index (hash v) tree'). }
  split.
  { intros Hprop.
    destruct (get_is_Some (MerkleTree.depth tr) (MerkleTree.tree tr) index)
      as [old Hold]; [done|lia|done|].
    destruct (climb_proper (MerkleTree.depth tr) (MerkleTree.tree tr) index old)
      as (pre' & root0 & Hpre' & Hroot0 & Hrec0 & _); [done|lia|done|done|].
    fold (path_pairs (MerkleTree.tree tr) index) in Hpre'.
    rewrite Hpre in Hpre'. apply some_pairs_inj in Hpre' as ->.
    exists old. split; [done|]. unfold MerkleTree.getRoot. by rewrite Hroot0, Hrec0. }
  do 4 (split; [done|]). split.
  - intros db1 e Hput. rewrite Hput in Hstore. by injection Hstore as -> ->.
  - intros db1 db2 e Hput1 Hput2. rewrite Hput1, Hput2 in Hstore.
    by injection Hstore as -> ->.
Qed.

(** C4 (amended).  A rejected [put] and a failed restore scan reach the
    caller as the store's own error: the leaf put and the metadata put of
    [updateElement], the metadata put of [new] on a tree that has no
    record yet, and the read stream of [new] on a tree that has one.
    Such an error is neither [BadDepth] nor [RootMismatch].  A rejected
    metadata [get] is different: [new] handles it exactly as a missing
    record, and the error it carried appears nowhere in the outcome. *)
Theorem store_failures_surface :
  (∀ tr db i v db1 e,
     handle_ok tr → 0 ≤ i < 2 ^ MerkleTree.depth tr →
     sub_put db (MerkleTree.name tr) (Number_toString i)
       (Buffer_toString_hex (hash v)) = (db1, Some e) →
     ∃ tr', MerkleTree.updateElement tr db i v
            = Some (tr', db1, Throw (StoreFailure e)))
  ∧ (∀ tr i v,
       handle_ok tr → 0 ≤ i < 2 ^ MerkleTree.depth tr →
       ∃ tr' root,
         MerkleTree.getRoot tr' = Some root
         ∧ ∀ db db1 db2 e,
             sub_put db (MerkleTree.name tr) (Number_toString i)
               (Buffer_toString_hex (hash v)) = (db1, None) →
             db_put db1 (MerkleTree.name tr)
               (metadata_record root (MerkleTree.depth tr)) = (db2, Some e) →
             MerkleTree.updateElement tr db i v
             = Some (tr', db2, Throw (StoreFailure e)))
  ∧ (∀ db name D e0 db' e,
       db_get db name = inl e0 → 1 ≤ D ≤ 32 →
       db_put db name (metadata_record (empty_spec D 0) D) = (db', Some e) →
       MerkleTree.new db name (Some D) = Some (db', Throw (StoreFailure e)))
  ∧ (∀ db name depth meta d entries e,
       db_get db name = inr meta →
       Buffer_readUInt32LE meta 32 = Some d → 1 ≤ d ≤ 32 →
       sub_createReadStream db name = (entries, Some e) →
       Forall (replayable d) entries →
       MerkleTree.new db name depth = Some (db, Throw (StoreFailure e)))
  ∧ (∀ e, StoreFailure e ≠ BadDepth ∧ StoreFailure e ≠ RootMismatch)
  ∧ (∀ db name depth e,
       db_get db name = inl e →
       MerkleTree.new db name depth
       = match MerkleTree.constructor name (default MAX_DEPTH depth) with
         | Throw e' => Some (db, Throw e')
         | Ok tr =>
             '(db', written) ← MerkleTree.writeMetaData tr db;
             match written with
             | Throw e' => Some (db', Throw e')
             | Ok _ => Some (db', Ok tr)
             end
         end).
Proof.
  split; [|split; [|split; [|split; [|split]]]].
  - intros tr db i v db1 e Hok Hi Hput.
    destruct (updateElement_run tr i v Hok Hi)
      as (tree' & root & _ & _ & _ & Hrun).
    destruct (Hrun db) as (db' & res & Hupd & _ & Hstore).
    rewrite Hput in Hstore. injection Hstore as -> ->. by eexists.
  - intros tr i v Hok Hi.
    destruct (updateElement_run tr i v Hok Hi)
      as (tree' & root & _ & Hroot & _ & Hrun).
    exists (MerkleTree.with_tree tr tree'), root. split; [done|].
    intros db db1 db2 e Hput1 Hput2.
    destruct (Hrun db) as (db' & res & Hupd & _ & Hstore).
    rewrite Hput1, Hput2 in Hstore. by injection Hstore as -> ->.
  - intros db name D e0 db' e Hget HD Hput.
    destruct (constructor_root name D HD)
      as (tr & Hctor & Hroot).
    pose proof Hctor as [_ ->]%constructor_Ok.
    unfold MerkleTree.new. rewrite Hget.
    change (default MAX_DEPTH (Some D)) with D.
    rewrite Hctor, (writeMetaData_run _ db _ Hroot). cbn. by rewrite Hput.
  - intros db name depth meta d entries e Hget Hdepth Hd Hscan Hall.
    set (tr0 := MerkleTree.mk name d (LazyTree.constructor d)).
    assert (MerkleTree.constructor name d = Ok tr0) as Hctor.
    { apply constructor_Ok. split; [unfold MAX_DEPTH; lia|done]. }
    assert (handle_ok tr0) as Hok0.
    { apply handle_ok_constructor. unfold MAX_DEPTH. lia. }
    destruct (replay_in_range entries tr0 Hok0 Hall) as (tr1 & Hreplay & _).
    unfold MerkleTree.new. rewrite Hget, Hdepth, Hctor.
    unfold MerkleTree.restoreElements. cbn. rewrite Hscan. cbn.
    fold tr0. by rewrite Hreplay.
  - done.
  - intros db name depth e Hget. unfold MerkleTree.new. by rewrite Hget.
Qed.

End claims.

(** * Further properties of the code *)

(** ** Buffers and the metadata record *)

Lemma Z_of_byte_of_Z z : Z_of_byte (byte_of_Z z) = z mod 256.
Proof.
  unfold Z_of_byte, byte_of_Z.
  pose proof (Z.mod_pos_bound z 256 ltac:(lia)) as Hb.
  destruct (Byte.of_N (Z.to_N (z mod 256))) as [b|] eqn:Hof; cbn.
  - apply Byte.to_of_N in Hof. rewrite Hof. lia.
  - apply Byte.of_N_None_iff in Hof. lia.
Qed.

Lemma le32_sum v :
  0 ≤ v < 2 ^ 32 →
  v mod 256 + (v / 2 ^ 8) mod 256 * 2 ^ 8 + (v / 2 ^ 16) mod 256 * 2 ^ 16
  + (v / 2 ^ 24) mod 256 * 2 ^ 24 = v.
Proof.
  intros Hv. change (2 ^ 8) with 256. change (2 ^ 16) with 65536.
  change (2 ^ 24) with 16777216. change (2 ^ 32) with 4294967296 in Hv.
  Z.div_mod_to_equations. lia.
Qed.

Lemma metadata_record_fields root depth :
  length root = 32%nat → 0 ≤ depth < 2 ^ 32 →
  length (metadata_record root depth) = 40%nat
  ∧ Buffer_slice (metadata_record root depth) 0 32 = root
  ∧ Buffer_readUInt32LE (metadata_record root depth) 32 = Some depth.
Proof.
  intros Hlen Hd.
  assert (metadata_record root depth
          = root ++ [byte_of_Z depth; byte_of_Z (depth / 2 ^ 8);
                     byte_of_Z (depth / 2 ^ 16); byte_of_Z (depth / 2 ^ 24)]
              ++ replicate 4 x00) as ->.
  { unfold metadata_record, Buffer_writeUInt32LE, Buffer_copy, Buffer_alloc.
    rewrite length_replicate, Hlen.
    change (Z.to_nat 40) with 40%nat. change (Z.to_nat 32) with 32%nat.
    rewrite (take_ge root 40) by lia.
    rewrite take_app_length' by done. rewrite drop_app_ge by lia.
    rewrite Hlen. reflexivity. }
  split; [|split].
  - rewrite !length_app, Hlen. reflexivity.
  - unfold Buffer_slice. change (Z.to_nat (32 - 0)) with 32%nat.
    change (Z.to_nat 0) with 0%nat. rewrite drop_0.
    by rewrite take_app_length'.
  - unfold Buffer_readUInt32LE. change (Z.to_nat 32) with 32%nat.
    rewrite drop_app_length' by done. cbn [app].
    rewrite !Z_of_byte_of_Z. f_equal. by apply le32_sum.
Qed.

(** X1.  The record [writeMetaData] builds from a 32-byte root and a depth
    below 2^32 has 40 bytes, and the two reads [new] makes of it give the
    root and the depth back. *)
Theorem metadata_record_round_trip root depth :
  length root = 32%nat → 0 ≤ depth < 2 ^ 32 →
  length (metadata_record root depth) = 40%nat
  ∧ Buffer_slice (metadata_record root depth) 0 32 = root
  ∧ Buffer_readUInt32LE (metadata_record root depth) 32 = Some depth.
Proof. apply metadata_record_fields. Qed.

(** ** Depths, indices and reads *)

Section index_facts.
Context `{Hasher}.

Lemma calculateIndexDepth_Some q d :
  LazyTree.calculateIndexDepth q = Some d ↔ 0 ≤ q ∧ Z.log2 (q + 1) = d.
Proof.
  unfold LazyTree.calculateIndexDepth. case_decide.
  - split; [intros [= <-]|intros [_ <-]]; done.
  - split; [done|]. intros [? _]. lia.
Qed.

(** X2.  On a handle, [elementTreeIndex] sends exactly the external
    indices [0 .. 2^depth - 1] to node indices of depth [depth], the leaf
    level; any other external index lands on a shallower or deeper node, or
    on a negative index that has no depth. *)
Theorem elementTreeIndex_on_leaf_level tr i :
  handle_ok tr →
  LazyTree.calculateIndexDepth (MerkleTree.elementTreeIndex tr i)
  = Some (MerkleTree.depth tr)
  ↔ 0 ≤ i < 2 ^ MerkleTree.depth tr.
Proof.
  intros Hok. split.
  - intros [Hnn Hlog]%calculateIndexDepth_Some.
    destruct Hok as ((Hd & _) & _).
    unfold MerkleTree.elementTreeIndex in *.
    pose proof (Z.log2_spec (i + 2 ^ MerkleTree.depth tr - 1 + 1) ltac:(lia)) as Hs.
    rewrite Hlog in Hs. rewrite Z.pow_succ_r in Hs by lia. lia.
  - intros Hi. apply calculateIndexDepth_Some.
    destruct (elementTreeIndex_leaf tr i Hok Hi) as (? & _ & ?). split; [lia|done].
Qed.

Lemma populateEmptyHashes_None D d :
  ¬ 0 ≤ d ≤ D → LazyTree.populateEmptyHashes D !! d = None.
Proof.
  intros Hd. unfold LazyTree.populateEmptyHashes.
  rewrite populate_loop_lookup. rewrite decide_False; [apply lookup_empty|].
  lia.
Qed.

(** X3.  On a tree of depth D, [get] returns [undefined] exactly for an
    index that has no explicit entry and is negative or lies below the leaf
    level; every node of the tree, set or not, resolves to a digest. *)
Theorem get_undefined_iff D (tr : LazyTree.t) q :
  engine_ok D tr →
  LazyTree.get tr q = None
  ↔ LazyTree.nodes tr !! q = None ∧ (q < 0 ∨ 2 ^ (D + 1) ≤ q + 1).
Proof.
  intros (HD & _ & HE). unfold LazyTree.get.
  destruct (LazyTree.nodes tr !! q) as [h|]; [split; [done|by intros [? _]]|].
  unfold LazyTree.calculateIndexDepth. case_decide as Hq; cbn.
  - rewrite HE.
    assert (Z.log2 (q + 1) ≤ D ↔ q + 1 < 2 ^ (D + 1)) as Hlog.
    { split; intros Hl.
      - apply Z.log2_lt_pow2; lia.
      - apply Z.log2_lt_pow2 in Hl; lia. }
    pose proof (Z.log2_nonneg (q + 1)).
    destruct (decide (q + 1 < 2 ^ (D + 1))) as [Hin|Hout].
    + rewrite populateEmptyHashes_lookup by lia. split; [done|]. intros [_ ?]. lia.
    + rewrite populateEmptyHashes_None by lia. split; [|done]. intros _.
      split; [done|]. right. lia.
  - split; [|done]. intros _. split; [done|]. left. lia.
Qed.

End index_facts.

(** ** Opening and updating: errors and bounds *)

Section handle_facts.
Context `{Hasher} `{Platform} {DB : Type} `{LevelUp DB}.

Implicit Types (tr : MerkleTree.t) (db : DB).

(** X4.  [new] fails with the constructor's 'Bad depth' error exactly when
    the depth it builds the tree with is outside [1, 32]: the stored depth
    when a metadata record is found, otherwise the requested depth or its
    default.  The store is then left as it was. *)
Theorem new_BadDepth_iff db name requested db' :
  MerkleTree.new db name requested = Some (db', Throw BadDepth)
  ↔ db' = db
    ∧ ∃ d, ¬ 1 ≤ d ≤ 32
         ∧ ((∃ e, db_get db name = inl e) ∧ d = default MAX_DEPTH requested
            ∨ ∃ meta, db_get db name = inr meta
                    ∧ Buffer_readUInt32LE meta 32 = Some d).
Proof.
  unfold MerkleTree.new. split.
  - destruct (db_get db name) as [e|meta].
    + destruct (MerkleTree.constructor name _) as [tr0|e0] eqn:Hctor.
      * destruct (MerkleTree.writeMetaData tr0 db) as [[db1 [[]|e1]]|] eqn:Hw;
          cbn; try done.
        intros [= <- ->]. exfalso. unfold MerkleTree.writeMetaData in Hw.
        destruct (MerkleTree.getRoot tr0); cbn in Hw; [|done].
        destruct (db_put db _ _) as [? [?|]]; by simplify_eq.
      * apply constructor_Throw in Hctor as [Hd ->]. intros [= <-].
        split; [done|]. exists (default MAX_DEPTH requested).
        split; [done|]. left. split; [by exists e|done].
    + destruct (Buffer_readUInt32LE meta 32) as [d|] eqn:Hread; [|done].
      destruct (MerkleTree.constructor name d) as [tr0|e0] eqn:Hctor.
      * unfold MerkleTree.restoreElements.
        destruct (sub_createReadStream db _) as [entries err]. cbn.
        destruct (MerkleTree.replay _ entries) as [tr1|]; cbn; [|done].
        destruct err as [e|]; [done|].
        destruct (MerkleTree.getRoot tr1) as [r|]; cbn; [|done].
        by case_decide.
      * apply constructor_Throw in Hctor as [Hd ->]. intros [= <-].
        split; [done|]. exists d. split; [done|]. right. by exists meta.
  - intros (-> & d & Hd & [[[e Hget] ->] | (meta & Hget & Hread)]).
    + rewrite Hget.
      assert (MerkleTree.constructor name (default MAX_DEPTH requested)
              = Throw BadDepth) as -> by by apply constructor_Throw.
      done.
    + rewrite Hget, Hread.
      assert (MerkleTree.constructor name d = Throw BadDepth) as ->
        by by apply constructor_Throw.
      done.
Qed.

(** [updateElement] at any external index below [2^depth]: the node index
    is within the tree or negative, and the engine write goes through. *)
Lemma updateElement_run_below tr i v :
  handle_ok tr → i < 2 ^ MerkleTree.depth tr →
  ∃ tree' root,
    LazyTree.set (MerkleTree.tree tr) (MerkleTree.elementTreeIndex tr i) (hash v)
    = Some tree'
    ∧ LazyTree.getRoot tree' = Some root
    ∧ handle_ok (MerkleTree.with_tree tr tree')
    ∧ ∀ db, ∃ db' res,
        MerkleTree.updateElement tr db i v
        = Some (MerkleTree.with_tree tr tree', db', res)
        ∧ (res = Ok root ∨ ∃ e, res = Throw (StoreFailure e)).
Proof.
  intros Hok Hi.
  assert (MerkleTree.elementTreeIndex tr i + 1 < 2 ^ (MerkleTree.depth tr + 1)) as Hlt.
  { destruct Hok as ((Hd & _) & _). unfold MerkleTree.elementTreeIndex.
    rewrite Z.pow_add_r, Z.pow_1_r by lia. lia. }
  destruct (set_spec (MerkleTree.depth tr) (MerkleTree.tree tr)
              (MerkleTree.elementTreeIndex tr i) (hash v))
    as (tree' & Hset & Hd & HE & _); [by apply handle_ok_table|done|].
  pose proof (handle_ok_with_tree tr tree' Hok Hd HE) as Hok'.
  destruct (getRoot_is_Some (MerkleTree.depth tr) tree') as [root Hroot].
  { destruct Hok as [? _]. lia. }
  { apply (handle_ok_table _ Hok'). }
  exists tree', root. split; [done|]. split; [done|]. split; [done|].
  intros db. unfold MerkleTree.updateElement. rewrite Hset. cbn.
  destruct (sub_put db _ _ _) as [db1 [e1|]]; [by eauto 10|].
  rewrite (writeMetaData_run _ _ root) by done. cbn.
  destruct (db_put db1 _ _) as [db2 [e2|]]; cbn; [by eauto 10|].
  unfold MerkleTree.getRoot. cbn. rewrite Hroot. cbn. by eauto 10.
Qed.

Lemma updateElement_leaf_frame tr db i v :
  handle_ok tr → 0 ≤ i < 2 ^ MerkleTree.depth tr →
  ∃ tr' db' res,
    MerkleTree.updateElement tr db i v = Some (tr', db', res)
    ∧ LazyTree.get (MerkleTree.tree tr') (MerkleTree.elementTreeIndex tr' i)
      = Some (hash v)
    ∧ ∀ j, 0 ≤ j < 2 ^ MerkleTree.depth tr → j ≠ i →
        LazyTree.get (MerkleTree.tree tr') (MerkleTree.elementTreeIndex tr' j)
        = LazyTree.get (MerkleTree.tree tr) (MerkleTree.elementTreeIndex tr j).
Proof.
  intros Hok Hi.
  destruct (updateElement_run tr i v Hok Hi)
    as (tree' & root & Hset & _ & _ & Hrun).
  destruct (Hrun db) as (db' & res & Hupd & _).
  destruct (elementTreeIndex_leaf tr i Hok Hi) as (_ & Hlt & _).
  destruct (set_spec (MerkleTree.depth tr) (MerkleTree.tree tr)
              (MerkleTree.elementTreeIndex tr i) (hash v))
    as (tree'' & Hset' & _ & HE & Hleaf & Hframe & _);
    [by apply handle_ok_table|done|].
  assert (tree'' = tree') as -> by congruence.
  exists (MerkleTree.with_tree tr tree'), db', res. split; [done|].
  change (MerkleTree.elementTreeIndex (MerkleTree.with_tree tr tree'))
    with (MerkleTree.elementTreeIndex tr). cbn [MerkleTree.tree MerkleTree.with_tree].
  split.
  - unfold LazyTree.get. by rewrite Hleaf.
  - intros j Hj Hne. apply get_ext; [|done]. apply Hframe.
    apply not_elem_of_cons. split.
    + unfold MerkleTree.elementTreeIndex. lia.
    + apply (leaf_not_ancestor (MerkleTree.depth tr)); [|done].
      unfold MerkleTree.elementTreeIndex. lia.
Qed.

(** X5.  [updateElement(i, v)] on an in-range index makes leaf [i] resolve
    to [hash v] and changes no other leaf: every other in-range external
    index resolves to the digest it had before the call. *)
Theorem updateElement_touches_one_leaf tr db i v :
  handle_ok tr → 0 ≤ i < 2 ^ MerkleTree.depth tr →
  ∃ tr' db' res,
    MerkleTree.updateElement tr db i v = Some (tr', db', res)
    ∧ LazyTree.get (MerkleTree.tree tr') (MerkleTree.elementTreeIndex tr' i)
      = Some (hash v)
    ∧ ∀ j, 0 ≤ j < 2 ^ MerkleTree.depth tr → j ≠ i →
        LazyTree.get (MerkleTree.tree tr') (MerkleTree.elementTreeIndex tr' j)
        = LazyTree.get (MerkleTree.tree tr) (MerkleTree.elementTreeIndex tr j).
Proof. apply updateElement_leaf_frame. Qed.

(** X6.  [updateElement] does not check its index.  A negative external
    index [i] with [1 - 2^depth <= i] is accepted: the call stores
    [hash v] at the node [i + 2^depth - 1], which is an internal node of
    depth below [depth], recomputes the nodes above it, and goes on to the
    store as for a leaf.  After the call every node above the written one
    holds the compression of its two children as the engine resolves
    them, no node off that chain has changed, and the root is what the
    verifier's walk from [hash v] gives along the pairs the tree held
    above that node before the call. *)
Theorem updateElement_negative_index tr db i v :
  handle_ok tr → 1 - 2 ^ MerkleTree.depth tr ≤ i < 0 →
  ∃ tree' root db' res d (pre : list (Buffer * Buffer)),
    LazyTree.set (MerkleTree.tree tr) (MerkleTree.elementTreeIndex tr i) (hash v)
    = Some tree'
    ∧ MerkleTree.updateElement tr db i v
      = Some (MerkleTree.with_tree tr tree', db', res)
    ∧ LazyTree.calculateIndexDepth (MerkleTree.elementTreeIndex tr i) = Some d
    ∧ 0 ≤ d < MerkleTree.depth tr
    ∧ LazyTree.nodes tree' !! MerkleTree.elementTreeIndex tr i = Some (hash v)
    ∧ (∀ a, a ∈ ancestors (MerkleTree.elementTreeIndex tr i) →
         ∃ l r, LazyTree.get tree' (a * 2 + 1) = Some l
              ∧ LazyTree.get tree' (a * 2 + 2) = Some r
              ∧ LazyTree.nodes tree' !! a = Some (compress l r))
    ∧ (∀ q, q ∉ MerkleTree.elementTreeIndex tr i
                :: ancestors (MerkleTree.elementTreeIndex tr i) →
         LazyTree.nodes tree' !! q = LazyTree.nodes (MerkleTree.tree tr) !! q)
    ∧ length (ancestors (MerkleTree.elementTreeIndex tr i)) = Z.to_nat d
    ∧ MerkleTree.getHashPath tr i
      = (λ lr : Buffer * Buffer, (Some lr.1, Some lr.2)) <$> pre
    ∧ reconstruct (MerkleTree.elementTreeIndex tr i) (hash v) pre = root
    ∧ LazyTree.getRoot tree' = Some root
    ∧ (res = Ok root ∨ ∃ e, res = Throw (StoreFailure e)).
Proof.
  intros Hok Hi.
  destruct (updateElement_run_below tr i v Hok ltac:(lia))
    as (tree' & root & Hset & Hroot & _ & Hrun).
  destruct (Hrun db) as (db' & res & Hupd & Hres).
  pose proof Hok as ((Hd & _) & _).
  pose proof (handle_ok_table tr Hok) as Htab.
  assert (0 < 2 ^ MerkleTree.depth tr) by (apply Z.pow_pos_nonneg; lia).
  assert (MerkleTree.elementTreeIndex tr i + 1 < 2 ^ (MerkleTree.depth tr + 1)) as Hlt.
  { unfold MerkleTree.elementTreeIndex.
    rewrite Z.pow_add_r, Z.pow_1_r by lia. lia. }
  assert (0 ≤ MerkleTree.elementTreeIndex tr i) as Hnn.
  { unfold MerkleTree.elementTreeIndex. lia. }
  set (index := MerkleTree.elementTreeIndex tr i) in *.
  destruct (set_spec (MerkleTree.depth tr) (MerkleTree.tree tr) index (hash v))
    as (tree'' & Hset' & _ & _ & Hleaf & Hframe & Hcons); [done|done|].
  assert (tree'' = tree') as -> by congruence.
  destruct (path_pairs_defined (MerkleTree.depth tr) (MerkleTree.tree tr) index)
    as [pre Hpre]; [done|done|].
  destruct (climb tree' index (hash v))
    as (post & root' & Hpost & Hroot' & Hrec & _).
  { done. }
  { unfold LazyTree.get. by rewrite Hleaf. }
  { done. }
  assert (root' = root) as -> by congruence.
  exists tree', root, db', res, (Z.log2 (index + 1)), pre.
  split; [done|]. split; [done|]. split.
  { by apply calculateIndexDepth_Some. }
  split.
  { split; [apply Z.log2_nonneg|].
    apply Z.log2_lt_pow2; unfold index, MerkleTree.elementTreeIndex; lia. }
  split; [done|]. split; [done|]. split; [done|].
  split; [by apply length_ancestors|].
  split.
  { unfold MerkleTree.getHashPath, LazyTree.getPath.
    by rewrite getPath_loop_ancestors. }
  split; [|done].
  rewrite <- Hrec.
  by apply (set_root_from_pre_path (MerkleTree.depth tr) (MerkleTree.tree tr)
              index (hash v) tree').
Qed.

(** X14.  What a successful [updateElement] has persisted.  When the call
    on an in-range index returns a root of 32 bytes, the store first
    accepted the leaf record, keyed by the decimal index and holding the hex
    of [hash v], and then a 40-byte metadata record whose first 32 bytes are
    the returned root and whose bytes 32..35 read the depth; the store
    returned is the one after the second put, and the returned root is
    [getRoot()] of the handle. *)
Theorem updateElement_persists tr db i v tr' db' root :
  handle_ok tr → 0 ≤ i < 2 ^ MerkleTree.depth tr →
  MerkleTree.updateElement tr db i v = Some (tr', db', Ok root) →
  length root = 32%nat →
  ∃ db1 meta,
    sub_put db (MerkleTree.name tr) (Number_toString i)
      (Buffer_toString_hex (hash v)) = (db1, None)
    ∧ db_put db1 (MerkleTree.name tr) meta = (db', None)
    ∧ length meta = 40%nat
    ∧ Buffer_slice meta 0 32 = root
    ∧ Buffer_readUInt32LE meta 32 = Some (MerkleTree.depth tr')
    ∧ MerkleTree.getRoot tr' = Some root.
Proof.
  intros Hok Hi Hupd Hlen.
  destruct (updateElement_run tr i v Hok Hi)
    as (tree' & root' & _ & Hroot & _ & Hrun).
  destruct (Hrun db) as (db'' & res & Hupd' & _ & Hstore).
  rewrite Hupd in Hupd'. injection Hupd' as -> -> <-.
  destruct (sub_put db _ _ _) as [db1 [e1|]]; [by simplify_eq|].
  destruct (db_put db1 _ _) as [db2 [e2|]] eqn:Hput; [by simplify_eq|].
  injection Hstore as -> <-.
  destruct (metadata_record_fields root (MerkleTree.depth tr) Hlen)
    as (Hl & Hs & Hr).
  { destruct Hok as ((? & ?) & _). unfold MAX_DEPTH in *. lia. }
  exists db1, (metadata_record root (MerkleTree.depth tr)).
  by repeat split.
Qed.

End handle_facts.

(** ** The tree as a whole: every node is the compression of its children *)

Section proper_facts.
Context `{Hasher} `{Platform} {DB : Type} `{LevelUp DB}.

Implicit Types (tr : MerkleTree.t) (db : DB).

Lemma log2_children a :
  0 ≤ a →
  Z.log2 (a * 2 + 1 + 1) = Z.log2 (a + 1) + 1
  ∧ Z.log2 (a * 2 + 2 + 1) = Z.log2 (a + 1) + 1.
Proof.
  intros Ha. split.
  - replace (a * 2 + 1 + 1) with (2 * (a + 1)) by lia.
    rewrite Z.log2_double by lia. lia.
  - replace (a * 2 + 2 + 1) with (2 * (a + 1) + 1) by lia.
    rewrite Z.log2_succ_double by lia. lia.
Qed.

Lemma get_constructor D q :
  0 ≤ q → q + 1 < 2 ^ (D + 1) →
  LazyTree.get (LazyTree.constructor D) q = Some (empty_spec D (Z.log2 (q + 1))).
Proof.
  intros Hq Hlt. pose proof (pow2_bound_nonneg D q Hq Hlt).
  unfold LazyTree.get, LazyTree.calculateIndexDepth. cbn.
  rewrite lookup_empty, decide_True by done. cbn.
  apply populateEmptyHashes_lookup. split; [apply Z.log2_nonneg|].
  assert (Z.log2 (q + 1) < D + 1); [apply Z.log2_lt_pow2; lia|lia].
Qed.

Lemma proper_constructor D : 0 ≤ D → proper D (LazyTree.constructor D).
Proof.
  intros HD a Ha Hlt.
  assert (0 < 2 ^ D) by (apply Z.pow_pos_nonneg; lia).
  destruct (log2_children a Ha) as [Hl Hr].
  assert (Z.log2 (a + 1) < D) as Hd by (apply Z.log2_lt_pow2; lia).
  pose proof (Z.log2_nonneg (a + 1)).
  exists (empty_spec D (Z.log2 (a + 1) + 1)), (empty_spec D (Z.log2 (a + 1) + 1)).
  rewrite !get_constructor, Hl, Hr;
    try (rewrite Z.pow_add_r, Z.pow_1_r by lia); try lia.
  split; [done|]. split; [done|]. f_equal. apply empty_spec_step. lia.
Qed.

(** A write at the leaf level keeps the tree proper. *)
Lemma proper_set_leaf D (tree tree' : LazyTree.t) index h :
  table_total D tree → proper D tree →
  2 ^ D ≤ index + 1 < 2 ^ (D + 1) →
  LazyTree.set tree index h = Some tree' →
  proper D tree'.
Proof.
  intros Htab Hprop [Hge Hlt] Hset.
  destruct (set_spec D tree index h Htab Hlt)
    as (tree'' & Hset' & _ & HE & _ & Hframe & Hcons).
  assert (tree'' = tree') as -> by congruence.
  intros a Ha Halt.
  destruct (decide (a ∈ ancestors index)) as [Hin|Hout].
  - destruct (Hcons a Hin) as (l & r & Hl & Hr & Hn). exists l, r.
    split; [done|]. split; [done|]. unfold LazyTree.get. by rewrite Hn.
  - destruct (Hprop a Ha Halt) as (l & r & Hl & Hr & Hn). exists l, r.
    rewrite <- Hl, <- Hr, <- Hn.
    split; [|split]; apply get_ext; try done; apply Hframe.
    + intros Hc. apply ancestors_parent_closed in Hc; [|lia].
      by rewrite parentIndex_left in Hc.
    + intros Hc. apply ancestors_parent_closed in Hc; [|lia].
      by rewrite parentIndex_right in Hc.
    + apply not_elem_of_cons. split; [lia|done].
Qed.

Lemma subtree_digest_get D (tree : LazyTree.t) :
  proper D tree →
  ∀ (h : nat) a,
    Z.of_nat h ≤ D → 0 ≤ a →
    2 ^ (D - Z.of_nat h) ≤ a + 1 < 2 ^ (D - Z.of_nat h + 1) →
    subtree_digest tree h a = LazyTree.get tree a.
Proof.
  intros Hprop. induction h as [|h IH]; intros a Hh Ha [Hge Hlt]; [done|].
  assert (2 ^ (D - Z.of_nat h) = 2 * 2 ^ (D - Z.of_nat (S h))) as Hp.
  { replace (D - Z.of_nat h) with (Z.succ (D - Z.of_nat (S h))) by lia.
    rewrite Z.pow_succ_r by lia. done. }
  assert (2 ^ (D - Z.of_nat h + 1) = 2 * 2 ^ (D - Z.of_nat h)) as Hp1.
  { rewrite Z.pow_add_r, Z.pow_1_r by lia. lia. }
  replace (D - Z.of_nat (S h) + 1) with (D - Z.of_nat h) in Hlt by lia.
  assert (2 ^ (D - Z.of_nat h) ≤ 2 ^ D) by (apply Z.pow_le_mono_r; lia).
  destruct (Hprop a Ha ltac:(lia)) as (l & r & Hl & Hr & Hn).
  cbn [subtree_digest].
  rewrite !IH, Hl, Hr, Hn by lia. done.
Qed.

Lemma subtree_digest_ext D (tree1 tree2 : LazyTree.t) :
  (∀ q, 2 ^ D ≤ q + 1 < 2 ^ (D + 1) →
        LazyTree.get tree1 q = LazyTree.get tree2 q) →
  ∀ (h : nat) a,
    Z.of_nat h ≤ D → 0 ≤ a →
    2 ^ (D - Z.of_nat h) ≤ a + 1 < 2 ^ (D - Z.of_nat h + 1) →
    subtree_digest tree1 h a = subtree_digest tree2 h a.
Proof.
  intros Hleaves. induction h as [|h IH]; intros a Hh Ha [Hge Hlt]; cbn.
  - apply Hleaves. replace (D - Z.of_nat 0) with D in * by lia. done.
  - assert (2 ^ (D - Z.of_nat h) = 2 * 2 ^ (D - Z.of_nat (S h))) as Hp.
    { replace (D - Z.of_nat h) with (Z.succ (D - Z.of_nat (S h))) by lia.
      rewrite Z.pow_succ_r by lia. done. }
    assert (2 ^ (D - Z.of_nat h + 1) = 2 * 2 ^ (D - Z.of_nat h)) as Hp1.
    { rewrite Z.pow_add_r, Z.pow_1_r by lia. lia. }
    replace (D - Z.of_nat (S h) + 1) with (D - Z.of_nat h) in Hlt by lia.
    rewrite !IH by lia. done.
Qed.

Lemma replay_proper entries : ∀ tr,
  handle_ok tr → proper (MerkleTree.depth tr) (MerkleTree.tree tr) →
  Forall (replayable (MerkleTree.depth tr)) entries →
  ∃ tr', MerkleTree.replay tr entries = Some tr'
       ∧ handle_ok tr'
       ∧ MerkleTree.name tr' = MerkleTree.name tr
       ∧ MerkleTree.depth tr' = MerkleTree.depth tr
       ∧ proper (MerkleTree.depth tr') (MerkleTree.tree tr').
Proof.
  induction entries as [|data rest IH]; intros tr Hok Hprop Hall; cbn.
  - by exists tr.
  - apply Forall_cons in Hall as [Hdata Hall].
    assert (∃ tr1, MerkleTree.on_data tr data = Some tr1
                 ∧ proper (MerkleTree.depth tr) (MerkleTree.tree tr1))
      as (tr1 & Htr1 & Hprop1).
    { unfold MerkleTree.on_data. unfold replayable in Hdata.
      destruct (parseInt data.1) as [index|]; [|by eexists].
      destruct (elementTreeIndex_leaf tr index Hok Hdata) as (_ & Hlt & _).
      destruct (set_spec (MerkleTree.depth tr) (MerkleTree.tree tr)
                  (MerkleTree.elementTreeIndex tr index) (Buffer_from_hex data.2))
        as (tree' & Hset & _); [by apply handle_ok_table|done|].
      rewrite Hset. cbn. eexists. split; [done|]. cbn.
      apply (proper_set_leaf _ (MerkleTree.tree tr) _ _ _ (handle_ok_table _ Hok)
               Hprop) in Hset; [done|].
      split; [unfold MerkleTree.elementTreeIndex; lia|done]. }
    rewrite Htr1. cbn.
    pose proof (on_data_fields _ _ _ Htr1) as (Hn & Hd & Hdep & HE).
    destruct (IH tr1) as (tr' & Hrun & Hok' & Hn' & Hd' & Hprop').
    { by apply (handle_ok_fields tr). }
    { by rewrite Hd. }
    { by rewrite Hd. }
    exists tr'. split; [done|]. split; [done|].
    split; [congruence|]. split; [congruence|done].
Qed.

Lemma constructor_proper name d tr :
  MerkleTree.constructor name d = Ok tr →
  proper (MerkleTree.depth tr) (MerkleTree.tree tr).
Proof.
  intros [Hd ->]%constructor_Ok. cbn. apply proper_constructor. lia.
Qed.

Lemma updateElement_proper tr db i v tr' db' res :
  handle_ok tr → proper (MerkleTree.depth tr) (MerkleTree.tree tr) →
  0 ≤ i < 2 ^ MerkleTree.depth tr →
  MerkleTree.updateElement tr db i v = Some (tr', db', res) →
  MerkleTree.depth tr' = MerkleTree.depth tr
  ∧ proper (MerkleTree.depth tr') (MerkleTree.tree tr').
Proof.
  intros Hok Hprop Hi Hupd.
  destruct (updateElement_run tr i v Hok Hi)
    as (tree' & root & Hset & _ & _ & Hrun).
  destruct (Hrun db) as (db'' & res' & Hupd' & _).
  assert (tr' = MerkleTree.with_tree tr tree') as -> by congruence.
  split; [done|]. cbn.
  apply (proper_set_leaf _ (MerkleTree.tree tr) _ _ _ (handle_ok_table _ Hok)
           Hprop) in Hset; [done|].
  destruct (elementTreeIndex_leaf tr i Hok Hi) as (_ & Hlt & _).
  split; [unfold MerkleTree.elementTreeIndex; lia|done].
Qed.

Lemma new_proper db name requested db' tr :
  MerkleTree.new db name requested = Some (db', Ok tr) →
  (∃ e, db_get db name = inl e)
  ∨ Forall (replayable (MerkleTree.depth tr)) (sub_createReadStream db name).1 →
  proper (MerkleTree.depth tr) (MerkleTree.tree tr).
Proof.
  unfold MerkleTree.new.
  destruct (db_get db name) as [e|meta].
  - destruct (MerkleTree.constructor name _) as [tr0|e0] eqn:Hctor; [|done].
    destruct (MerkleTree.writeMetaData _ db) as [[db1 [[]|e1]]|]; cbn; [|done..].
    intros [= <- <-] _. by apply (constructor_proper _ _ _ Hctor).
  - destruct (Buffer_readUInt32LE meta 32) as [d|]; [|done].
    destruct (MerkleTree.constructor name d) as [tr0|e0] eqn:Hctor; [|done].
    pose proof (constructor_proper _ _ _ Hctor) as Hprop0.
    apply constructor_Ok in Hctor as [Hd ->].
    pose proof (handle_ok_constructor name d Hd) as Hok0.
    unfold MerkleTree.restoreElements.
    destruct (sub_createReadStream db _) as [entries err]. cbn.
    destruct (MerkleTree.replay _ entries) as [tr1|] eqn:Hreplay; cbn; [|done].
    destruct err as [e|]; [done|].
    destruct (MerkleTree.getRoot tr1) as [r|]; cbn; [|done].
    case_decide; [|done]. intros [= <- <-] [[e He]|Hall]; [done|].
    pose proof (replay_fields _ _ _ Hreplay) as (_ & Hd1 & _).
    cbn in Hd1. rewrite Hd1 in Hall.
    destruct (replay_proper entries _ Hok0 Hprop0 Hall)
      as (tr1' & Hreplay' & _ & _ & _ & Hprop).
    rewrite Hreplay in Hreplay'. by injection Hreplay' as <-.
Qed.

(** X7.  The tree stays proper.  The handle the constructor builds is
    proper; [updateElement] on an in-range index keeps a proper handle
    proper, whatever the store answers; and the handle [new] returns is
    proper, when it created the tree and when it restored it from
    replayable records. *)
Theorem proper_is_invariant :
  (∀ name d tr,
     MerkleTree.constructor name d = Ok tr →
     proper (MerkleTree.depth tr) (MerkleTree.tree tr))
  ∧ (∀ tr db i v tr' db' res,
       handle_ok tr → proper (MerkleTree.depth tr) (MerkleTree.tree tr) →
       0 ≤ i < 2 ^ MerkleTree.depth tr →
       MerkleTree.updateElement tr db i v = Some (tr', db', res) →
       MerkleTree.depth tr' = MerkleTree.depth tr
       ∧ proper (MerkleTree.depth tr') (MerkleTree.tree tr'))
  ∧ (∀ db name requested db' tr,
       MerkleTree.new db name requested = Some (db', Ok tr) →
       (∃ e, db_get db name = inl e)
       ∨ Forall (replayable (MerkleTree.depth tr)) (sub_createReadStream db name).1 →
       proper (MerkleTree.depth tr) (MerkleTree.tree tr)).
Proof.
  split; [apply constructor_proper|].
  split; [apply updateElement_proper|apply new_proper].
Qed.

(** A leaf without an explicit entry resolves to the hash of 64 zero
    bytes. *)
Lemma unset_leaf_digest tr i :
  handle_ok tr → 0 ≤ i < 2 ^ MerkleTree.depth tr →
  LazyTree.nodes (MerkleTree.tree tr) !! MerkleTree.elementTreeIndex tr i = None →
  LazyTree.get (MerkleTree.tree tr) (MerkleTree.elementTreeIndex tr i)
  = Some (hash (Buffer_alloc 64)).
Proof.
  intros Hok Hi Hnone.
  destruct (elementTreeIndex_leaf tr i Hok Hi) as (Hpos & Hlt & Hlog).
  unfold LazyTree.get, LazyTree.calculateIndexDepth.
  rewrite Hnone, decide_True by lia. cbn. rewrite Hlog.
  destruct Hok as (Hd & _ & ->).
  rewrite populateEmptyHashes_lookup by lia. by rewrite empty_spec_leaf.
Qed.

(** X8.  On a proper handle the hash path of every in-range leaf
    verifies, at any time and not only right after that leaf was written:
    [getHashPath(i)] has [depth] pairs of defined digests, the digest leaf
    [i] resolves to is a member of the first pair, each pair compresses to
    a member of the next, and the chain and the verifier's walk end at
    [getRoot()].  A leaf with no explicit entry resolves to the hash of 64
    zero bytes. *)
Theorem getHashPath_verifies tr i :
  handle_ok tr → proper (MerkleTree.depth tr) (MerkleTree.tree tr) →
  0 ≤ i < 2 ^ MerkleTree.depth tr →
  ∃ digest path root,
    LazyTree.get (MerkleTree.tree tr) (MerkleTree.elementTreeIndex tr i)
    = Some digest
    ∧ (LazyTree.nodes (MerkleTree.tree tr) !! MerkleTree.elementTreeIndex tr i
       = None → digest = hash (Buffer_alloc 64))
    ∧ MerkleTree.getHashPath tr i
      = (λ lr : Buffer * Buffer, (Some lr.1, Some lr.2)) <$> path
    ∧ length path = Z.to_nat (MerkleTree.depth tr)
    ∧ MerkleTree.getRoot tr = Some root
    ∧ reconstruct (MerkleTree.elementTreeIndex tr i) digest path = root
    ∧ links digest path root.
Proof.
  intros Hok Hprop Hi.
  destruct (elementTreeIndex_leaf tr i Hok Hi) as (Hpos & Hlt & Hlog).
  destruct (get_is_Some (MerkleTree.depth tr) (MerkleTree.tree tr)
              (MerkleTree.elementTreeIndex tr i)) as [digest Hget];
    [by apply handle_ok_table|lia|done|].
  destruct (climb_proper _ _ (MerkleTree.elementTreeIndex tr i) digest Hprop)
    as (path & root & Hpath & Hroot & Hrec & Hlinks); [lia|done|done|].
  exists digest, path, root. split; [done|]. split.
  { intros Hnone. rewrite (unset_leaf_digest tr i Hok Hi Hnone) in Hget.
    congruence. }
  split.
  { unfold MerkleTree.getHashPath, LazyTree.getPath.
    by rewrite getPath_loop_ancestors. }
  split; [|done].
  apply (f_equal length) in Hpath. rewrite !length_fmap in Hpath.
  rewrite <- Hpath, length_ancestors, Hlog by lia. done.
Qed.

Lemma root_from_leaves tr :
  handle_ok tr → proper (MerkleTree.depth tr) (MerkleTree.tree tr) →
  MerkleTree.getRoot tr
  = subtree_digest (MerkleTree.tree tr) (Z.to_nat (MerkleTree.depth tr)) 0.
Proof.
  intros ((Hd & _) & _) Hp. symmetry.
  apply (subtree_digest_get (MerkleTree.depth tr)); try done; try lia.
  rewrite Z2Nat.id by lia. rewrite Z.sub_diag. cbn. lia.
Qed.

Lemma roots_agree tr tr2 :
  handle_ok tr → proper (MerkleTree.depth tr) (MerkleTree.tree tr) →
  handle_ok tr2 → MerkleTree.depth tr2 = MerkleTree.depth tr →
  proper (MerkleTree.depth tr2) (MerkleTree.tree tr2) →
  (∀ i, 0 ≤ i < 2 ^ MerkleTree.depth tr →
     LazyTree.get (MerkleTree.tree tr2) (MerkleTree.elementTreeIndex tr2 i)
     = LazyTree.get (MerkleTree.tree tr) (MerkleTree.elementTreeIndex tr i)) →
  MerkleTree.getRoot tr2 = MerkleTree.getRoot tr.
Proof.
  intros Hok Hprop Hok2 Hd Hprop2 Hleaves.
  rewrite (root_from_leaves tr Hok Hprop), (root_from_leaves tr2 Hok2 Hprop2), Hd.
  destruct Hok as ((Hd1 & _) & _).
  apply (subtree_digest_ext (MerkleTree.depth tr)); try lia.
  - intros q Hq.
    specialize (Hleaves (q - 2 ^ MerkleTree.depth tr + 1)).
    unfold MerkleTree.elementTreeIndex in Hleaves. rewrite Hd in Hleaves.
    replace (q - 2 ^ MerkleTree.depth tr + 1 + 2 ^ MerkleTree.depth tr - 1)
      with q in Hleaves by lia.
    apply Hleaves. rewrite Z.pow_add_r, Z.pow_1_r in Hq by lia. lia.
  - rewrite Z2Nat.id by lia. rewrite Z.sub_diag. cbn. lia.
Qed.

(** X9.  The root of a proper handle is the Merkle root of its leaf
    level: the digest obtained by starting from what the [2^depth] leaf
    nodes resolve to and compressing pairwise, [depth] times.  So two proper
    handles of the same depth whose in-range leaves resolve to the same
    digests have the same root, whatever explicit entries their node maps
    hold. *)
Theorem root_is_merkle_root tr :
  handle_ok tr → proper (MerkleTree.depth tr) (MerkleTree.tree tr) →
  MerkleTree.getRoot tr
  = subtree_digest (MerkleTree.tree tr) (Z.to_nat (MerkleTree.depth tr)) 0
  ∧ ∀ tr2,
      handle_ok tr2 → MerkleTree.depth tr2 = MerkleTree.depth tr →
      proper (MerkleTree.depth tr2) (MerkleTree.tree tr2) →
      (∀ i, 0 ≤ i < 2 ^ MerkleTree.depth tr →
         LazyTree.get (MerkleTree.tree tr2) (MerkleTree.elementTreeIndex tr2 i)
         = LazyTree.get (MerkleTree.tree tr) (MerkleTree.elementTreeIndex tr i)) →
      MerkleTree.getRoot tr2 = MerkleTree.getRoot tr.
Proof.
  intros Hok Hprop. split; [by apply root_from_leaves|].
  intros tr2 Hok2 Hd Hprop2 Hleaves. by apply roots_agree.
Qed.

(** X10.  Writing to a leaf a payload whose hash the leaf already
    resolves to leaves the root of a proper handle unchanged.  In
    particular, [updateElement(i, zero-64-bytes)] on a leaf that was never
    written keeps the root, although the leaf becomes an explicit entry of
    the node map. *)
Theorem updateElement_same_digest_keeps_root tr db i v :
  handle_ok tr → proper (MerkleTree.depth tr) (MerkleTree.tree tr) →
  0 ≤ i < 2 ^ MerkleTree.depth tr →
  LazyTree.get (MerkleTree.tree tr) (MerkleTree.elementTreeIndex tr i)
  = Some (hash v)
  ∨ LazyTree.nodes (MerkleTree.tree tr) !! MerkleTree.elementTreeIndex tr i = None
    ∧ v = Buffer_alloc 64 →
  ∃ tr' db' res,
    MerkleTree.updateElement tr db i v = Some (tr', db', res)
    ∧ MerkleTree.getRoot tr' = MerkleTree.getRoot tr
    ∧ LazyTree.nodes (MerkleTree.tree tr') !! MerkleTree.elementTreeIndex tr i
      = Some (hash v).
Proof.
  intros Hok Hprop Hi Hsame.
  assert (LazyTree.get (MerkleTree.tree tr) (MerkleTree.elementTreeIndex tr i)
          = Some (hash v)) as Hget.
  { destruct Hsame as [?|[Hnone ->]]; [done|]. by apply unset_leaf_digest. }
  destruct (updateElement_leaf_frame tr db i v Hok Hi)
    as (tr' & db' & res & Hupd & Hleaf & Hothers).
  destruct (updateElement_proper tr db i v tr' db' res Hok Hprop Hi Hupd)
    as (Hd & Hprop').
  pose proof (updateElement_handle_ok _ _ _ _ _ _ _ Hok Hupd) as Hok'.
  exists tr', db', res. split; [done|]. split.
  - apply roots_agree; try done. intros j Hj.
    destruct (decide (j = i)) as [->|Hne]; [congruence|].
    by apply Hothers.
  - destruct (updateElement_run tr i v Hok Hi) as (tree' & root & Hset & _ & _ & Hrun).
    destruct (Hrun db) as (db'' & res' & Hupd' & _).
    assert (tr' = MerkleTree.with_tree tr tree') as -> by congruence.
    destruct (elementTreeIndex_leaf tr i Hok Hi) as (_ & Hlt & _).
    destruct (set_spec (MerkleTree.depth tr) (MerkleTree.tree tr)
                (MerkleTree.elementTreeIndex tr i) (hash v))
      as (tree'' & Hset' & _ & _ & Hn & _); [by apply handle_ok_table|done|].
    by assert (tree'' = tree') as -> by congruence.
Qed.

End proper_facts.

(** ** Runs of writes, and reopening *)

Section replay_facts.
Context `{Hasher} `{Platform} {DB : Type} `{LevelUp DB}.

Implicit Types (tr : MerkleTree.t) (db : DB).

Lemma write_over_snoc (m : gmap Z Buffer) ws w :
  write_over m (ws ++ [w]) = <[w.1 := w.2]> (write_over m ws).
Proof. unfold write_over. by rewrite foldl_app. Qed.

Lemma write_over_lookup (m : gmap Z Buffer) ws q :
  write_over m ws !! q
  = match write_over ∅ ws !! q with
    | Some h => Some h
    | None => m !! q
    end.
Proof.
  induction ws as [|w ws IH] using rev_ind.
  - cbn. by rewrite lookup_empty.
  - rewrite !write_over_snoc. destruct (decide (w.1 = q)) as [->|Hne].
    + by rewrite !lookup_insert_eq.
    + by rewrite !lookup_insert_ne.
Qed.

Lemma write_over_ext (m m' : gmap Z Buffer) ws q :
  m !! q = m' !! q → write_over m ws !! q = write_over m' ws !! q.
Proof. intros Hq. by rewrite (write_over_lookup m), (write_over_lookup m'), Hq. Qed.

Lemma write_over_is_Some ws q :
  is_Some (write_over ∅ ws !! q) ↔ q ∈ ws.*1.
Proof.
  induction ws as [|w ws IH] using rev_ind.
  - cbn. rewrite lookup_empty. split; [by intros [? ?]|by intros ?%elem_of_nil].
  - rewrite write_over_snoc, fmap_app, elem_of_app. cbn.
    rewrite list_elem_of_singleton.
    destruct (decide (w.1 = q)) as [->|Hne].
    + rewrite lookup_insert_eq. split; [by right|by eexists].
    + rewrite lookup_insert_ne by done. rewrite IH. split; [by left|].
      by intros [?|?].
Qed.

Lemma write_over_not_in (m : gmap Z Buffer) ws q :
  q ∉ ws.*1 → write_over m ws !! q = m !! q.
Proof.
  intros Hq. rewrite write_over_lookup.
  destruct (write_over ∅ ws !! q) as [h|] eqn:Hw; [|done].
  exfalso. apply Hq, write_over_is_Some. by eexists.
Qed.

(** What a run of leaf-level writes establishes. *)
Lemma set_all_spec D ws : ∀ tree : LazyTree.t,
  table_total D tree →
  Forall (λ w, 2 ^ D ≤ w.1 + 1 < 2 ^ (D + 1)) ws →
  ∃ tree',
    set_all tree ws = Some tree'
    ∧ LazyTree.depth tree' = LazyTree.depth tree
    ∧ LazyTree.emptyHashes tree' = LazyTree.emptyHashes tree
    ∧ (∀ q, (∀ w, w ∈ ws → q ∉ ancestors w.1) →
         LazyTree.nodes tree' !! q = write_over (LazyTree.nodes tree) ws !! q)
    ∧ (∀ a w, w ∈ ws → a ∈ ancestors w.1 → consistent tree' a).
Proof.
  induction ws as [|[index h] rest IH]; intros tree Htab Hall.
  - exists tree. repeat split; try done. by intros a w ?%elem_of_nil.
  - apply Forall_cons in Hall as [[Hge Hlt] Hall]. cbn in Hge, Hlt.
    destruct (set_spec D tree index h Htab Hlt)
      as (tree1 & Hset & Hd1 & HE1 & Hi1 & Hframe1 & Hcons1).
    destruct (IH tree1 (table_total_ext D tree tree1 HE1 Htab) Hall)
      as (tree' & Hrun & Hd & HE & Hframe & Hcons).
    exists tree'. cbn [set_all]. rewrite Hset. cbn.
    split; [done|]. split; [congruence|]. split; [congruence|]. split.
    + intros q Hq. rewrite Hframe.
      2:{ intros w Hw. apply Hq. apply elem_of_cons. by right. }
      change (write_over (LazyTree.nodes tree) ((index, h) :: rest))
        with (write_over (<[index := h]> (LazyTree.nodes tree)) rest).
      apply write_over_ext. destruct (decide (q = index)) as [->|Hne].
      * by rewrite lookup_insert_eq.
      * rewrite lookup_insert_ne by done. apply Hframe1.
        apply not_elem_of_cons. split; [done|].
        apply (Hq (index, h)). apply elem_of_cons. by left.
    + intros a w Hw Ha.
      destruct (decide (Exists (λ w', a ∈ ancestors w'.1) rest)) as [Hex|Hnex].
      { apply Exists_exists in Hex as (w' & Hw' & Ha'). by apply (Hcons a w'). }
      assert (∀ w', w' ∈ rest → a ∉ ancestors w'.1) as Hfree.
      { intros w' Hw' Ha'. apply Hnex, Exists_exists. by exists w'. }
      apply elem_of_cons in Hw as [->|Hw]; [|by destruct (Hfree w Hw)].
      cbn in Ha.
      pose proof (elem_of_ancestors_bounds _ _ Ha) as Hb.
      pose proof (elem_of_ancestors_le_parent _ _ Ha) as Hp.
      pose proof (pow2_bound_nonneg D index ltac:(lia) Hlt) as HD.
      rewrite Z.pow_add_r, Z.pow_1_r in Hlt by lia.
      assert (∀ c, parentIndex c = a → 1 ≤ c → ∀ w', w' ∈ rest →
                c ∉ w'.1 :: ancestors w'.1) as Hchild.
      { intros c Hpc Hc w' Hw' Hin.
        apply ancestors_parent_closed in Hin; [|done].
        rewrite Hpc in Hin. by apply (Hfree w'). }
      assert (∀ x, (∀ w', w' ∈ rest → x ∉ w'.1 :: ancestors w'.1) →
                LazyTree.nodes tree1 !! x = LazyTree.nodes tree' !! x) as Hsame.
      { intros x Hx. rewrite Hframe.
        - symmetry. apply write_over_not_in.
          intros (w' & -> & Hw')%list_elem_of_fmap.
          apply (Hx w' Hw'). apply elem_of_cons. by left.
        - intros w' Hw' Hin. apply (Hx w' Hw'). apply elem_of_cons. by right. }
      apply (consistent_ext tree1); [congruence|..|by apply Hcons1].
      * apply Hsame. intros w' Hw'. apply not_elem_of_cons. split; [|by apply Hfree].
        apply Forall_forall with (x := w') in Hall; [|done]. cbn in Hall. lia.
      * apply Hsame. apply Hchild; [apply parentIndex_left; lia|lia].
      * apply Hsame. apply Hchild; [apply parentIndex_right; lia|lia].
Qed.

(** Two runs of leaf-level writes that leave the same digest at every
    leaf leave the same tree. *)
Lemma set_all_last_write_wins D (tree : LazyTree.t) ws ws' :
  table_total D tree →
  Forall (λ w, 2 ^ D ≤ w.1 + 1 < 2 ^ (D + 1)) ws →
  Forall (λ w, 2 ^ D ≤ w.1 + 1 < 2 ^ (D + 1)) ws' →
  write_over ∅ ws = write_over ∅ ws' →
  ∃ tree', set_all tree ws = Some tree' ∧ set_all tree ws' = Some tree'.
Proof.
  intros Htab Hall Hall' Heq.
  destruct (set_all_spec D ws tree Htab Hall)
    as (t1 & Hrun1 & Hd1 & HE1 & Hframe1 & Hcons1).
  destruct (set_all_spec D ws' tree Htab Hall')
    as (t2 & Hrun2 & Hd2 & HE2 & Hframe2 & Hcons2).
  exists t1. split; [done|]. rewrite Hrun2. f_equal.
  assert (∀ q, q ∈ ws.*1 ↔ q ∈ ws'.*1) as Hdom.
  { intros q. by rewrite <- !write_over_is_Some, Heq. }
  assert (∀ a, (∃ w, w ∈ ws ∧ a ∈ ancestors w.1)
               ↔ (∃ w, w ∈ ws' ∧ a ∈ ancestors w.1)) as Htouched.
  { intros a. split; intros (w & Hw & Ha).
    - assert (w.1 ∈ ws'.*1) as (w' & Hw1 & Hw')%list_elem_of_fmap
        by (apply Hdom; by apply list_elem_of_fmap_2).
      exists w'. split; [done|]. by rewrite <- Hw1.
    - assert (w.1 ∈ ws.*1) as (w' & Hw1 & Hw')%list_elem_of_fmap
        by (apply Hdom; by apply list_elem_of_fmap_2).
      exists w'. split; [done|]. by rewrite <- Hw1. }
  apply tree_eq; [|congruence..].
  apply (consistent_unique t2 t1 (ws.*1 ≫= ancestors)); [congruence|..].
  - intros a (j & Ha & _)%list_elem_of_bind.
    apply elem_of_ancestors_bounds in Ha. lia.
  - intros q Hq.
    assert (∀ w, w ∈ ws → q ∉ ancestors w.1) as Hfree.
    { intros w Hw Ha. apply Hq, list_elem_of_bind. exists w.1.
      split; [done|]. by apply list_elem_of_fmap_2. }
    rewrite Hframe1 by done. rewrite Hframe2.
    + by rewrite (write_over_lookup _ ws), (write_over_lookup _ ws'), Heq.
    + intros w Hw Ha.
      destruct (proj2 (Htouched q)) as (w' & Hw' & Ha'); [by exists w|].
      by apply (Hfree w').
  - intros a (j & Ha & (w & -> & Hw)%list_elem_of_fmap)%list_elem_of_bind.
    destruct (proj1 (Htouched a)) as (w' & Hw' & Ha'); [by exists w|].
    by apply (Hcons2 a w').
  - intros a (j & Ha & (w & -> & Hw)%list_elem_of_fmap)%list_elem_of_bind.
    by apply (Hcons1 a w).
Qed.

Lemma leaf_writes_leaf_level D updates :
  0 ≤ D → Forall (λ u, 0 ≤ u.1 < 2 ^ D) updates →
  Forall (λ w, 2 ^ D ≤ w.1 + 1 < 2 ^ (D + 1)) (leaf_writes D updates).
Proof.
  intros HD Hall. unfold leaf_writes. apply Forall_fmap.
  eapply Forall_impl; [done|]. intros u Hu. cbn in *.
  rewrite Z.pow_add_r, Z.pow_1_r by lia. lia.
Qed.

(** A run of [updateElement] calls is the run of its engine writes. *)
Lemma update_all_set_all updates : ∀ tr,
  handle_ok tr →
  Forall (λ u, 0 ≤ u.1 < 2 ^ MerkleTree.depth tr) updates →
  ∃ tree',
    set_all (MerkleTree.tree tr) (leaf_writes (MerkleTree.depth tr) updates)
    = Some tree'
    ∧ ∀ db, ∃ db',
        update_all tr db updates = Some (MerkleTree.with_tree tr tree', db').
Proof.
  induction updates as [|[i v] rest IH]; intros tr Hok Hall.
  - exists (MerkleTree.tree tr). split; [done|]. intros db. exists db.
    cbn. by destruct tr.
  - apply Forall_cons in Hall as [Hi Hall]. cbn in Hi.
    destruct (updateElement_run tr i v Hok Hi)
      as (tree1 & root & Hset & _ & Hok1 & Hrun).
    destruct (IH (MerkleTree.with_tree tr tree1) Hok1 Hall) as (tree' & Hrest & Hruns).
    exists tree'. split.
    + cbn. unfold MerkleTree.elementTreeIndex in Hset. rewrite Hset. done.
    + intros db. destruct (Hrun db) as (db1 & res & Hupd & _).
      destruct (Hruns db1) as (db' & Hrest').
      exists db'. cbn. rewrite Hupd. cbn. done.
Qed.

Lemma replay_decoded entries ws : ∀ tr,
  Forall2 (decodes_to (MerkleTree.depth tr)) entries ws →
  MerkleTree.replay tr entries
  = MerkleTree.with_tree tr <$> set_all (MerkleTree.tree tr) ws.
Proof.
  intros tr Hdec. revert tr Hdec.
  induction entries as [|data entries IH] in ws |- *; intros tr Hdec.
  - apply Forall2_nil_inv_l in Hdec as ->. cbn. by destruct tr.
  - apply Forall2_cons_inv_l in Hdec as (w & ws' & (index & Hparse & ->) & Hdec & ->).
    cbn. unfold MerkleTree.on_data. rewrite Hparse.
    unfold MerkleTree.elementTreeIndex.
    destruct (LazyTree.set _ _ _) as [tree1|]; cbn; [|done].
    by rewrite (IH ws' (MerkleTree.with_tree tr tree1)).
Qed.

(** X11.  A run of in-range [updateElement] calls leaves a handle that
    depends only on the digest last written to each leaf: two runs from the
    same handle that agree on that, in whatever order and with whatever
    overwritten values in between, end in the same handle, whatever the
    store answers. *)
Theorem update_all_last_write_wins tr updates updates' :
  handle_ok tr →
  Forall (λ u, 0 ≤ u.1 < 2 ^ MerkleTree.depth tr) updates →
  Forall (λ u, 0 ≤ u.1 < 2 ^ MerkleTree.depth tr) updates' →
  write_over ∅ (leaf_writes (MerkleTree.depth tr) updates)
  = write_over ∅ (leaf_writes (MerkleTree.depth tr) updates') →
  ∃ tr', ∀ db db', ∃ db1 db1',
    update_all tr db updates = Some (tr', db1)
    ∧ update_all tr db' updates' = Some (tr', db1').
Proof.
  intros Hok Hall Hall' Heq. pose proof Hok as ((Hd & _) & _).
  destruct (update_all_set_all updates tr Hok Hall) as (t1 & Hs1 & Hrun1).
  destruct (update_all_set_all updates' tr Hok Hall') as (t2 & Hs2 & Hrun2).
  destruct (set_all_last_write_wins (MerkleTree.depth tr) (MerkleTree.tree tr)
              (leaf_writes (MerkleTree.depth tr) updates)
              (leaf_writes (MerkleTree.depth tr) updates'))
    as (t & Ht1 & Ht2); try done.
  { by apply handle_ok_table. }
  { apply leaf_writes_leaf_level; [lia|done]. }
  { apply leaf_writes_leaf_level; [lia|done]. }
  assert (t1 = t) as -> by congruence. assert (t2 = t) as -> by congruence.
  exists (MerkleTree.with_tree tr t). intros db db'.
  destruct (Hrun1 db) as (db1 & ?). destruct (Hrun2 db') as (db1' & ?).
  by exists db1, db1'.
Qed.

(** X12.  Reopening restores the tree.  Let a handle be the result of a
    run of in-range updates on a new tree of depth D.  If the store then
    returns a metadata record whose bytes 32..35 read D and whose first 32
    bytes are the handle's root, and a scan that ends without error and
    whose records decode to the digest last written to each leaf, in any
    order, then [new] returns that very handle: same name, depth and node
    map, whatever depth is requested. *)
Theorem reopen_restores_tree name D updates db0 tr db_closed
    db meta entries ws requested :
  1 ≤ D ≤ 32 →
  Forall (λ u, 0 ≤ u.1 < 2 ^ D) updates →
  update_all (MerkleTree.mk name D (LazyTree.constructor D)) db0 updates
  = Some (tr, db_closed) →
  db_get db name = inr meta →
  Buffer_readUInt32LE meta 32 = Some D →
  MerkleTree.getRoot tr = Some (Buffer_slice meta 0 32) →
  sub_createReadStream db name = (entries, None) →
  Forall2 (decodes_to D) entries ws →
  write_over ∅ ws = write_over ∅ (leaf_writes D updates) →
  MerkleTree.new db name requested = Some (db, Ok tr).
Proof.
  intros HD Hall Hrun Hget Hread Hroot Hscan Hdec Heq.
  set (tr0 := MerkleTree.mk name D (LazyTree.constructor D)) in *.
  assert (handle_ok tr0) as Hok0 by (apply handle_ok_constructor; unfold MAX_DEPTH; lia).
  assert (MerkleTree.constructor name D = Ok tr0) as Hctor.
  { apply constructor_Ok. split; [unfold MAX_DEPTH; lia|done]. }
  destruct (update_all_set_all updates tr0 Hok0 Hall) as (tree' & Hset & Hruns).
  destruct (Hruns db0) as (db1 & Hrun'). rewrite Hrun in Hrun'.
  injection Hrun' as -> <-.
  pose proof (leaf_writes_leaf_level D updates ltac:(lia) Hall) as Hlv. cbn in Hset.
  assert (Forall (λ w, 2 ^ D ≤ w.1 + 1 < 2 ^ (D + 1)) ws) as Hlv'.
  { apply Forall_forall. intros w Hw.
    assert (w.1 ∈ (leaf_writes D updates).*1) as (w' & -> & Hw')%list_elem_of_fmap.
    { apply write_over_is_Some. rewrite <- Heq. apply write_over_is_Some.
      by apply list_elem_of_fmap_2. }
    by apply (proj1 (Forall_forall _ _) Hlv). }
  destruct (set_all_last_write_wins D (LazyTree.constructor D) ws (leaf_writes D updates))
    as (t & Ht1 & Ht2); try done.
  { by apply (handle_ok_table tr0). }
  assert (t = tree') as -> by congruence.
  unfold MerkleTree.new. rewrite Hget, Hread, Hctor.
  unfold MerkleTree.restoreElements. cbn. rewrite Hscan. cbn.
  fold tr0. rewrite (replay_decoded entries ws tr0 Hdec). cbn. rewrite Ht1. cbn.
  rewrite Hroot. cbn. by rewrite decide_True.
Qed.

(** X13.  On a tree with no leaf set, the hash path of every in-range
    leaf is the same: [depth] pairs, the pair at distance [k] from the leaf
    level holding twice the empty-subtree digest of depth [depth - k]. *)
Theorem getHashPath_of_empty_tree name D tr i :
  MerkleTree.constructor name D = Ok tr → 0 ≤ i < 2 ^ D →
  length (MerkleTree.getHashPath tr i) = Z.to_nat D
  ∧ ∀ k : nat, Z.of_nat k < D →
      MerkleTree.getHashPath tr i !! k
      = Some (Some (empty_spec D (D - Z.of_nat k)),
              Some (empty_spec D (D - Z.of_nat k))).
Proof.
  intros [Hd ->]%constructor_Ok Hi. unfold MAX_DEPTH in Hd.
  set (tr := MerkleTree.mk name D (LazyTree.constructor D)).
  assert (handle_ok tr) as Hok by (apply handle_ok_constructor; unfold MAX_DEPTH; lia).
  destruct (elementTreeIndex_leaf tr i Hok Hi) as (Hpos & Hlt & Hlog).
  cbn in Hlt, Hlog.
  unfold MerkleTree.getHashPath, LazyTree.getPath.
  rewrite getPath_loop_ancestors. cbn [app].
  rewrite length_fmap, length_ancestors, Hlog by lia. split; [done|].
  intros k Hk.
  destruct (ancestor_children_depth D (MerkleTree.elementTreeIndex tr i) (Z.of_nat k))
    as (Ha & Hl & Hr).
  { split; [|done]. unfold MerkleTree.elementTreeIndex. cbn. lia. }
  { lia. }
  rewrite list_lookup_fmap, ancestors_lookup; [|lia|].
  2:{ rewrite length_ancestors, Hlog by lia. lia. }
  cbn [fmap option_fmap option_map MerkleTree.tree tr].
  set (a := (MerkleTree.elementTreeIndex tr i + 1) / 2 ^ (Z.of_nat k + 1) - 1) in *.
  assert (a * 2 + 2 + 1 < 2 ^ (D + 1)) as Hin.
  { apply Z.log2_lt_pow2; lia. }
  rewrite !get_constructor, Hl, Hr by lia. done.
Qed.

End replay_facts.

(** ** Reopening: what [new] does with a stored record *)

Section restore_facts.
Context `{Hasher} `{Platform} {DB : Type} `{LevelUp DB}.

Implicit Types (tr : MerkleTree.t) (db : DB).

(** The replay is the run of the engine writes the records decode to. *)
Lemma replay_decoded_writes entries : ∀ tr,
  MerkleTree.replay tr entries
  = MerkleTree.with_tree tr
      <$> set_all (MerkleTree.tree tr) (decoded_writes (MerkleTree.depth tr) entries).
Proof.
  induction entries as [|data entries IH]; intros tr.
  - cbn. by destruct tr.
  - cbn [MerkleTree.replay]. unfold MerkleTree.on_data, decoded_writes.
    cbn [omap list_omap]. fold (decoded_writes (MerkleTree.depth tr) entries).
    destruct (parseInt data.1) as [index|]; cbn [mbind option_bind]; [|apply IH].
    cbn [set_all]. unfold MerkleTree.elementTreeIndex.
    destruct (LazyTree.set _ _ _) as [tree1|]; cbn; [|done].
    apply (IH (MerkleTree.with_tree tr tree1)).
Qed.

Lemma decoded_writes_elem D entries w :
  w ∈ decoded_writes D entries
  ↔ ∃ data index, data ∈ entries ∧ parseInt data.1 = Some index
                  ∧ w = (index + 2 ^ D - 1, Buffer_from_hex data.2).
Proof.
  unfold decoded_writes. rewrite list_elem_of_omap. split.
  - intros (data & Hin & Hdec). exists data.
    destruct (parseInt data.1) as [index|]; [|done].
    exists index. cbn in Hdec. by injection Hdec as <-.
  - intros (data & index & Hin & Hparse & ->). exists data.
    split; [done|]. by rewrite Hparse.
Qed.

Lemma decoded_writes_leaf_level D entries :
  0 ≤ D → Forall (replayable D) entries →
  Forall (λ w, 2 ^ D ≤ w.1 + 1 < 2 ^ (D + 1)) (decoded_writes D entries).
Proof.
  intros HD Hall. apply Forall_forall.
  intros w (data & index & Hin & Hparse & ->)%decoded_writes_elem.
  apply Forall_forall with (x := data) in Hall; [|done].
  unfold replayable in Hall. rewrite Hparse in Hall. cbn.
  rewrite Z.pow_add_r, Z.pow_1_r by lia. lia.
Qed.

Lemma decoded_writes_below D entries :
  0 ≤ D →
  Forall (λ data, ∀ index, parseInt data.1 = Some index → index < 2 ^ D) entries →
  Forall (λ w, w.1 + 1 < 2 ^ (D + 1)) (decoded_writes D entries).
Proof.
  intros HD Hall. apply Forall_forall.
  intros w (data & index & Hin & Hparse & ->)%decoded_writes_elem.
  apply Forall_forall with (x := data) in Hall; [|done].
  specialize (Hall index Hparse). cbn.
  rewrite Z.pow_add_r, Z.pow_1_r by lia. lia.
Qed.

(** With no two writes at one node, every write is still there at the
    end. *)
Lemma write_over_NoDup (ws : list (Z * Buffer)) w :
  NoDup ws.*1 → w ∈ ws → write_over ∅ ws !! w.1 = Some w.2.
Proof.
  induction ws as [|w' ws IH] using rev_ind; [by intros _ ?%elem_of_nil|].
  rewrite fmap_app, write_over_snoc. cbn.
  intros [Hnd [Hdisj _]]%NoDup_app [Hin | ->%list_elem_of_singleton]%elem_of_app.
  - rewrite lookup_insert_ne; [by apply IH|].
    intros Heq. apply (Hdisj w.1).
    + apply list_elem_of_fmap. by exists w.
    + rewrite Heq. apply list_elem_of_singleton. done.
  - by rewrite lookup_insert_eq.
Qed.

Lemma set_all_proper D (ws : list (Z * Buffer)) : ∀ tree tree' : LazyTree.t,
  table_total D tree → proper D tree →
  Forall (λ w, 2 ^ D ≤ w.1 + 1 < 2 ^ (D + 1)) ws →
  set_all tree ws = Some tree' →
  proper D tree'.
Proof.
  induction ws as [|[index h] ws IH]; intros tree tree' Htab Hprop Hall; cbn.
  - by intros [= <-].
  - apply Forall_cons in Hall as [Hleaf Hall]. cbn in Hleaf.
    destruct (LazyTree.set tree index h) as [tree1|] eqn:Hset; cbn; [|done].
    pose proof (set_fields _ _ _ _ Hset) as [_ HE].
    apply (IH tree1); [by apply (table_total_ext D tree)| |done].
    by apply (proper_set_leaf D tree tree1 index h).
Qed.

(** What [new] does once it has found a record whose depth is within
    bounds and the scan has ended without an error. *)
Lemma new_on_record db name requested meta d entries :
  db_get db name = inr meta →
  Buffer_readUInt32LE meta 32 = Some d → 1 ≤ d ≤ 32 →
  sub_createReadStream db name = (entries, None) →
  MerkleTree.new db name requested
  = (tree1 ← set_all (LazyTree.constructor d) (decoded_writes d entries);
     root ← LazyTree.getRoot tree1;
     Some (db, if decide (root = Buffer_slice meta 0 32)
               then Ok (MerkleTree.mk name d tree1) else Throw RootMismatch)).
Proof.
  intros Hget Hdepth Hd Hscan.
  assert (MerkleTree.constructor name d
          = Ok (MerkleTree.mk name d (LazyTree.constructor d))) as Hctor.
  { apply constructor_Ok. split; [unfold MAX_DEPTH; lia|done]. }
  unfold MerkleTree.new. rewrite Hget, Hdepth, Hctor.
  unfold MerkleTree.restoreElements. cbn [MerkleTree.name]. rewrite Hscan.
  rewrite replay_decoded_writes. cbn [MerkleTree.tree MerkleTree.depth].
  destruct (set_all _ _) as [tree1|]; cbn; [|done].
  unfold MerkleTree.getRoot. cbn.
  destruct (LazyTree.getRoot tree1) as [root|]; cbn; [|done].
  by case_decide.
Qed.

(** The engine a replay leaves is a tree of the depth it was built with. *)
Lemma set_all_constructor d ws (tree1 : LazyTree.t) :
  0 ≤ d →
  set_all (LazyTree.constructor d) ws = Some tree1 →
  LazyTree.depth tree1 = d
  ∧ LazyTree.emptyHashes tree1 = LazyTree.populateEmptyHashes d
  ∧ is_Some (LazyTree.getRoot tree1).
Proof.
  intros Hd [Hdep HE]%set_all_fields. split; [done|]. split; [done|].
  apply (getRoot_is_Some d); [done|].
  apply (table_total_ext d (LazyTree.constructor d)); [done|].
  intros k Hk. cbn. rewrite populateEmptyHashes_lookup by done. by eexists.
Qed.

(** The engine after the replay of in-range records. *)
Lemma replayed_tree d entries :
  1 ≤ d ≤ 32 → Forall (replayable d) entries →
  ∃ tree1,
    set_all (LazyTree.constructor d) (decoded_writes d entries) = Some tree1
    ∧ (∀ q, 2 ^ d ≤ q + 1 < 2 ^ (d + 1) →
         LazyTree.nodes tree1 !! q = write_over ∅ (decoded_writes d entries) !! q)
    ∧ proper d tree1
    ∧ LazyTree.getRoot tree1 = subtree_digest tree1 (Z.to_nat d) 0.
Proof.
  intros Hd Hall.
  assert (table_total d (LazyTree.constructor d)) as Htab.
  { intros k Hk. cbn. rewrite populateEmptyHashes_lookup by done. by eexists. }
  pose proof (decoded_writes_leaf_level d entries ltac:(lia) Hall) as Hleaf.
  destruct (set_all_spec d (decoded_writes d entries) (LazyTree.constructor d)
              Htab Hleaf) as (tree1 & Hrun & Hdep & HE & Hframe & _).
  assert (proper d tree1) as Hprop.
  { apply (set_all_proper d (decoded_writes d entries) (LazyTree.constructor d));
      [done|apply proper_constructor; lia|done|done]. }
  exists tree1. split; [done|]. split; [|split; [done|]].
  - intros q [Hge Hlt]. rewrite Hframe.
    + reflexivity.
    + intros w Hw. apply Forall_forall with (x := w) in Hleaf; [|done].
      apply (leaf_not_ancestor d); [done|]. cbn in Hleaf. lia.
  - apply (root_from_leaves (MerkleTree.mk "" d tree1)); [|done].
    repeat split; cbn; try done; unfold MAX_DEPTH; lia.
Qed.

(** C2.  When the metadata record of [name] exists, holds a depth [d]
    within bounds, and the leaf scan ends without a store error, [new]
    builds a tree of depth [d], hands every scanned record whose key reads
    as a number to the engine, in scan order, as a write of the decoded
    value at node [index + 2^d - 1], and compares the root of the resulting
    engine with the first 32 bytes of the record: when they are equal the
    handle holding that engine is returned, otherwise the call fails with
    [RootMismatch] and returns no handle.  The store is not written.  The
    writes run through whenever no key reads as an index of [2^d] or more.
    When every key is in range, the engine ends as follows: each leaf
    node holds the value decoded from the last record of its index (the
    one record, when no two records share an index) and is absent when no
    record has its index, every internal node resolves to the compression
    of its two children, and the root that is compared is the Merkle root
    recomputed from the leaves. *)
Theorem new_checks_restored_root db name depth meta d entries :
  db_get db name = inr meta →
  Buffer_readUInt32LE meta 32 = Some d → 1 ≤ d ≤ 32 →
  sub_createReadStream db name = (entries, None) →
  let tr0 := MerkleTree.mk name d (LazyTree.constructor d) in
  let ws := decoded_writes d entries in
  MerkleTree.constructor name d = Ok tr0
  ∧ MerkleTree.replay tr0 entries
    = MerkleTree.with_tree tr0 <$> set_all (LazyTree.constructor d) ws
  ∧ (∀ w, w ∈ ws ↔ ∃ data index, data ∈ entries ∧ parseInt data.1 = Some index
                       ∧ w = (index + 2 ^ d - 1, Buffer_from_hex data.2))
  ∧ MerkleTree.new db name depth
    = (tree1 ← set_all (LazyTree.constructor d) ws;
       root ← LazyTree.getRoot tree1;
       Some (db, if decide (root = Buffer_slice meta 0 32)
                 then Ok (MerkleTree.mk name d tree1) else Throw RootMismatch))
  ∧ (∀ tree1, set_all (LazyTree.constructor d) ws = Some tree1 →
       is_Some (LazyTree.getRoot tree1))
  ∧ (Forall (λ data, ∀ index, parseInt data.1 = Some index → index < 2 ^ d)
       entries →
     is_Some (set_all (LazyTree.constructor d) ws))
  ∧ (Forall (replayable d) entries →
     ∃ tree1 root,
       set_all (LazyTree.constructor d) ws = Some tree1
       ∧ (∀ q, 2 ^ d ≤ q + 1 < 2 ^ (d + 1) →
            LazyTree.nodes tree1 !! q = write_over ∅ ws !! q)
       ∧ (∀ data index, data ∈ entries → parseInt data.1 = Some index →
            is_Some (LazyTree.nodes tree1 !! (index + 2 ^ d - 1)))
       ∧ (NoDup ws.*1 → ∀ data index,
            data ∈ entries → parseInt data.1 = Some index →
            LazyTree.nodes tree1 !! (index + 2 ^ d - 1)
            = Some (Buffer_from_hex data.2))
       ∧ proper d tree1
       ∧ LazyTree.getRoot tree1 = Some root
       ∧ subtree_digest tree1 (Z.to_nat d) 0 = Some root
       ∧ MerkleTree.new db name depth
         = Some (db, if decide (root = Buffer_slice meta 0 32)
                     then Ok (MerkleTree.mk name d tree1)
                     else Throw RootMismatch)).
Proof.
  intros Hget Hdepth Hd Hscan tr0 ws.
  assert (table_total d (LazyTree.constructor d)) as Htab.
  { intros k Hk. cbn. rewrite populateEmptyHashes_lookup by done. by eexists. }
  pose proof (new_on_record db name depth meta d entries Hget Hdepth Hd Hscan)
    as Hnew. fold ws in Hnew.
  split; [apply constructor_Ok; split; [unfold MAX_DEPTH; lia|done]|].
  split; [apply (replay_decoded_writes entries tr0)|].
  split; [intros w; apply decoded_writes_elem|].
  split; [done|].
  split; [intros tree1 Hrun; apply (set_all_constructor d ws); [lia|done]|].
  split.
  { intros Hbelow. apply (set_all_defined d); [done|].
    apply decoded_writes_below; [lia|done]. }
  intros Hall.
  destruct (replayed_tree d entries Hd Hall)
    as (tree1 & Hrun & Hleaves & Hprop & Hmerkle).
  fold ws in Hrun, Hleaves.
  destruct (set_all_constructor d ws tree1 ltac:(lia) Hrun)
    as (_ & _ & [root Hroot]).
  assert (∀ data index, data ∈ entries → parseInt data.1 = Some index →
            (index + 2 ^ d - 1, Buffer_from_hex data.2) ∈ ws
            ∧ 2 ^ d ≤ (index + 2 ^ d - 1) + 1 < 2 ^ (d + 1)) as Hrec.
  { intros data index Hin Hparse. split.
    - apply decoded_writes_elem. by exists data, index.
    - apply Forall_forall with (x := data) in Hall; [|done].
      unfold replayable in Hall. rewrite Hparse in Hall.
      rewrite Z.pow_add_r, Z.pow_1_r by lia. lia. }
  exists tree1, root. split; [done|]. split; [done|]. split.
  { intros data index Hin Hparse.
    destruct (Hrec data index Hin Hparse) as [Hw Hq].
    rewrite Hleaves by done. apply write_over_is_Some.
    apply list_elem_of_fmap.
    by exists (index + 2 ^ d - 1, Buffer_from_hex data.2). }
  split.
  { intros Hnd data index Hin Hparse.
    destruct (Hrec data index Hin Hparse) as [Hw Hq].
    rewrite Hleaves by done.
    apply (write_over_NoDup ws (index + 2 ^ d - 1, Buffer_from_hex data.2));
      done. }
  split; [done|]. split; [done|]. split; [congruence|].
  rewrite Hnew, Hrun. cbn. rewrite Hroot. done.
Qed.

(** C8.  When the metadata record of [name] exists, the outcome of [new]
    does not depend on the requested depth: the tree is built with the
    depth [d] that bytes 32..35 of the record spell in little-endian
    order, whatever depth the caller asks for.  A record too short to hold
    those bytes fails the read.  A stored depth outside [1, 32] fails with
    [BadDepth], also when the requested depth is valid.  Otherwise, once
    the scan has ended without an error, the engine the records are
    replayed into has depth [d] and the empty-subtree table of depth [d],
    and when its root equals the first 32 bytes of the record the call
    returns the handle of depth [d] that holds it.  A handle [new] returns
    on a stored record always has depth [d], in the handle and in its
    engine. *)
Theorem new_uses_stored_depth db name meta requested requested' :
  db_get db name = inr meta →
  MerkleTree.new db name requested = MerkleTree.new db name requested'
  ∧ ((length meta < 36)%nat →
     MerkleTree.new db name requested = Some (db, Throw RangeError))
  ∧ ∀ root b0 b1 b2 b3 rest,
      length root = 32%nat →
      meta = root ++ b0 :: b1 :: b2 :: b3 :: rest →
      let d := Z_of_byte b0 + Z_of_byte b1 * 2 ^ 8
               + Z_of_byte b2 * 2 ^ 16 + Z_of_byte b3 * 2 ^ 24 in
      Buffer_readUInt32LE meta 32 = Some d
      ∧ (¬ 1 ≤ d ≤ 32 →
         MerkleTree.new db name requested = Some (db, Throw BadDepth))
      ∧ (1 ≤ d ≤ 32 → ∀ entries,
           sub_createReadStream db name = (entries, None) →
           MerkleTree.new db name requested
           = (tree1 ← set_all (LazyTree.constructor d) (decoded_writes d entries);
              r ← LazyTree.getRoot tree1;
              Some (db, if decide (r = root)
                        then Ok (MerkleTree.mk name d tree1)
                        else Throw RootMismatch))
           ∧ ∀ tree1,
               set_all (LazyTree.constructor d) (decoded_writes d entries)
               = Some tree1 →
               LazyTree.depth tree1 = d
               ∧ LazyTree.emptyHashes tree1 = LazyTree.populateEmptyHashes d
               ∧ (LazyTree.getRoot tree1 = Some root →
                  MerkleTree.new db name requested
                  = Some (db, Ok (MerkleTree.mk name d tree1)))
               ∧ (LazyTree.getRoot tree1 ≠ Some root →
                  MerkleTree.new db name requested
                  = Some (db, Throw RootMismatch)))
      ∧ (∀ db' tr,
           MerkleTree.new db name requested = Some (db', Ok tr) →
           MerkleTree.depth tr = d
           ∧ LazyTree.depth (MerkleTree.tree tr) = d
           ∧ LazyTree.emptyHashes (MerkleTree.tree tr)
             = LazyTree.populateEmptyHashes d).
Proof.
  intros Hget. split; [|split].
  - unfold MerkleTree.new. by rewrite Hget.
  - intros Hshort. unfold MerkleTree.new. rewrite Hget.
    replace (Buffer_readUInt32LE meta 32) with (@None Z); [done|].
    unfold Buffer_readUInt32LE.
    pose proof (length_drop meta (Z.to_nat 32)) as Hlen.
    destruct (drop (Z.to_nat 32) meta) as [|? [|? [|? [|? ?]]]]; try done.
    cbn in Hlen. lia.
  - intros root b0 b1 b2 b3 rest Hroot Hmeta d.
    assert (Buffer_readUInt32LE meta 32 = Some d) as Hread.
    { unfold Buffer_readUInt32LE. rewrite Hmeta.
      change (Z.to_nat 32) with 32%nat. rewrite <- Hroot.
      by rewrite drop_app_length. }
    assert (Buffer_slice meta 0 32 = root) as Hslice.
    { unfold Buffer_slice. rewrite Hmeta.
      change (Z.to_nat (32 - 0)) with 32%nat. change (Z.to_nat 0) with 0%nat.
      rewrite drop_0, <- Hroot. by rewrite take_app_length. }
    split; [done|]. split; [|split].
    + intros Hbad. unfold MerkleTree.new. rewrite Hget, Hread.
      replace (MerkleTree.constructor name d) with (@Throw MerkleTree.t BadDepth);
        [done|].
      symmetry. apply constructor_Throw. split; [unfold MAX_DEPTH; lia|done].
    + intros Hd entries Hscan.
      pose proof (new_on_record db name requested meta d entries
                    Hget Hread Hd Hscan) as Hnew.
      rewrite Hslice in Hnew. split; [done|].
      intros tree1 Hrun.
      destruct (set_all_constructor d _ tree1 ltac:(lia) Hrun)
        as (Hdep & HE & [r Hr]).
      split; [done|]. split; [done|].
      rewrite Hnew, Hrun. cbn. rewrite Hr. cbn. split.
      * intros [= ->]. by rewrite decide_True.
      * intros Hne. rewrite decide_False; [done|]. by intros ->.
    + intros db' tr Hnew.
      pose proof (new_handle_ok _ _ _ _ _ Hnew) as (_ & Hdep & HE).
      assert (MerkleTree.depth tr = d) as Hdtr.
      { revert Hnew. unfold MerkleTree.new. rewrite Hget, Hread.
        destruct (MerkleTree.constructor name d) as [tr0|e0] eqn:Hctor; [|done].
        apply constructor_Ok in Hctor as [Hd ->].
        unfold MerkleTree.restoreElements.
        destruct (sub_createReadStream db _) as [entries err]. cbn.
        destruct (MerkleTree.replay _ entries) as [tr1|] eqn:Hreplay; cbn; [|done].
        destruct err as [e|]; [done|].
        destruct (MerkleTree.getRoot tr1) as [r|]; cbn; [|done].
        case_decide; [|done]. intros [= <- <-].
        by apply replay_fields in Hreplay as (_ & -> & _). }
      rewrite Hdep, HE, Hdtr. done.
Qed.

End restore_facts.

(** * Runs on concrete inputs *)

Module Runs.
Import Instances.

#[local] Existing Instance checksum_hasher.
#[local] Existing Instance decimal_platform.
#[local] Existing Instance memdown.

Ltac run := vm_compute; done.

Lemma tree2_ok : handle_ok tree2.
Proof. repeat split; run. Defined.

Example reopen_stored :
  ∃ tr, MerkleTree.new stored "t" (Some 7) = Some (stored, Ok tr)
      ∧ MerkleTree.depth tr = 2.
Proof. eexists. split; [vm_compute; reflexivity|reflexivity]. Qed.

(** The scenario of depth 2: writing leaf 0 of a new tree. *)
Example depth2_scenario :
  let E := hash (Buffer_alloc 64) in
  let h0 := hash (payload x01) in
  MerkleTree.getRoot tree2 = Some (compress (compress E E) (compress E E))
  ∧ ∃ tr' db' root,
      MerkleTree.updateElement tree2 empty_store 0 (payload x01)
      = Some (tr', db', Ok root)
      ∧ root = compress (compress h0 E) (compress E E)
      ∧ MerkleTree.getHashPath tr' 0
        = [(Some h0, Some E);
           (Some (compress h0 E), Some (compress E E))].
Proof.
  split; [reflexivity|]. eexists _, _, _.
  split; [vm_compute; reflexivity|]. split; reflexivity.
Qed.

(** The update is kept in memory when the store rejects the write. *)
Example failed_update_changes_root :
  ∃ tr' e,
    MerkleTree.updateElement tree2 write_failing 1 (payload x01)
    = Some (tr', write_failing, Throw (StoreFailure e))
    ∧ MerkleTree.getRoot tr' ≠ MerkleTree.getRoot tree2.
Proof. eexists _, _. split; [vm_compute; reflexivity|run]. Qed.

(** A record deleted or altered behind the tree's back is caught on
    reopening. *)
Example deleted_leaf_detected :
  MerkleTree.new (mem (records stored) [] None None) "t" None
  = Some (mem (records stored) [] None None, Throw RootMismatch).
Proof. run. Qed.

Example altered_leaf_detected :
  MerkleTree.new
    (mem (records stored) [("t", "0", Buffer_toString_hex (hash (payload x02)))]
       None None)
    "t" None
  = Some (mem (records stored)
            [("t", "0", Buffer_toString_hex (hash (payload x02)))] None None,
          Throw RootMismatch).
Proof. run. Qed.

Lemma updateElement_then_getHashPath_witness :
  handle_ok tree2 ∧ 0 ≤ 1 < 2 ^ MerkleTree.depth tree2
  ∧ ∃ path root,
      length path = 2%nat
      ∧ reconstruct (MerkleTree.elementTreeIndex tree2 1)
          (hash (payload x01)) path = root
      ∧ links (hash (payload x01)) path root.
Proof.
  split; [apply tree2_ok|]. split; [run|].
  destruct (updateElement_then_getHashPath tree2 empty_store 1 (payload x01))
    as (tr' & db' & res & path & root & _ & _ & Hlen & _ & _ & Hrec & Hlinks & _).
  - apply tree2_ok.
  - run.
  - exists path, root. split; [exact Hlen|]. split; [exact Hrec|exact Hlinks].
Defined.

Lemma fresh_root_is_empty_table_root_witness :
  1 ≤ 2 ≤ 32
  ∧ ∃ tr, MerkleTree.constructor "t" 2 = Ok tr
        ∧ MerkleTree.getRoot tr = Some (empty_spec 2 0).
Proof.
  split; [run|].
  destruct (fresh_root_is_empty_table_root empty_store "t" 2)
    as (tr & Hctor & Hroot & _).
  - run.
  - exists tr. split; [exact Hctor|exact Hroot].
Defined.

Lemma updateElement_idempotent_witness :
  handle_ok tree2 ∧ 0 ≤ 1 < 2 ^ MerkleTree.depth tree2
  ∧ ∃ tr1 db1 res1,
      MerkleTree.updateElement tree2 empty_store 1 (payload x01)
      = Some (tr1, db1, res1)
      ∧ ∃ db3 res2,
          MerkleTree.updateElement tr1 db1 1 (payload x01)
          = Some (tr1, db3, res2).
Proof.
  split; [apply tree2_ok|]. split; [run|].
  destruct (updateElement_idempotent tree2 empty_store 1 (payload x01))
    as (_ & tr1 & db1 & res1 & root & Hupd & _ & Hagain).
  - apply tree2_ok.
  - run.
  - exists tr1, db1, res1. split; [exact Hupd|].
    destruct (Hagain db1) as (db3 & res2 & Hupd2 & _).
    exists db3, res2. exact Hupd2.
Defined.

Lemma updateElement_order_independent_witness :
  handle_ok tree2
  ∧ 0 ≤ 0 < 2 ^ MerkleTree.depth tree2 ∧ 0 ≤ 3 < 2 ^ MerkleTree.depth tree2
  ∧ 0 ≠ 3
  ∧ ∃ tr_i tr_j tr_both,
      (∃ db' res, MerkleTree.updateElement tr_i empty_store 3 (payload x02)
                  = Some (tr_both, db', res))
      ∧ (∃ db' res, MerkleTree.updateElement tr_j empty_store 0 (payload x01)
                    = Some (tr_both, db', res)).
Proof.
  split; [apply tree2_ok|]. split; [run|]. split; [run|]. split; [lia|].
  destruct (updateElement_order_independent tree2 0 3 (payload x01) (payload x02))
    as (tr_i & tr_j & tr_both & root & _ & _ & Hij & _ & Hji).
  - apply tree2_ok.
  - run.
  - run.
  - lia.
  - exists tr_i, tr_j, tr_both. split.
    + destruct (Hij empty_store) as (db' & res & Hrun & _).
      exists db', res. exact Hrun.
    + destruct (Hji empty_store) as (db' & res & Hrun & _).
      exists db', res. exact Hrun.
Defined.

Lemma set_writes_leaf_and_ancestors_witness :
  engine_ok 2 (LazyTree.constructor 2) ∧ 2 ^ 2 - 1 ≤ 4 ≤ 2 ^ (2 + 1) - 2
  ∧ ∃ tree',
      LazyTree.set (LazyTree.constructor 2) 4 (hash (payload x01)) = Some tree'
      ∧ dom (LazyTree.nodes tree')
        = dom (LazyTree.nodes (LazyTree.constructor 2))
          ∪ list_to_set (4 :: ancestors 4)
      ∧ length (4 :: ancestors 4) = Z.to_nat (2 + 1).
Proof.
  split; [repeat split; run|]. split; [run|].
  destruct (set_writes_leaf_and_ancestors 2 (LazyTree.constructor 2)
              4 (hash (payload x01)))
    as (tree' & Hset & Hdom & _ & Hlen & _).
  - repeat split; run.
  - run.
  - exists tree'. split; [exact Hset|]. split; [exact Hdom|exact Hlen].
Defined.

Lemma new_checks_restored_root_witness :
  db_get stored "t" = inr stored_meta
  ∧ Buffer_readUInt32LE stored_meta 32 = Some 2
  ∧ sub_createReadStream stored "t" = (stored_entries, None)
  ∧ Forall (replayable 2) stored_entries
  ∧ ∃ tree1,
      LazyTree.nodes tree1 !! 3 = Some (hash (payload x01))
      ∧ proper 2 tree1
      ∧ MerkleTree.new stored "t" (Some 7)
        = Some (stored, Ok (MerkleTree.mk "t" 2 tree1)).
Proof.
  assert (Forall (replayable 2) stored_entries) as Hall.
  { constructor; [run|constructor]. }
  split; [reflexivity|]. split; [reflexivity|]. split; [reflexivity|].
  split; [exact Hall|].
  pose proof (new_checks_restored_root stored "t" (Some 7) stored_meta 2
                stored_entries eq_refl eq_refl ltac:(lia) eq_refl)
    as (_ & _ & _ & _ & _ & _ & Hin).
  destruct (Hin Hall)
    as (tree1 & root & Hrun & _ & _ & Hrecord & Hprop & Hroot & _ & Hnew).
  clear Hin. exists tree1. split; [|split; [exact Hprop|]].
  - assert (("0", Buffer_toString_hex (hash (payload x01))) ∈ stored_entries)
      as Hstored by (apply elem_of_cons; left; reflexivity).
    pose proof (Hrecord ltac:(vm_compute; repeat constructor; apply not_elem_of_nil)
                  _ 0 Hstored eq_refl) as Hleaf.
    vm_compute in Hleaf. vm_compute. exact Hleaf.
  - clear Hrecord Hprop Hall.
    vm_compute in Hrun. injection Hrun as <-.
    vm_compute in Hroot. injection Hroot as <-.
    rewrite Hnew. vm_compute. reflexivity.
Defined.

Lemma new_uses_stored_depth_witness :
  db_get stored "t" = inr stored_meta
  ∧ Buffer_readUInt32LE stored_meta 32 = Some 2
  ∧ MerkleTree.new stored "t" (Some 7) = MerkleTree.new stored "t" None
  ∧ ∃ tree1,
      MerkleTree.new stored "t" (Some 7)
      = Some (stored, Ok (MerkleTree.mk "t" 2 tree1))
      ∧ LazyTree.depth tree1 = 2
      ∧ LazyTree.emptyHashes tree1 = LazyTree.populateEmptyHashes 2.
Proof.
  split; [reflexivity|].
  pose proof (new_uses_stored_depth stored "t" stored_meta (Some 7) None eq_refl)
    as (Hsame & _ & Hrecord).
  destruct (Hrecord (take 32 stored_meta) x02 x00 x00 x00 [x00; x00; x00; x00])
    as (Hread & _ & Hin & _).
  { reflexivity. }
  { vm_compute. reflexivity. }
  clear Hrecord. split; [exact Hread|]. split; [exact Hsame|].
  destruct (Hin ltac:(vm_compute; split; discriminate) stored_entries eq_refl)
    as (_ & Htree).
  clear Hin Hread Hsame.
  destruct (set_all (LazyTree.constructor 2) (decoded_writes 2 stored_entries))
    as [tree1|] eqn:Hrun; [|vm_compute in Hrun; discriminate Hrun].
  destruct (Htree tree1) as (Hdepth & Htable & Hmatch & _).
  { vm_compute. vm_compute in Hrun. exact Hrun. }
  exists tree1. split; [|split; [exact Hdepth|exact Htable]].
  apply Hmatch. clear Htree Hmatch Hdepth Htable.
  vm_compute in Hrun. injection Hrun as <-. vm_compute. reflexivity.
Defined.

Lemma new_default_depth_witness :
  db_get empty_store "t" = inl NotFoundError
  ∧ ∃ tr, MerkleTree.constructor "t" MAX_DEPTH = Ok tr
        ∧ MerkleTree.depth tr = 32.
Proof.
  split; [reflexivity|].
  destruct (new_default_depth empty_store "t" NotFoundError)
    as (tr & db' & err & Hctor & Hdepth & _).
  - reflexivity.
  - exists tr. split; [exact Hctor|exact Hdepth].
Defined.

Lemma updateElement_no_rollback_witness :
  handle_ok tree2 ∧ 0 ≤ 1 < 2 ^ MerkleTree.depth tree2
  ∧ ∃ tr' root db' res,
      MerkleTree.updateElement tree2 write_failing 1 (payload x01)
      = Some (tr', db', res)
      ∧ MerkleTree.getRoot tr' = Some root
      ∧ res = Throw (StoreFailure (IOError "disk full"))
      ∧ root = (let E := hash (Buffer_alloc 64) in
                compress (compress E (hash (payload x01))) (compress E E))
      ∧ MerkleTree.getRoot tree2 ≠ Some root.
Proof.
  split; [apply tree2_ok|]. split; [run|].
  destruct (updateElement_no_rollback tree2 write_failing 1 (payload x01))
    as (tree' & root & tr' & db' & res & pre
        & _ & _ & _ & _ & Hpath & Hrec & _ & _ & Hupd & Hroot & _ & Hleaf & _).
  - apply tree2_ok.
  - run.
  - destruct (Hleaf write_failing (IOError "disk full") eq_refl) as [Hres _].
    exists tr', root, db', res.
    split; [exact Hupd|]. split; [exact Hroot|]. split; [exact Hres|].
    clear Hleaf Hres Hupd Hroot.
    destruct pre as [|[l1 r1] [|[l2 r2] [|? ?]]]; try discriminate Hpath.
    vm_compute in Hpath. injection Hpath as <- <- <- <-.
    rewrite <- Hrec. clear Hrec.
    split; [vm_compute; reflexivity|].
    intros Heq. vm_compute in Heq. discriminate Heq.
Defined.

Lemma store_failures_surface_witness :
  ∃ tr', MerkleTree.updateElement tree2 write_failing 1 (payload x01)
         = Some (tr', write_failing, Throw (StoreFailure (IOError "disk full"))).
Proof.
  destruct (store_failures_surface (DB := MemDown)) as (Hleaf & _).
  apply (Hleaf tree2 write_failing 1 (payload x01)).
  - apply tree2_ok.
  - run.
  - reflexivity.
Defined.

(** C4 as stated fails: on a store that holds tree "t" and rejects
    reads, the metadata [get] fails with an I/O error, and [new] returns
    a handle all the same, a new empty tree, after overwriting the
    record of "t". *)
Lemma new_masks_get_failure :
  db_get read_failing "t" = inl (IOError "read error")
  ∧ ∃ db' tr,
      MerkleTree.new read_failing "t" (Some 2) = Some (db', Ok tr)
      ∧ MerkleTree.getRoot tr = Some (empty_spec 2 0)
      ∧ db_get stored "t" ≠ db_get (mem (records db') (leaves db') None None) "t".
Proof.
  split; [reflexivity|]. eexists _, _.
  split; [vm_compute; reflexivity|]. split; [reflexivity|run].
Qed.

(** Runs of the further properties. *)

Import Inputs.

Lemma tree2_proper : proper 2 (MerkleTree.tree tree2).
Proof. apply proper_constructor. lia. Defined.

Lemma metadata_record_round_trip_witness :
  length (replicate 32 x07) = 32%nat ∧ 0 ≤ 5 < 2 ^ 32
  ∧ Buffer_readUInt32LE (metadata_record (replicate 32 x07) 5) 32 = Some 5.
Proof.
  split; [reflexivity|]. split; [run|].
  destruct (metadata_record_round_trip (replicate 32 x07) 5) as (_ & _ & Hread).
  - reflexivity.
  - run.
  - exact Hread.
Defined.

Lemma elementTreeIndex_on_leaf_level_witness :
  handle_ok tree2
  ∧ (LazyTree.calculateIndexDepth (MerkleTree.elementTreeIndex tree2 3)
     = Some (MerkleTree.depth tree2)
     ↔ 0 ≤ 3 < 2 ^ MerkleTree.depth tree2).
Proof.
  split; [apply tree2_ok|].
  apply (elementTreeIndex_on_leaf_level tree2 3). apply tree2_ok.
Defined.

Lemma get_undefined_iff_witness :
  engine_ok 2 (LazyTree.constructor 2)
  ∧ (LazyTree.get (LazyTree.constructor 2) 7 = None
     ↔ LazyTree.nodes (LazyTree.constructor 2) !! 7 = None
       ∧ (7 < 0 ∨ 2 ^ (2 + 1) ≤ 7 + 1)).
Proof.
  split; [repeat split; run|].
  apply (get_undefined_iff 2 (LazyTree.constructor 2) 7). repeat split; run.
Defined.

Lemma updateElement_touches_one_leaf_witness :
  handle_ok tree2 ∧ 0 ≤ 1 < 2 ^ MerkleTree.depth tree2
  ∧ ∃ tr' db' res,
      MerkleTree.updateElement tree2 empty_store 1 (payload x01)
      = Some (tr', db', res)
      ∧ LazyTree.get (MerkleTree.tree tr') (MerkleTree.elementTreeIndex tr' 1)
        = Some (hash (payload x01)).
Proof.
  split; [apply tree2_ok|]. split; [run|].
  destruct (updateElement_touches_one_leaf tree2 empty_store 1 (payload x01))
    as (tr' & db' & res & Hupd & Hleaf & _).
  - apply tree2_ok.
  - run.
  - exists tr', db', res. split; [exact Hupd|exact Hleaf].
Defined.

Lemma updateElement_negative_index_witness :
  handle_ok tree2 ∧ 1 - 2 ^ MerkleTree.depth tree2 ≤ -1 < 0
  ∧ ∃ tree' d root,
      LazyTree.set (MerkleTree.tree tree2) (MerkleTree.elementTreeIndex tree2 (-1))
        (hash (payload x01)) = Some tree'
      ∧ LazyTree.calculateIndexDepth (MerkleTree.elementTreeIndex tree2 (-1))
        = Some d
      ∧ 0 ≤ d < MerkleTree.depth tree2
      ∧ LazyTree.getRoot tree' = Some root
      ∧ root = (let E := hash (Buffer_alloc 64) in
                compress (compress E E) (hash (payload x01)))
      ∧ MerkleTree.getRoot tree2 ≠ Some root.
Proof.
  split; [apply tree2_ok|]. split; [run|].
  destruct (updateElement_negative_index tree2 empty_store (-1) (payload x01))
    as (tree' & root & db' & res & d & pre
        & Hset & _ & Hdepth & Hd & _ & _ & _ & _ & Hpath & Hrec & Hroot & _).
  - apply tree2_ok.
  - run.
  - exists tree', d, root. split; [exact Hset|]. split; [exact Hdepth|].
    split; [exact Hd|]. split; [exact Hroot|].
    clear Hset Hdepth Hd Hroot.
    destruct pre as [|[l1 r1] [|? ?]]; try discriminate Hpath.
    vm_compute in Hpath. injection Hpath as <- <-.
    rewrite <- Hrec. clear Hrec.
    split; [vm_compute; reflexivity|].
    intros Heq. vm_compute in Heq. discriminate Heq.
Defined.

Lemma proper_is_invariant_witness :
  MerkleTree.constructor "t" 2 = Ok tree2
  ∧ proper (MerkleTree.depth tree2) (MerkleTree.tree tree2).
Proof.
  assert (MerkleTree.constructor "t" 2 = Ok tree2) as Hctor
    by (vm_compute; reflexivity).
  split; [exact Hctor|].
  pose proof (proper_is_invariant (DB := MemDown)) as (Hnew & _).
  exact (Hnew "t" 2 tree2 Hctor).
Defined.

Lemma getHashPath_verifies_witness :
  handle_ok tree2 ∧ proper (MerkleTree.depth tree2) (MerkleTree.tree tree2)
  ∧ 0 ≤ 2 < 2 ^ MerkleTree.depth tree2
  ∧ ∃ digest path root,
      length path = Z.to_nat (MerkleTree.depth tree2)
      ∧ MerkleTree.getRoot tree2 = Some root
      ∧ links digest path root.
Proof.
  split; [apply tree2_ok|]. split; [apply tree2_proper|]. split; [run|].
  destruct (getHashPath_verifies tree2 2)
    as (digest & path & root & _ & _ & _ & Hlen & Hroot & _ & Hlinks).
  - apply tree2_ok.
  - apply tree2_proper.
  - run.
  - exists digest, path, root. split; [exact Hlen|]. split; [exact Hroot|exact Hlinks].
Defined.

Lemma root_is_merkle_root_witness :
  handle_ok tree2 ∧ proper (MerkleTree.depth tree2) (MerkleTree.tree tree2)
  ∧ MerkleTree.getRoot tree2
    = subtree_digest (MerkleTree.tree tree2) (Z.to_nat (MerkleTree.depth tree2)) 0.
Proof.
  split; [apply tree2_ok|]. split; [apply tree2_proper|].
  destruct (root_is_merkle_root tree2) as [Hroot _].
  - apply tree2_ok.
  - apply tree2_proper.
  - exact Hroot.
Defined.

Lemma updateElement_same_digest_keeps_root_witness :
  handle_ok tree2 ∧ proper (MerkleTree.depth tree2) (MerkleTree.tree tree2)
  ∧ 0 ≤ 1 < 2 ^ MerkleTree.depth tree2
  ∧ LazyTree.nodes (MerkleTree.tree tree2) !! MerkleTree.elementTreeIndex tree2 1
    = None
  ∧ ∃ tr' db' res,
      MerkleTree.updateElement tree2 empty_store 1 (Buffer_alloc 64)
      = Some (tr', db', res)
      ∧ MerkleTree.getRoot tr' = MerkleTree.getRoot tree2.
Proof.
  split; [apply tree2_ok|]. split; [apply tree2_proper|]. split; [run|].
  split; [reflexivity|].
  destruct (updateElement_same_digest_keeps_root tree2 empty_store 1 (Buffer_alloc 64))
    as (tr' & db' & res & Hupd & Hroot & _).
  - apply tree2_ok.
  - apply tree2_proper.
  - run.
  - right. split; reflexivity.
  - exists tr', db', res. split; [exact Hupd|exact Hroot].
Defined.

Lemma update_all_last_write_wins_witness :
  handle_ok tree2
  ∧ ∃ tr', ∃ db1 db1',
      update_all tree2 empty_store
        [(0, payload x01); (3, payload x02); (0, payload x03)]
      = Some (tr', db1)
      ∧ update_all tree2 empty_store [(3, payload x02); (0, payload x03)]
        = Some (tr', db1').
Proof.
  split; [apply tree2_ok|].
  destruct (update_all_last_write_wins tree2
              [(0, payload x01); (3, payload x02); (0, payload x03)]
              [(3, payload x02); (0, payload x03)])
    as (tr' & Hruns).
  - apply tree2_ok.
  - repeat constructor; run.
  - repeat constructor; run.
  - vm_compute. reflexivity.
  - exists tr'. exact (Hruns empty_store empty_store).
Defined.

Lemma reopen_restores_tree_witness :
  ∃ tr db_closed,
    closed = Some (tr, db_closed)
    ∧ MerkleTree.new stored "t" (Some 9) = Some (stored, Ok tr).
Proof.
  destruct closed as [[tr db_closed]|] eqn:Hclosed; [|discriminate Hclosed].
  exists tr, db_closed. split; [reflexivity|].
  apply (reopen_restores_tree "t" 2 one_update empty_store tr db_closed
           stored stored_meta stored_entries stored_writes (Some 9)).
  - run.
  - repeat constructor; run.
  - exact Hclosed.
  - reflexivity.
  - reflexivity.
  - injection Hclosed as <- _. vm_compute. reflexivity.
  - reflexivity.
  - repeat constructor. eexists. split; reflexivity.
  - vm_compute. reflexivity.
Defined.

Lemma getHashPath_of_empty_tree_witness :
  MerkleTree.constructor "t" 2 = Ok tree2 ∧ 0 ≤ 1 < 2 ^ 2
  ∧ length (MerkleTree.getHashPath tree2 1) = Z.to_nat 2.
Proof.
  assert (0 ≤ 1 < 2 ^ 2) as Hi by run.
  assert (MerkleTree.constructor "t" 2 = Ok tree2) as Hctor
    by (vm_compute; reflexivity).
  split; [exact Hctor|]. split; [exact Hi|].
  destruct (getHashPath_of_empty_tree "t" 2 tree2 1 Hctor Hi) as [Hlen _].
  exact Hlen.
Defined.

Lemma updateElement_persists_witness :
  ∃ tr' db' root meta,
    MerkleTree.updateElement tree2 empty_store 1 (payload x01)
    = Some (tr', db', Ok root)
    ∧ length root = 32%nat
    ∧ Buffer_slice meta 0 32 = root
    ∧ Buffer_readUInt32LE meta 32 = Some (MerkleTree.depth tr').
Proof.
  destruct (MerkleTree.updateElement tree2 empty_store 1 (payload x01))
    as [[[tr' db'] [root|e]]|] eqn:Hupd;
    [|vm_compute in Hupd; discriminate Hupd..].
  assert (length root = 32%nat) as Hlen.
  { vm_compute in Hupd. injection Hupd as _ _ <-. reflexivity. }
  destruct (updateElement_persists tree2 empty_store 1 (payload x01) tr' db' root)
    as (db1 & meta & _ & _ & _ & Hslice & Hread & _).
  - apply tree2_ok.
  - run.
  - exact Hupd.
  - exact Hlen.
  - exists tr', db', root, meta.
    split; [reflexivity|]. split; [exact Hlen|]. split; [exact Hslice|exact Hread].
Defined.

(** What writing through a negative index does to the tree of the
    depth-2 scenario: the root is no longer the Merkle root of the
    leaves. *)
Example negative_index_breaks_root :
  ∃ tr' db' res,
    MerkleTree.updateElement tree2 empty_store (-1) (payload x01)
    = Some (tr', db', res)
    ∧ MerkleTree.getRoot tr'
      ≠ subtree_digest (MerkleTree.tree tr') 2 0.
Proof. eexists _, _, _. split; [vm_compute; reflexivity|run]. Qed.

End Runs.
